(** * Bias-aware hierarchical clustering: a shallow embedding of
      [unsupervised_bias_detection/clustering/_bahc.py]

    The class [BiasAwareHierarchicalClustering] is embedded method by method.

    Modelling conventions.
    - Real numbers are exact rationals ([Q]).  A value produced by numpy
      arithmetic is an [npfloat]: a rational or [NaN] (what [np.mean] and
      [np.std] give on an empty selection); rounding, overflow and
      infinities are not modelled.
    - Arrays are lists; an integer label or index is a [nat] (the label
      arrays are [uint32] in the source; runs creating 2^32 clusters or more
      are outside the model).  A matrix of samples is the list of its rows;
      the centroid table is the list of its columns.
    - A Python exception is a value of [exn]; a computation that may raise
      has type [result A].
    - [self] is the record [engine]; an attribute that is not set yet is
      [None].  A method returns the engine it leaves behind together with
      its outcome.
    - [_split] is abstract in the source and [np.std] has no rational
      value in general: both are parameters of the development.
      [np.argsort] is an interface with its laws (numpy does not fix the
      order of ties), with an insertion sort as instance.
    - [heapq.heappush] and [heapq.heappop] follow CPython's list based
      binary heap, tuple comparison included.

    The metrics and the guard [check_before_test] of
    [paper_analysis/run_experiment.py] are embedded as well; the script
    turns numpy's warnings into exceptions, which are outcomes of their
    own there.  Its simulations and t-tests (random draws, scikit-learn,
    scipy) are not modelled. *)

From Stdlib Require Import List Arith ZArith QArith Qminmax Lia Bool Permutation Sorted.
From Stdlib Require Import Qreduction Lqa.
Import ListNotations.

Local Close Scope Q_scope.

(** ** Exceptions and fallible computations *)

Inductive exn : Type :=
| ValueError
| IndexError
| TypeError
| AttributeError
| NotFittedError.

Inductive result (A : Type) : Type :=
| Ok (a : A)
| Raise (e : exn).

Arguments Ok {A} a.
Arguments Raise {A} e.

Definition bind {A B : Type} (m : result A) (k : A -> result B) : result B :=
  match m with
  | Ok a => k a
  | Raise e => Raise e
  end.

Notation "x <- m ;; k" := (bind m (fun x => k))
  (at level 61, m at next level, right associativity).
Notation "' p <- m ;; k" := (bind m (fun x => let p := x in k))
  (at level 61, p pattern, m at next level, right associativity).

(** ** numpy floats: exact rationals and NaN *)

Inductive npfloat : Type :=
| Fin (q : Q)
| NaN.

Definition fneg (a : npfloat) : npfloat :=
  match a with Fin x => Fin (- x)%Q | NaN => NaN end.

Definition fadd (a b : npfloat) : npfloat :=
  match a, b with Fin x, Fin y => Fin (x + y)%Q | _, _ => NaN end.

Definition fsub (a b : npfloat) : npfloat :=
  match a, b with Fin x, Fin y => Fin (x - y)%Q | _, _ => NaN end.

Definition fmul (a b : npfloat) : npfloat :=
  match a, b with Fin x, Fin y => Fin (x * y)%Q | _, _ => NaN end.

(** Comparisons: every comparison with NaN is false. *)
Definition feq (a b : npfloat) : bool :=
  match a, b with Fin x, Fin y => Qeq_bool x y | _, _ => false end.

Definition flt (a b : npfloat) : bool :=
  match a, b with
  | Fin x, Fin y => Qle_bool x y && negb (Qeq_bool x y)
  | _, _ => false
  end.

Definition fgt (a b : npfloat) : bool := flt b a.

Definition fge (a b : npfloat) : bool :=
  match a, b with Fin x, Fin y => Qle_bool y x | _, _ => false end.

(** Python's builtin [max(a, b)]: the first argument is kept unless the
    second is strictly greater. *)
Definition pymax (a b : npfloat) : npfloat := if fgt b a then b else a.

Definition is_fin (a : npfloat) : bool :=
  match a with Fin _ => true | NaN => false end.

(** ** numpy array operations on lists *)

Definition Qsum (l : list Q) : Q := fold_left Qplus l 0%Q.

(** [np.mean] of a one-dimensional array: NaN on an empty one. *)
Definition np_mean (l : list Q) : npfloat :=
  match l with
  | [] => NaN
  | _ => Fin (Qsum l / inject_Z (Z.of_nat (length l)))%Q
  end.

(** [np.nonzero(mask)[0]]: the positions holding [true], ascending. *)
Fixpoint nonzero_from (i : nat) (mask : list bool) : list nat :=
  match mask with
  | [] => []
  | b :: m => if b then i :: nonzero_from (S i) m else nonzero_from (S i) m
  end.

Definition np_nonzero (mask : list bool) : list nat := nonzero_from 0 mask.

(** [a[idx]] for an integer index array: IndexError out of range. *)
Fixpoint take_idx {A : Type} (a : list A) (idx : list nat) : result (list A) :=
  match idx with
  | [] => Ok []
  | i :: r =>
      match nth_error a i with
      | Some x => t <- take_idx a r ;; Ok (x :: t)
      | None => Raise IndexError
      end
  end.

(** [a[mask]] for a boolean mask: IndexError when the lengths differ. *)
Fixpoint select {A : Type} (mask : list bool) (a : list A) : list A :=
  match mask, a with
  | b :: m, x :: r => if b then x :: select m r else select m r
  | _, _ => []
  end.

Definition take_mask {A : Type} (a : list A) (mask : list bool) : result (list A) :=
  if length mask =? length a then Ok (select mask a) else Raise IndexError.

(** [a[i] = v] on a list. *)
Fixpoint set_nth {A : Type} (a : list A) (i : nat) (v : A) : list A :=
  match a, i with
  | [], _ => []
  | _ :: r, O => v :: r
  | x :: r, S j => x :: set_nth r j v
  end.

(** [a[idx] = v] for an integer index array and a scalar [v]. *)
Fixpoint assign_idx {A : Type} (a : list A) (idx : list nat) (v : A) : result (list A) :=
  match idx with
  | [] => Ok a
  | i :: r =>
      if i <? length a then assign_idx (set_nth a i v) r v else Raise IndexError
  end.

(** ** The discrimination score (lines 96-101 of the source)

    [mask = np.ones(n_samples, dtype=bool); mask[indices] = False;
     score = np.mean(y[mask]) - np.mean(y[indices])] *)
Definition disc_score (n_samples : nat) (y : list Q) (indices : list nat)
  : result npfloat :=
  mask <- assign_idx (repeat true n_samples) indices false ;;
  outside <- take_mask y mask ;;
  inside <- take_idx y indices ;;
  Ok (fsub (np_mean outside) (np_mean inside)).

(** The same score as the specification words it: the mean of [y] over the
    dataset indices that are not in the side, minus the mean of [y] over the
    indices of the side. *)
Definition complement_of (n_samples : nat) (side : list nat) : list nat :=
  filter (fun i => negb (existsb (Nat.eqb i) side)) (seq 0 n_samples).

Definition y_over (y : list Q) (idx : list nat) : list Q :=
  map (fun i => nth i y 0%Q) idx.

Definition spec_score (n_samples : nat) (y : list Q) (side : list nat) : npfloat :=
  fsub (np_mean (y_over y (complement_of n_samples side)))
       (np_mean (y_over y side)).

(** [np.unique]: the distinct values, ascending. *)
Definition np_unique (labels : list nat) : list nat :=
  match labels with
  | [] => []
  | _ => filter (fun v => existsb (Nat.eqb v) labels) (seq 0 (S (list_max labels)))
  end.

(** [np.sum] of a one-dimensional float array. *)
Definition np_sum (l : list npfloat) : npfloat := fold_left fadd l (Fin 0%Q).

(** [np.argmin] of a one-dimensional float array: the first position of
    the minimum, the first NaN when there is one, ValueError when empty. *)
Fixpoint argmin_scan (i best_i : nat) (best : npfloat) (l : list npfloat) : nat :=
  match l with
  | [] => best_i
  | v :: r =>
      if is_fin best then
        if fge v best then argmin_scan (S i) best_i best r
        else argmin_scan (S i) i v r
      else best_i
  end.

Definition np_argmin (l : list npfloat) : result nat :=
  match l with
  | [] => Raise ValueError
  | v :: r => Ok (argmin_scan 1 0 v r)
  end.

(** [np.mean(rows, axis=0)] for rows of [d] features. *)
Definition np_mean_axis0 (d : nat) (rows : list (list Q)) : list npfloat :=
  map (fun j => np_mean (map (fun row => nth j row 0%Q) rows)) (seq 0 d).

(** [row - col] under numpy broadcasting of a sample row against a centroid
    column: equal lengths, or one of the two of length one. *)
Definition broadcast_sub (row : list Q) (col : list npfloat) : result (list npfloat) :=
  if length row =? length col then
    Ok (map (fun p => fsub (Fin (fst p)) (snd p)) (combine row col))
  else if length col =? 1 then
    Ok (map (fun x => fsub (Fin x) (hd NaN col)) row)
  else if length row =? 1 then
    Ok (map (fun c => fsub (Fin (hd 0%Q row)) c) col)
  else Raise ValueError.

(** [mapping[clusters] = np.arange(n)]: the values [0 .. n-1] are stored at
    the positions [clusters], in order (the last store wins); ValueError
    when [arange(n)] cannot be broadcast to the shape of [clusters]. *)
Fixpoint scatter_from (mapping : list nat) (clusters : list nat) (v : nat)
  : result (list nat) :=
  match clusters with
  | [] => Ok mapping
  | c :: r =>
      if c <? length mapping then scatter_from (set_nth mapping c v) r (S v)
      else Raise IndexError
  end.

Definition scatter_arange (mapping : list nat) (clusters : list nat) (n : nat)
  : result (list nat) :=
  if length clusters =? n then scatter_from mapping clusters 0
  else if n =? 1 then assign_idx mapping clusters 0
  else Raise ValueError.

(** ** heapq on tuples [(key, label, score)] *)

(** A heap entry; the key is [None] for the initial entry only. *)
Definition cand : Type := (option npfloat * nat * npfloat)%type.

Definition cand_label (c : cand) : nat := snd (fst c).
Definition cand_score (c : cand) : npfloat := snd c.

Definition key_eq (a b : option npfloat) : bool :=
  match a, b with
  | None, None => true
  | Some x, Some y => feq x y
  | _, _ => false
  end.

(** [None < x] raises TypeError in Python 3. *)
Definition key_lt (a b : option npfloat) : result bool :=
  match a, b with
  | Some x, Some y => Ok (flt x y)
  | _, _ => Raise TypeError
  end.

(** Tuple comparison [a < b]: the first position where the two differ
    under [==] decides. *)
Definition cand_lt (a b : cand) : result bool :=
  let '(k1, l1, s1) := a in
  let '(k2, l2, s2) := b in
  if negb (key_eq k1 k2) then key_lt k1 k2
  else if negb (l1 =? l2) then Ok (l1 <? l2)
  else if negb (feq s1 s2) then Ok (flt s1 s2)
  else Ok false.

Definition load {A : Type} (a : list A) (i : nat) : result A :=
  match nth_error a i with
  | Some x => Ok x
  | None => Raise IndexError
  end.

Definition store {A : Type} (a : list A) (i : nat) (v : A) : result (list A) :=
  if i <? length a then Ok (set_nth a i v) else Raise IndexError.

(** The loop of [heapq._siftdown]; [pos] decreases at every turn, so [pos]
    turns of fuel are enough. *)
Fixpoint siftdown_loop (fuel : nat) (heap : list cand) (startpos pos : nat)
  (newitem : cand) : result (list cand) :=
  match fuel with
  | O => store heap pos newitem
  | S fuel' =>
      if startpos <? pos then
        let parentpos := Nat.div2 (pos - 1) in
        parent <- load heap parentpos ;;
        lt <- cand_lt newitem parent ;;
        if lt then
          heap' <- store heap pos parent ;;
          siftdown_loop fuel' heap' startpos parentpos newitem
        else store heap pos newitem
      else store heap pos newitem
  end.

Definition _siftdown (heap : list cand) (startpos pos : nat) : result (list cand) :=
  newitem <- load heap pos ;;
  siftdown_loop pos heap startpos pos newitem.

(** The loop of [heapq._siftup]: returns the heap and the final [pos].
    [pos] increases at every turn and stays below [endpos]. *)
Fixpoint siftup_loop (fuel : nat) (heap : list cand) (endpos pos : nat)
  : result (list cand * nat) :=
  match fuel with
  | O => Ok (heap, pos)
  | S fuel' =>
      let childpos := 2 * pos + 1 in
      if childpos <? endpos then
        let rightpos := childpos + 1 in
        childpos' <-
          (if rightpos <? endpos then
             l <- load heap childpos ;;
             r <- load heap rightpos ;;
             lt <- cand_lt l r ;;
             Ok (if negb lt then rightpos else childpos)
           else Ok childpos) ;;
        child <- load heap childpos' ;;
        heap' <- store heap pos child ;;
        siftup_loop fuel' heap' endpos childpos'
      else Ok (heap, pos)
  end.

Definition _siftup (heap : list cand) (pos : nat) : result (list cand) :=
  let endpos := length heap in
  let startpos := pos in
  newitem <- load heap pos ;;
  '(heap', pos') <- siftup_loop endpos heap endpos pos ;;
  heap'' <- store heap' pos' newitem ;;
  _siftdown heap'' startpos pos'.

Definition heappush (heap : list cand) (item : cand) : result (list cand) :=
  let heap' := heap ++ [item] in
  _siftdown heap' 0 (length heap' - 1).

(** [list.pop()]: the list without its last element, and that element. *)
Fixpoint list_pop {A : Type} (l : list A) : option (list A * A) :=
  match l with
  | [] => None
  | x :: r =>
      match list_pop r with
      | None => Some ([], x)
      | Some (r', z) => Some (x :: r', z)
      end
  end.

Definition heappop (heap : list cand) : result (cand * list cand) :=
  match list_pop heap with
  | None => Raise IndexError
  | Some (heap', lastelt) =>
      match heap' with
      | [] => Ok (lastelt, [])
      | returnitem :: _ =>
          heap'' <- store heap' 0 lastelt ;;
          heap''' <- _siftup heap'' 0 ;;
          Ok (returnitem, heap''')
      end
  end.

(** ** Input validation ([BaseEstimator._validate_data])

    The sample matrix is two-dimensional with at least one row and one
    feature; [y] has one entry per row.  With [reset=False] and no
    [n_features_in_] attribute (the class never sets it) the number of
    features is not compared with anything. *)
Definition validate_X (X : list (list Q)) : result unit :=
  match X with
  | [] => Raise ValueError
  | row :: _ =>
      if (1 <=? length row) && forallb (fun r => length r =? length row) X
      then Ok tt else Raise ValueError
  end.

Definition validate_Xy (X : list (list Q)) (y : list Q) : result unit :=
  _ <- validate_X X ;;
  if length y =? length X then Ok tt else Raise ValueError.

(** [X.shape[1]] *)
Definition n_features (X : list (list Q)) : nat := length (hd [] X).

(** ** The estimator object *)

Record engine : Type := {
  n_iter : Z;
  min_cluster_size : Z;
  n_clusters_ : option nat;
  scores_ : option (list npfloat);
  labels_ : option (list nat);
  centroids_ : option (list (list npfloat))
}.

(** [__init__] *)
Definition init (n_iter min_cluster_size : Z) : engine :=
  {| n_iter := n_iter; min_cluster_size := min_cluster_size;
     n_clusters_ := None; scores_ := None; labels_ := None; centroids_ := None |}.

(** A method: from [self] before the call to [self] after it and the outcome. *)
Definition method (A : Type) : Type := engine -> engine * result A.

Definition mret {A : Type} (a : A) : method A := fun e => (e, Ok a).

Definition mbind {A B : Type} (m : method A) (k : A -> method B) : method B :=
  fun e =>
    match m e with
    | (e', Ok a) => k a e'
    | (e', Raise ex) => (e', Raise ex)
    end.

Definition lift {A : Type} (r : result A) : method A := fun e => (e, r).

Notation "x <~ m ;; k" := (mbind m (fun x => k))
  (at level 61, m at next level, right associativity).

Definition set_n_clusters (n : nat) : method unit :=
  fun e => ({| n_iter := n_iter e; min_cluster_size := min_cluster_size e;
               n_clusters_ := Some n; scores_ := scores_ e;
               labels_ := labels_ e; centroids_ := centroids_ e |}, Ok tt).

Definition set_scores (s : list npfloat) : method unit :=
  fun e => ({| n_iter := n_iter e; min_cluster_size := min_cluster_size e;
               n_clusters_ := n_clusters_ e; scores_ := Some s;
               labels_ := labels_ e; centroids_ := centroids_ e |}, Ok tt).

Definition set_labels (l : list nat) : method unit :=
  fun e => ({| n_iter := n_iter e; min_cluster_size := min_cluster_size e;
               n_clusters_ := n_clusters_ e; scores_ := scores_ e;
               labels_ := Some l; centroids_ := centroids_ e |}, Ok tt).

Definition set_centroids (c : list (list npfloat)) : method unit :=
  fun e => ({| n_iter := n_iter e; min_cluster_size := min_cluster_size e;
               n_clusters_ := n_clusters_ e; scores_ := scores_ e;
               labels_ := labels_ e; centroids_ := Some c |}, Ok tt).

(** Reading an attribute that is not set raises AttributeError. *)
Definition get_attr {A : Type} (f : engine -> option A) : method A :=
  fun e => (e, match f e with Some a => Ok a | None => Raise AttributeError end).

(** The loop of [calc_centroids] over the distinct labels. *)
Fixpoint centroid_columns (X : list (list Q)) (labels : list nat) (d : nat)
  (uniq : list nat) : result (list (list npfloat)) :=
  match uniq with
  | [] => Ok []
  | label :: r =>
      X_label <- take_mask X (map (fun l => l =? label) labels) ;;
      cs <- centroid_columns X labels d r ;;
      Ok (np_mean_axis0 d X_label :: cs)
  end.

(** [calc_centroids]: one column per distinct label, ascending. *)
Definition calc_centroids (X : list (list Q)) (labels : list nat)
  : result (list (list npfloat)) :=
  centroid_columns X labels (n_features X) (np_unique labels).

(** The local variables of [fit] while it loops; [fs_n_clusters] is
    [self.n_clusters_], written back to [self] when the loop is left. *)
Record fit_state : Type := {
  fs_n_clusters : nat;
  fs_labels : list nat;
  fs_clusters : list nat;
  fs_scores : list npfloat;
  fs_heap : list cand;
  fs_label : nat;
  fs_score : npfloat
}.

Definition init_state (n_samples : nat) : fit_state :=
  {| fs_n_clusters := 1;
     fs_labels := repeat 0 n_samples;
     fs_clusters := [];
     fs_scores := [];
     fs_heap := [(None, 0, Fin 0%Q)];
     fs_label := 0;
     fs_score := Fin 0%Q |}.

(** What one turn of the loop knows after lines 85-90: the heap after the
    pop, the popped label and score, and the two sides of the split. *)
Record split_view : Type := {
  sv_heap : list cand;
  sv_label : nat;
  sv_score : npfloat;
  sv_indices0 : list nat;
  sv_indices1 : list nat
}.

(** The test of lines 91-94. *)
Definition sizes_ok (mcs : Z) (v : split_view) : bool :=
  (Z.of_nat (length (sv_indices0 v)) >=? mcs)%Z
  && (Z.of_nat (length (sv_indices1 v)) >=? mcs)%Z.

(** Lines 112-113 and 115-116: the popped cluster is finished. *)
Definition finalize_popped (st : fit_state) (v : split_view) : fit_state :=
  {| fs_n_clusters := fs_n_clusters st;
     fs_labels := fs_labels st;
     fs_clusters := fs_clusters st ++ [sv_label v];
     fs_scores := fs_scores st ++ [sv_score v];
     fs_heap := sv_heap v;
     fs_label := sv_label v;
     fs_score := sv_score v |}.

(** Lines 117-118: the finished clusters followed by those still on the
    heap, and their scores. *)
Definition all_clusters (st : fit_state) : list nat :=
  fs_clusters st ++ map cand_label (fs_heap st).

Definition all_scores (st : fit_state) : list npfloat :=
  fs_scores st ++ map cand_score (fs_heap st).

Section Engine.

(** The abstract method [_split], [np.std] and [np.argsort]. *)
Variable _split : list (list Q) -> list Z.
Variable np_std : list Q -> npfloat.
Variable np_argsort : list npfloat -> list nat.

(** The data and the configuration of one call of [fit]. *)
Section Loop.

Variable X : list (list Q).
Variable y : list Q.
Variable mcs : Z.
Variable n_samples : nat.

(** Lines 85-90. *)
Definition pop_split (st : fit_state) : result split_view :=
  '(popped, heap) <- heappop (fs_heap st) ;;
  let '(_, label, score) := popped in
  let cluster_indices := np_nonzero (map (fun l => l =? label) (fs_labels st)) in
  cluster <- take_idx X cluster_indices ;;
  let cluster_labels := _split cluster in
  indices0 <- take_idx cluster_indices
                (np_nonzero (map (fun l => (l =? 0)%Z) cluster_labels)) ;;
  indices1 <- take_idx cluster_indices
                (np_nonzero (map (fun l => (l =? 1)%Z) cluster_labels)) ;;
  Ok {| sv_heap := heap; sv_label := label; sv_score := score;
        sv_indices0 := indices0; sv_indices1 := indices1 |}.

(** Lines 105-110: the split is materialized. *)
Definition accept_split (st : fit_state) (v : split_view) (score0 score1 : npfloat)
  : result fit_state :=
  y0 <- take_idx y (sv_indices0 v) ;;
  let std0 := np_std y0 in
  heap1 <- heappush (sv_heap v) (Some (fneg std0), sv_label v, score0) ;;
  y1 <- take_idx y (sv_indices1 v) ;;
  let std1 := np_std y1 in
  heap2 <- heappush heap1 (Some (fneg std1), fs_n_clusters st, score1) ;;
  labels <- assign_idx (fs_labels st) (sv_indices1 v) (fs_n_clusters st) ;;
  Ok {| fs_n_clusters := fs_n_clusters st + 1;
        fs_labels := labels;
        fs_clusters := fs_clusters st;
        fs_scores := fs_scores st;
        fs_heap := heap2;
        fs_label := sv_label v;
        fs_score := sv_score v |}.

(** Lines 91-116. *)
Definition decide_split (st : fit_state) (v : split_view) : result fit_state :=
  if sizes_ok mcs v then
    score0 <- disc_score n_samples y (sv_indices0 v) ;;
    score1 <- disc_score n_samples y (sv_indices1 v) ;;
    if fge (pymax score0 score1) (sv_score v) then accept_split st v score0 score1
    else Ok (finalize_popped st v)
  else Ok (finalize_popped st v).

(** One turn of the loop body (lines 85-116). *)
Definition step (st : fit_state) : result fit_state :=
  v <- pop_split st ;;
  decide_split st v.

(** [for _ in range(n_iter)] with the [break] on an empty heap: the last
    state reached and the exception that stopped the loop, if any. *)
Fixpoint fit_loop (turns : nat) (st : fit_state) : fit_state * option exn :=
  match turns with
  | O => (st, None)
  | S turns' =>
      match fs_heap st with
      | [] => (st, None)
      | _ :: _ =>
          match step st with
          | Ok st' => fit_loop turns' st'
          | Raise ex => (st, Some ex)
          end
      end
  end.

End Loop.

(** Lines 73-116 as a method: the loop on the local variables, with
    [self.n_clusters_] written back. *)
Definition run_loop (X : list (list Q)) (y : list Q) (n_samples : nat)
  : method fit_state :=
  fun e =>
    let '(st, r) := fit_loop X y (min_cluster_size e) n_samples
                      (Z.to_nat (n_iter e)) (init_state n_samples) in
    ({| n_iter := n_iter e; min_cluster_size := min_cluster_size e;
        n_clusters_ := Some (fs_n_clusters st); scores_ := scores_ e;
        labels_ := labels_ e; centroids_ := centroids_ e |},
     match r with None => Ok st | Some ex => Raise ex end).

(** [fit] *)
Definition fit (X : list (list Q)) (y : list Q) : method unit :=
  _ <~ lift (validate_Xy X y) ;;
  let n_samples := length X in
  _ <~ set_n_clusters 1 ;;
  st <~ run_loop X y n_samples ;;
  let clusters := all_clusters st in
  let scores := all_scores st in
  let indices := np_argsort (map fneg scores) in
  clusters' <~ lift (take_idx clusters indices) ;;
  scores' <~ lift (take_idx scores indices) ;;
  _ <~ set_scores scores' ;;
  n <~ get_attr n_clusters_ ;;
  mapping <~ lift (scatter_arange (repeat 0 n) clusters' n) ;;
  labels <~ lift (take_idx mapping (fs_labels st)) ;;
  _ <~ set_labels labels ;;
  centroids <~ lift (calc_centroids X labels) ;;
  set_centroids centroids.

(** Lines 160-166: the squared distances of every sample to one centroid. *)
Fixpoint distances_to (X : list (list Q)) (col : list npfloat)
  : result (list npfloat) :=
  match X with
  | [] => Ok []
  | row :: r =>
      diff <- broadcast_sub row col ;;
      ds <- distances_to r col ;;
      Ok (np_sum (map (fun v => fmul v v) diff) :: ds)
  end.

Fixpoint distance_columns (X : list (list Q)) (centroids : list (list npfloat))
  : result (list (list npfloat)) :=
  match centroids with
  | [] => Ok []
  | col :: r =>
      d <- distances_to X col ;;
      ds <- distance_columns X r ;;
      Ok (d :: ds)
  end.

(** [np.argmin(distances, axis=1)] on the list of the columns. *)
Fixpoint argmin_rows (n_samples : nat) (i : nat) (columns : list (list npfloat))
  : result (list nat) :=
  match n_samples with
  | O => Ok []
  | S m =>
      l <- np_argmin (map (fun col => nth i col NaN) columns) ;;
      ls <- argmin_rows m (S i) columns ;;
      Ok (l :: ls)
  end.

(** [predict] *)
Definition predict (X : list (list Q)) : method (list nat) :=
  _ <~ lift (validate_X X) ;;
  let n_samples := length X in
  centroids <~ get_attr centroids_ ;;
  distances <~ lift (distance_columns X centroids) ;;
  lift (argmin_rows n_samples 0 distances).

(** The engine a successful [fit] leaves. *)
Definition fitted (e : engine) (n : nat) (scores : list npfloat)
  (labels : list nat) (centroids : list (list npfloat)) : engine :=
  {| n_iter := n_iter e; min_cluster_size := min_cluster_size e;
     n_clusters_ := Some n; scores_ := Some scores;
     labels_ := Some labels; centroids_ := Some centroids |}.

(** The stages of a successful [fit]. *)
Definition fit_stages (X : list (list Q)) (y : list Q) (e : engine)
  (st : fit_state) (clusters : list nat) (scores : list npfloat)
  (labels : list nat) (centroids : list (list npfloat)) : Prop :=
  validate_Xy X y = Ok tt /\
  fit_loop X y (min_cluster_size e) (length X)
    (Z.to_nat (n_iter e)) (init_state (length X)) = (st, None) /\
  take_idx (all_clusters st) (np_argsort (map fneg (all_scores st))) = Ok clusters /\
  take_idx (all_scores st) (np_argsort (map fneg (all_scores st))) = Ok scores /\
  (exists mapping,
      scatter_arange (repeat 0 (fs_n_clusters st)) clusters (fs_n_clusters st)
        = Ok mapping /\
      take_idx mapping (fs_labels st) = Ok labels) /\
  calc_centroids X labels = Ok centroids.

(** The engines on which [fit] never returned: a fresh one, and what a
    call of [fit] that raised leaves of such an engine. *)
Inductive never_fitted : engine -> Prop :=
| never_fitted_init : forall n_iter min_cluster_size,
    never_fitted (init n_iter min_cluster_size)
| never_fitted_raise : forall e X y ex,
    never_fitted e ->
    snd (fit X y e) = Raise ex ->
    never_fitted (fst (fit X y e)).

End Engine.

(** ** Instances of the parameters, for the examples *)

(** The order numpy sorts floats in: ascending, NaN last. *)
Definition np_le (a b : npfloat) : bool :=
  match a, b with
  | _, NaN => true
  | NaN, Fin _ => false
  | Fin x, Fin y => Qle_bool x y
  end.

(** A stable insertion argsort (what [np.argsort] does on short arrays
    without SIMD dispatch). *)
Fixpoint insert_idx (v : list npfloat) (i : nat) (sorted : list nat) : list nat :=
  match sorted with
  | [] => [i]
  | j :: r =>
      if np_le (nth i v NaN) (nth j v NaN) then i :: j :: r
      else j :: insert_idx v i r
  end.

Definition insertion_argsort (v : list npfloat) : list nat :=
  fold_right (insert_idx v) [] (seq 0 (length v)).

(** A deterministic split strategy on the first feature: a point is in
    side 1 when its first feature exceeds the mean of the cluster. *)
Definition mean_split (cluster : list (list Q)) : list Z :=
  let xs := map (fun row => nth 0 row 0%Q) cluster in
  match np_mean xs with
  | Fin m => map (fun x => if Qle_bool x m then 0%Z else 1%Z) xs
  | NaN => []
  end.

(** The population standard deviation, rounded down to six decimals
    (exact whenever the variance is the square of such a number). *)
Definition variance (l : list Q) : Q :=
  let n := inject_Z (Z.of_nat (length l)) in
  let m := (Qsum l / n)%Q in
  (Qsum (map (fun x => (x - m) * (x - m))%Q l) / n)%Q.

Definition std_floor (l : list Q) : npfloat :=
  match l with
  | [] => NaN
  | _ =>
      let v := Qred (variance l) in
      let den := Z.pos (Qden v) in
      Fin (Qred (Qmake (Z.sqrt (Qnum v * den * 10 ^ 12))
                       (Z.to_pos (den * 10 ^ 6))))
  end.

(** ** Small datasets, for the examples *)

(** [fit] with the instances above. *)
Definition fit_by_mean := fit mean_split std_floor insertion_argsort.

(** Two points on a line. *)
Definition two_points : list (list Q) := [[0%Q]; [1%Q]].
Definition two_outcomes : list Q := [0%Q; 1%Q].


(** Three points, the mean of which leaves one point alone on side 1. *)
Definition three_points : list (list Q) := [[0%Q]; [1%Q]; [5%Q]].
Definition three_outcomes : list Q := [0%Q; 1%Q; 5%Q].

(** Four points with two features. *)
Definition four_points : list (list Q) :=
  [[0%Q; 1%Q]; [1%Q; 1%Q]; [5%Q; 2%Q]; [7%Q; 2%Q]].
Definition four_outcomes : list Q := [0%Q; 1%Q; 3%Q; 4%Q].


Definition three_view : split_view :=
  {| sv_heap := []; sv_label := 0; sv_score := Fin 0%Q;
     sv_indices0 := [0; 1]; sv_indices1 := [2] |}.


(** The state after the first turn on [three_points], and what the second
    turn takes from its heap. *)
Definition three_after : fit_state :=
  Eval vm_compute in
    fst (fit_loop mean_split std_floor three_points three_outcomes 1 3 1
           (init_state 3)).

Definition three_second_view : split_view :=
  {| sv_heap := [(Some (Fin 0%Q), 1, Fin (-9 # 2)%Q)];
     sv_label := 0; sv_score := Fin (9 # 2)%Q;
     sv_indices0 := [0]; sv_indices1 := [1] |}.

(** The engines left by [fit] on the examples. *)
Definition four_fitted : engine :=
  Eval vm_compute in fst (fit_by_mean four_points four_outcomes (init 5 1)).

Definition two_fitted_size_zero : engine :=
  Eval vm_compute in fst (fit_by_mean two_points two_outcomes (init 2 0)).

(** ** Properties of a state of the loop *)

(** The labels in use partition the dataset: every point carries one label,
    the labels in use are the clusters finished or on the heap, none of
    them twice, and they are the numbers below [fs_n_clusters]. *)
Definition partitions (n_samples : nat) (st : fit_state) : Prop :=
  length (fs_labels st) = n_samples /\
  Permutation (all_clusters st) (seq 0 (fs_n_clusters st)) /\
  Forall (fun l => In l (all_clusters st)) (fs_labels st) /\
  length (all_scores st) = length (all_clusters st) /\
  length (fs_scores st) = length (fs_clusters st).

(** What a materialized split leaves behind (lines 105-110): one more
    cluster, the second side relabelled with the new label, and two new
    entries on the heap, carrying the scores of the two sides. *)
Definition materialized (st : fit_state) (v : split_view) (score0 score1 : npfloat)
  (st' : fit_state) : Prop :=
  fs_n_clusters st' = fs_n_clusters st + 1 /\
  (forall i, nth_error (fs_labels st') i =
             if existsb (Nat.eqb i) (sv_indices1 v) then Some (fs_n_clusters st)
             else nth_error (fs_labels st) i) /\
  (exists k0 k1,
      Permutation (fs_heap st')
        ((k1, fs_n_clusters st, score1) :: (k0, sv_label v, score0) :: sv_heap v)) /\
  fs_clusters st' = fs_clusters st /\
  fs_scores st' = fs_scores st.

(** Every score, finished or on the heap, is a number. *)
Definition finite_scores (st : fit_state) : Prop :=
  Forall (fun s => is_fin s = true) (all_scores st).

(** No cluster in use is empty. *)
Definition inhabited (st : fit_state) : Prop :=
  forall l, l < fs_n_clusters st -> In l (fs_labels st).

(** Descending order of scores, numpy style: NaN after everything. *)
Definition np_desc (a b : npfloat) : Prop :=
  match a, b with
  | _, NaN => True
  | NaN, Fin _ => False
  | Fin x, Fin y => (y <= x)%Q
  end.



(** Ascending order, the one [np.argsort] sorts in. *)
Definition np_asc (a b : npfloat) : Prop := np_le a b = true.

(** A heap entry pushed by the loop has a number or NaN as key; only the
    initial entry has the key [None]. *)
Definition has_key (c : cand) : Prop := fst (fst c) <> None.

(** The heap of a state of the loop: the initial entry alone, or entries
    with keys. *)
Definition heap_keyed (st : fit_state) : Prop :=
  fs_heap st = [(None, 0, Fin 0%Q)] \/ Forall has_key (fs_heap st).

(** A split strategy that returns one label per row, as the docstring of
    [_split] asks. *)
Definition one_label_per_row (split : list (list Q) -> list Z) : Prop :=
  forall cluster, length (split cluster) = length cluster.

(** What is known of [np.argsort]: it returns a permutation of the
    positions, along which the values are in ascending order. *)
Definition argsort_permutes (argsort : list npfloat -> list nat) : Prop :=
  forall v, Permutation (argsort v) (seq 0 (length v)).

Definition argsort_sorts (argsort : list npfloat -> list nat) : Prop :=
  forall v, StronglySorted np_asc (map (fun i => nth i v NaN) (argsort v)).

(** ** Further properties of the fitted attributes *)

(** A score that is a number, zero or more. *)
Definition nonneg_score (s : npfloat) : Prop :=
  match s with
  | Fin q => (0 <= q)%Q
  | NaN => False
  end.

(** The number of points carrying a label: the length of
    [np.nonzero(labels == label)[0]]. *)
Definition cluster_size (labels : list nat) (label : nat) : nat :=
  length (np_nonzero (map (fun l => l =? label) labels)).

(** [X[labels == label]]: the rows carrying a label. *)
Definition rows_of (X : list (list Q)) (labels : list nat) (label : nat)
  : list (list Q) :=
  select (map (fun l => l =? label) labels) X.

(** Once a split was materialized, every cluster has the minimum size. *)
Definition sized (mcs : Z) (st : fit_state) : Prop :=
  fs_n_clusters st = 1 \/
  forall l, l < fs_n_clusters st ->
            (mcs <= Z.of_nat (cluster_size (fs_labels st) l))%Z.

(** Two points that share a label in [st'] share one in [st]. *)
Definition refines (st' st : fit_state) : Prop :=
  forall i j a,
    nth_error (fs_labels st') i = Some a ->
    nth_error (fs_labels st') j = Some a ->
    exists b, nth_error (fs_labels st) i = Some b /\
              nth_error (fs_labels st) j = Some b.



(** A split strategy as the docstring of [_split] describes it: one label
    per row, each 0 or 1. *)
Definition binary_split (split : list (list Q) -> list Z) : Prop :=
  forall cluster,
    length (split cluster) = length cluster /\
    Forall (fun z => z = 0%Z \/ z = 1%Z) (split cluster).

(** The clusters in use with their scores: the finished ones, then those on
    the heap. *)
Definition scored_clusters (st : fit_state) : list (nat * npfloat) :=
  combine (fs_clusters st) (fs_scores st)
  ++ map (fun c => (cand_label c, cand_score c)) (fs_heap st).

(** Once a split was materialized, the score kept with a cluster is the
    discrimination score of the points that carry its label. *)
Definition scores_match (n_samples : nat) (y : list Q) (st : fit_state) : Prop :=
  fs_n_clusters st = 1 \/
  Forall (fun p => snd p = spec_score n_samples y
                             (np_nonzero (map (fun l => l =? fst p) (fs_labels st))))
         (scored_clusters st).

(** * The experiment script: metrics and the guard of the t-tests *)

(** The script runs with [warnings.filterwarnings("error")]: a warning that
    numpy emits is raised as an exception. *)
Inductive raised : Type :=
| Exception (e : exn)
| RuntimeWarning.

Inductive outcome (A : Type) : Type :=
| Returns (a : A)
| Raises (r : raised).
Arguments Returns {A} _.
Arguments Raises {A} _.

(** An operator applied to two one-dimensional arrays, element by element,
    with numpy's broadcasting: arrays of the same length are paired, an
    array of length one is repeated along the other, any other pair of
    lengths is a ValueError. *)
Definition np_elementwise {A B C : Type} (f : A -> B -> C)
  (a : list A) (b : list B) : result (list C) :=
  if length a =? length b then
    Ok (map (fun p => f (fst p) (snd p)) (combine a b))
  else
    match b with
    | [v] => Ok (map (fun u => f u v) a)
    | _ =>
        match a with
        | [u] => Ok (map (fun v => f u v) b)
        | _ => Raise ValueError
        end
    end.

(** [.astype(int)] on a boolean array. *)
Definition astype_int (b : bool) : Z := if b then 1%Z else 0%Z.

(** [METRICS_BINARY['fp']]:
    [np.logical_and(y == 0, y_pred == 1).astype(int)]. *)
Definition METRICS_BINARY_fp (y y_pred : list Q) : result (list Z) :=
  m <- np_elementwise andb (map (fun v => Qeq_bool v 0) y)
                           (map (fun v => Qeq_bool v 1) y_pred) ;;
  Ok (map astype_int m).

(** [METRICS_BINARY['fn']]:
    [np.logical_and(y == 1, y_pred == 0).astype(int)]. *)
Definition METRICS_BINARY_fn (y y_pred : list Q) : result (list Z) :=
  m <- np_elementwise andb (map (fun v => Qeq_bool v 1) y)
                           (map (fun v => Qeq_bool v 0) y_pred) ;;
  Ok (map astype_int m).

(** [METRICS_BINARY['err']]: [(y != y_pred).astype(int)]. *)
Definition METRICS_BINARY_err (y y_pred : list Q) : result (list Z) :=
  m <- np_elementwise (fun u v => negb (Qeq_bool u v)) y y_pred ;;
  Ok (map astype_int m).

(** [METRICS_CONTINUOUS['err']]: [(y - y_pred)**2]. *)
Definition METRICS_CONTINUOUS_err (y y_pred : list Q) : result (list Q) :=
  d <- np_elementwise Qminus y y_pred ;;
  Ok (map (fun v => (v * v)%Q) d).

(** [np.mean] under the script's warning filter: numpy warns of the mean of
    an empty slice, where it returns NaN. *)
Definition mean_or_warn (c : list Q) : outcome Q :=
  match np_mean c with
  | Fin m => Returns m
  | NaN => Raises RuntimeWarning
  end.

(** [c[0]]. *)
Definition first (c : list Q) : outcome Q :=
  match c with
  | v :: _ => Returns v
  | [] => Raises (Exception IndexError)
  end.

(** [np.all(c == v)]. *)
Definition np_all_eq (c : list Q) (v : Q) : bool :=
  forallb (fun u => Qeq_bool u v) c.

(** [check_before_test(c0, c1, min_samples)]: [True] when the test is to be
    skipped.  Python's [or] does not evaluate its second operand when the
    first holds. *)
Definition check_before_test (c0 c1 : list Q) (min_samples : Z) : outcome bool :=
  if (Z.of_nat (length c0) <? min_samples)%Z
     || (Z.of_nat (length c1) <? min_samples)%Z
  then Returns true
  else
    match mean_or_warn c0 with
    | Raises r => Raises r
    | Returns m0 =>
        match mean_or_warn c1 with
        | Raises r => Raises r
        | Returns m1 =>
            if Qeq_bool m0 m1 then Returns true
            else
              match first c0 with
              | Raises r => Raises r
              | Returns v0 =>
                  if np_all_eq c0 v0 then Returns true
                  else
                    match first c1 with
                    | Raises r => Raises r
                    | Returns v1 =>
                        if np_all_eq c1 v1 then Returns true
                        else Returns false
                    end
              end
        end
    end.

(** Arrays of zeros and ones. *)
Definition binary (y : list Q) : Prop :=
  Forall (fun v => (v == 0)%Q \/ (v == 1)%Q) y.

(** The sum of the squared deviations from the mean: the numerator of the
    variance, whatever the degrees of freedom. *)
Definition squared_deviations (c : list Q) : Q :=
  let m := (Qsum c / inject_Z (Z.of_nat (length c)))%Q in
  Qsum (map (fun v => ((v - m) * (v - m))%Q) c).

(** ** The heap invariant of heapq

    [heapq] keeps [heap[(k - 1) >> 1] <= heap[k]] for every [k > 0]; the
    order is the one of the tuples [(key, label, score)]. *)

(** The position above [pos] in the heap. *)
Definition parent (pos : nat) : nat := Nat.div2 (pos - 1).

(** An entry whose key and score are numbers. *)
Definition good_cand (c : cand) : Prop :=
  exists k l s, c = (Some (Fin k), l, Fin s).

(** [not (b < a)]. *)
Definition cand_le (a b : cand) : Prop := cand_lt b a = Ok false.

Definition heap_ordered (h : list cand) : Prop :=
  forall i a b, 0 < i ->
    nth_error h (parent i) = Some a -> nth_error h i = Some b -> cand_le a b.

(** While an entry is sifted the position [pos] is a hole: the invariant
    holds between the other positions, between the entry above the hole
    and those below it, and the sifted entry may sit above those below. *)
Definition ordered_off (h : list cand) (pos : nat) : Prop :=
  forall i a b, 0 < i -> i <> pos -> parent i <> pos ->
    nth_error h (parent i) = Some a -> nth_error h i = Some b -> cand_le a b.

Definition skip_ok (h : list cand) (pos : nat) : Prop :=
  forall c a b, 0 < pos -> 0 < c -> parent c = pos ->
    nth_error h (parent pos) = Some a -> nth_error h c = Some b -> cand_le a b.

Definition above (x : cand) (h : list cand) (pos : nat) : Prop :=
  forall c b, 0 < c -> parent c = pos -> nth_error h c = Some b -> cand_le x b.

(** [np.std] of the outcomes of the points that carry [label]. *)
Definition deviation (np_std : list Q -> npfloat) (y : list Q)
  (labels : list nat) (label : nat) : npfloat :=
  np_std (y_over y (np_nonzero (map (fun l => l =? label) labels))).

(** [np.std] of a non-empty array of numbers is a number. *)
Definition std_finite (np_std : list Q -> npfloat) : Prop :=
  forall l, l <> [] -> is_fin (np_std l) = true.

(** The key of a heap entry is minus the deviation of its cluster. *)
Definition keyed_by_deviation (np_std : list Q -> npfloat) (y : list Q)
  (labels : list nat) (heap : list cand) : Prop :=
  Forall (fun c => fst (fst c)
                   = Some (fneg (deviation np_std y labels (cand_label c))))
         heap.

(** The heap of the loop: the initial entry alone, or a heap in order
    whose entries are keyed by the deviation of their clusters. *)
Definition heap_invariant (np_std : list Q -> npfloat) (y : list Q)
  (st : fit_state) : Prop :=
  fs_heap st = [(None, 0, Fin 0%Q)] \/
  (Forall good_cand (fs_heap st) /\ heap_ordered (fs_heap st) /\
   keyed_by_deviation np_std y (fs_labels st) (fs_heap st)).

(** * Properties *)

(** ** Lists as arrays *)

Ltac inv H := inversion H; subst; clear H.

Lemma bind_ok {A B : Type} (m : result A) (k : A -> result B) (b : B) :
  bind m k = Ok b -> exists a, m = Ok a /\ k a = Ok b.
Proof.
  destruct m as [a|e]; simpl; intros H; [exists a; auto | discriminate].
Qed.

(** Splits a hypothesis [x <- m ;; k = Ok b] into its two halves. *)
Ltac bind_inv H :=
  let a := fresh "a" in
  let Ha := fresh "Ha" in
  apply bind_ok in H; destruct H as [a [Ha H]].

Lemma set_nth_length {A : Type} (a : list A) i v :
  length (set_nth a i v) = length a.
Proof.
  revert i; induction a as [|x r IH]; intros [|j]; simpl; auto.
Qed.

Lemma nth_error_set_nth_eq {A : Type} (a : list A) i v :
  i < length a -> nth_error (set_nth a i v) i = Some v.
Proof.
  revert i; induction a as [|x r IH]; intros [|j]; simpl; intros H;
    try lia; auto.
  apply IH; lia.
Qed.

Lemma nth_error_set_nth_neq {A : Type} (a : list A) i j v :
  i <> j -> nth_error (set_nth a i v) j = nth_error a j.
Proof.
  revert i j; induction a as [|x r IH]; intros [|i] [|j]; simpl; intros H;
    try congruence; auto.
Qed.

Lemma set_nth_same {A : Type} (a : list A) i x :
  nth_error a i = Some x -> set_nth a i x = a.
Proof.
  revert i; induction a as [|z r IH]; intros [|j]; simpl; intros H;
    try discriminate; auto.
  - congruence.
  - f_equal; auto.
Qed.

Lemma set_nth_perm {A : Type} (a : list A) i x v :
  nth_error a i = Some x -> Permutation (x :: set_nth a i v) (v :: a).
Proof.
  revert i; induction a as [|z r IH]; intros [|j]; simpl; intros H;
    try discriminate.
  - inv H. apply perm_swap.
  - pose proof (IH _ H) as P.
    eapply perm_trans; [apply perm_swap|].
    eapply perm_trans; [apply perm_skip, P|]. apply perm_swap.
Qed.

Lemma set_nth_swap_perm {A : Type} (a : list A) i j p v :
  nth_error a j = Some p -> i < length a ->
  Permutation (set_nth (set_nth a i p) j v) (set_nth a i v).
Proof.
  intros Hj Hi.
  destruct (nth_error a i) as [x|] eqn:Hx;
    [|apply nth_error_None in Hx; lia].
  assert (Hb : nth_error (set_nth a i p) j = Some p).
  { destruct (Nat.eq_dec i j) as [->|N].
    - apply nth_error_set_nth_eq; auto.
    - rewrite nth_error_set_nth_neq; auto. }
  pose proof (set_nth_perm _ i _ v Hx) as P1.
  pose proof (set_nth_perm _ i _ p Hx) as P2.
  pose proof (set_nth_perm _ j _ v Hb) as P3.
  apply Permutation_cons_inv with (a := x).
  apply Permutation_cons_inv with (a := p).
  eapply perm_trans; [apply perm_swap|].
  eapply perm_trans; [apply perm_skip, P3|].
  eapply perm_trans; [apply perm_swap|].
  eapply perm_trans; [apply perm_skip, P2|].
  eapply perm_trans; [apply perm_swap|].
  apply perm_skip. symmetry. exact P1.
Qed.

Lemma take_idx_spec {A : Type} (d : A) (a : list A) idx t :
  take_idx a idx = Ok t <->
  Forall (fun i => i < length a) idx /\ t = map (fun i => nth i a d) idx.
Proof.
  revert t; induction idx as [|i r IH]; intros t; simpl.
  - split; [intros H; inv H; auto | intros [_ ->]; auto].
  - destruct (nth_error a i) as [x|] eqn:Hx.
    + split.
      * intros H. bind_inv H. inv H. apply IH in Ha as [F ->].
        split.
        -- constructor; auto. apply nth_error_Some; congruence.
        -- f_equal. symmetry; apply nth_error_nth with (1 := Hx).
      * intros [F ->]. inv F.
        rewrite (proj2 (IH _) (conj H2 eq_refl)). simpl.
        rewrite (nth_error_nth _ _ d Hx). reflexivity.
    + split; [discriminate|].
      intros [F _]. inv F. apply nth_error_None in Hx. lia.
Qed.

Lemma take_idx_length {A : Type} (a : list A) idx t :
  take_idx a idx = Ok t -> length t = length idx.
Proof.
  destruct a as [|d a'].
  - revert t; induction idx as [|i r IH]; intros t; simpl.
    + intros H; inv H; auto.
    + destruct i; discriminate.
  - intros H. apply (take_idx_spec d) in H as [_ ->]. apply length_map.
Qed.

Lemma take_idx_in {A : Type} (a : list A) idx t x :
  take_idx a idx = Ok t -> In x t -> exists i, In i idx /\ nth_error a i = Some x.
Proof.
  revert t; induction idx as [|i r IH]; intros t; simpl.
  - intros H; inv H. intros [].
  - destruct (nth_error a i) as [z|] eqn:Hz; [|discriminate].
    intros H. bind_inv H. inv H. intros [->|Hin].
    + exists i; auto.
    + destruct (IH _ Ha Hin) as [k [K1 K2]]. exists k; auto.
Qed.

Lemma assign_idx_length {A : Type} (a : list A) idx v a' :
  assign_idx a idx v = Ok a' -> length a' = length a.
Proof.
  revert a; induction idx as [|i r IH]; intros a; simpl.
  - intros H; inv H; auto.
  - destruct (i <? length a); [|discriminate].
    intros H. apply IH in H. rewrite set_nth_length in H. exact H.
Qed.

Lemma assign_idx_bound {A : Type} (a : list A) idx v a' :
  assign_idx a idx v = Ok a' -> Forall (fun i => i < length a) idx.
Proof.
  revert a; induction idx as [|i r IH]; intros a; simpl; [constructor|].
  destruct (i <? length a) eqn:E; [|discriminate].
  intros H. apply Nat.ltb_lt in E. constructor; auto.
  apply IH in H. rewrite set_nth_length in H. exact H.
Qed.

Lemma assign_idx_total {A : Type} (a : list A) idx v :
  Forall (fun i => i < length a) idx -> exists a', assign_idx a idx v = Ok a'.
Proof.
  revert a; induction idx as [|i r IH]; intros a F; simpl.
  - eauto.
  - inv F. apply Nat.ltb_lt in H1 as E. rewrite E.
    apply IH. rewrite set_nth_length. exact H2.
Qed.

Lemma assign_idx_nth {A : Type} (a : list A) idx v a' i :
  assign_idx a idx v = Ok a' ->
  nth_error a' i = if existsb (Nat.eqb i) idx then Some v else nth_error a i.
Proof.
  revert a; induction idx as [|k r IH]; intros a; simpl.
  - intros H; inv H; auto.
  - destruct (k <? length a) eqn:E; [|discriminate].
    apply Nat.ltb_lt in E. intros H.
    rewrite (IH _ H).
    destruct (existsb (Nat.eqb i) r) eqn:Er.
    + rewrite orb_true_r. reflexivity.
    + rewrite orb_false_r. destruct (Nat.eqb_spec i k) as [->|N].
      * apply nth_error_set_nth_eq; auto.
      * apply nth_error_set_nth_neq; auto.
Qed.

Lemma existsb_eqb_In (i : nat) (l : list nat) :
  existsb (Nat.eqb i) l = true <-> In i l.
Proof.
  rewrite existsb_exists. split.
  - intros [x [Hx E]]. apply Nat.eqb_eq in E. subst; auto.
  - intros H. exists i. split; auto. apply Nat.eqb_refl.
Qed.

(** A boolean mask selects the entries at its [true] positions. *)
Lemma select_shift {A : Type} (d : A) (mask : list bool) (a : list A) k :
  length mask = length a ->
  select mask a =
  map (fun i => nth (i - k) a d)
      (filter (fun i => nth (i - k) mask false) (seq k (length a))).
Proof.
  revert a k; induction mask as [|b m IH]; intros [|x r] k L;
    try discriminate; [reflexivity|].
  cbn [length] in L. injection L as L.
  assert (E1 : filter (fun i => nth (i - k) (b :: m) false) (seq (S k) (length r))
               = filter (fun i => nth (i - S k) m false) (seq (S k) (length r))).
  { apply filter_ext_in. intros i Hi. apply in_seq in Hi.
    replace (i - k) with (S (i - S k)) by lia. reflexivity. }
  assert (E2 : forall l, Forall (fun i => S k <= i) l ->
               map (fun i => nth (i - k) (x :: r) d) l
               = map (fun i => nth (i - S k) r d) l).
  { intros l F. apply map_ext_in. intros i Hi.
    rewrite Forall_forall in F. specialize (F _ Hi).
    replace (i - k) with (S (i - S k)) by lia. reflexivity. }
  assert (F : Forall (fun i => S k <= i)
                (filter (fun i => nth (i - S k) m false) (seq (S k) (length r)))).
  { apply Forall_forall. intros i Hi. apply filter_In in Hi as [Hi _].
    apply in_seq in Hi. lia. }
  cbn [select length seq filter]. rewrite Nat.sub_diag.
  change (nth 0 (b :: m) false) with b.
  rewrite E1.
  destruct b; cbn [map];
    [rewrite Nat.sub_diag; change (nth 0 (x :: r) d) with x; f_equal|];
    rewrite (E2 _ F); apply IH; exact L.
Qed.

Lemma select_filter {A : Type} (d : A) (mask : list bool) (a : list A) :
  length mask = length a ->
  select mask a =
  map (fun i => nth i a d) (filter (fun i => nth i mask false) (seq 0 (length a))).
Proof.
  intros L. rewrite (select_shift d mask a 0 L).
  erewrite map_ext; [erewrite filter_ext; [reflexivity|]|];
    intros i; simpl; rewrite Nat.sub_0_r; reflexivity.
Qed.

Lemma nth_error_repeat_lt {A : Type} (x : A) n i :
  i < n -> nth_error (repeat x n) i = Some x.
Proof.
  revert i; induction n as [|n IH]; intros [|i] H; simpl; try lia; auto.
  apply IH; lia.
Qed.

(** The mask of lines 96-97 is the indicator of the complement. *)
Lemma cleared_mask_nth n idx mask i :
  assign_idx (repeat true n) idx false = Ok mask -> i < n ->
  nth i mask false = negb (existsb (Nat.eqb i) idx).
Proof.
  intros H Hi.
  pose proof (assign_idx_nth _ _ _ _ i H) as E.
  rewrite nth_error_repeat_lt in E by exact Hi.
  destruct (existsb (Nat.eqb i) idx); simpl;
    apply nth_error_nth with (d := false) in E; exact E.
Qed.

Lemma disc_score_ok n y side s :
  length y = n -> disc_score n y side = Ok s ->
  Forall (fun i => i < n) side /\ s = spec_score n y side.
Proof.
  intros L H. subst n. unfold disc_score in H.
  bind_inv H. rename a into mask. bind_inv H. rename a into outside.
  bind_inv H. rename a into inside. injection H as <-.
  pose proof (assign_idx_length _ _ _ _ Ha) as Lm. rewrite repeat_length in Lm.
  pose proof (assign_idx_bound _ _ _ _ Ha) as B. rewrite repeat_length in B.
  split; [exact B|].
  unfold take_mask in Ha0. rewrite Lm, Nat.eqb_refl in Ha0.
  injection Ha0 as <-.
  apply (take_idx_spec 0%Q) in Ha1 as [_ ->].
  unfold spec_score, y_over, complement_of. f_equal. f_equal.
  rewrite (select_filter 0%Q mask y) by lia.
  f_equal. apply filter_ext_in. intros i Hi. apply in_seq in Hi.
  apply cleared_mask_nth with (1 := Ha). lia.
Qed.

(** For a side made of dataset indices, the score computed by lines 96-98
    (and 99-101) is the mean of [y] outside the side minus the mean of [y]
    over the side, and the computation does not raise. *)
Lemma disc_score_total n_samples y side :
  length y = n_samples ->
  Forall (fun i => i < n_samples) side ->
  disc_score n_samples y side = Ok (spec_score n_samples y side).
Proof.
  intros L F.
  destruct (disc_score n_samples y side) as [s|e] eqn:E.
  - apply disc_score_ok in E as [_ ->]; auto.
  - exfalso. unfold disc_score in E.
    destruct (assign_idx_total (repeat true n_samples) side false) as [mask Hm].
    { rewrite repeat_length. exact F. }
    rewrite Hm in E. simpl in E.
    pose proof (assign_idx_length _ _ _ _ Hm) as Lm. rewrite repeat_length in Lm.
    unfold take_mask in E. rewrite Lm, L, Nat.eqb_refl in E. simpl in E.
    assert (T : take_idx y side = Ok (map (fun i => nth i y 0%Q) side)).
    { apply (take_idx_spec 0%Q). split; auto. rewrite L. exact F. }
    rewrite T in E. simpl in E. discriminate.
Qed.

(** ** heapq keeps its entries *)

Lemma store_ok {A : Type} (a : list A) i v a' :
  store a i v = Ok a' -> i < length a /\ a' = set_nth a i v.
Proof.
  unfold store. destruct (i <? length a) eqn:E; [|discriminate].
  intros H. injection H as <-. apply Nat.ltb_lt in E. auto.
Qed.

Lemma load_ok {A : Type} (a : list A) i x :
  load a i = Ok x -> nth_error a i = Some x.
Proof.
  unfold load. destruct (nth_error a i); [|discriminate].
  intros H. injection H as <-. reflexivity.
Qed.

Lemma siftdown_loop_perm fuel : forall heap startpos pos newitem h,
  siftdown_loop fuel heap startpos pos newitem = Ok h ->
  Permutation h (set_nth heap pos newitem).
Proof.
  induction fuel as [|fuel IH]; intros heap startpos pos newitem h; simpl.
  - intros H. apply store_ok in H as [_ ->]. reflexivity.
  - destruct (startpos <? pos).
    + intros H. bind_inv H. rename a into parent. bind_inv H.
      destruct a.
      * bind_inv H. apply store_ok in Ha1 as [Hp ->].
        apply IH in H. eapply perm_trans; [exact H|].
        apply set_nth_swap_perm; auto. apply load_ok; exact Ha.
      * apply store_ok in H as [_ ->]. reflexivity.
    + intros H. apply store_ok in H as [_ ->]. reflexivity.
Qed.

Lemma siftdown_perm heap startpos pos h :
  _siftdown heap startpos pos = Ok h -> Permutation h heap.
Proof.
  unfold _siftdown. intros H. bind_inv H. apply load_ok in Ha.
  apply siftdown_loop_perm in H. rewrite (set_nth_same _ _ _ Ha) in H. exact H.
Qed.

Lemma siftup_loop_perm fuel : forall heap endpos pos h pos' x,
  pos < length heap ->
  siftup_loop fuel heap endpos pos = Ok (h, pos') ->
  pos' < length h /\
  Permutation (set_nth h pos' x) (set_nth heap pos x).
Proof.
  induction fuel as [|fuel IH]; intros heap endpos pos h pos' x Hpos;
    cbn [siftup_loop].
  - intros H. injection H as <- <-. split; auto.
  - destruct (2 * pos + 1 <? endpos).
    + intros H. bind_inv H. rename a into childpos.
      bind_inv H. rename a into child. bind_inv H. rename a into heap1.
      apply store_ok in Ha1 as [_ ->]. apply load_ok in Ha0.
      assert (Hc : childpos < length heap)
        by (apply nth_error_Some; congruence).
      apply IH with (x := x) in H; [|rewrite set_nth_length; exact Hc].
      destruct H as [H1 H2]. split; [exact H1|].
      eapply perm_trans; [exact H2|].
      apply set_nth_swap_perm; auto.
    + intros H. injection H as <- <-. split; auto.
Qed.

Lemma siftup_perm heap pos h :
  _siftup heap pos = Ok h -> Permutation h heap.
Proof.
  unfold _siftup. intros H. bind_inv H. rename a into newitem.
  bind_inv H. destruct a as [heap1 pos1]. bind_inv H. rename a into heap2.
  apply load_ok in Ha. apply store_ok in Ha1 as [_ ->].
  apply siftdown_perm in H.
  apply siftup_loop_perm with (x := newitem) in Ha0 as [_ P];
    [|apply nth_error_Some; congruence].
  rewrite (set_nth_same _ _ _ Ha) in P.
  eapply perm_trans; eauto.
Qed.

Lemma heappush_perm heap item h :
  heappush heap item = Ok h -> Permutation h (item :: heap).
Proof.
  unfold heappush. intros H. apply siftdown_perm in H.
  eapply perm_trans; [exact H|]. symmetry. apply Permutation_cons_append.
Qed.

Lemma list_pop_app {A : Type} (l : list A) :
  match list_pop l with
  | None => l = []
  | Some (r, z) => l = r ++ [z]
  end.
Proof.
  induction l as [|x r IH]; simpl; auto.
  destruct (list_pop r) as [[r' z]|]; subst; reflexivity.
Qed.

Lemma heappop_perm heap item h :
  heappop heap = Ok (item, h) -> Permutation (item :: h) heap.
Proof.
  unfold heappop. pose proof (list_pop_app heap) as L.
  destruct (list_pop heap) as [[heap' lastelt]|]; [|discriminate].
  subst heap. destruct heap' as [|returnitem r].
  - intros H. injection H as <- <-. reflexivity.
  - intros H. bind_inv H. bind_inv H. injection H as <- <-.
    apply store_ok in Ha as [_ ->]. apply siftup_perm in Ha0. simpl in Ha0.
    simpl. apply perm_skip. eapply perm_trans; [exact Ha0|].
    apply Permutation_cons_append.
Qed.

(** A heap holding one entry is popped without any comparison. *)
Lemma heappop_singleton c : heappop [c] = Ok (c, []).
Proof. reflexivity. Qed.

(** ** heapq does not raise on entries with keys *)

Lemma Forall_set_nth {A : Type} (P : A -> Prop) (a : list A) i v :
  Forall P a -> P v -> Forall P (set_nth a i v).
Proof.
  revert i; induction a as [|x r IH]; intros [|j] F Hv; simpl; auto;
    inversion F; subst; constructor; auto.
Qed.

Lemma load_total {A : Type} (a : list A) i :
  i < length a -> exists x, load a i = Ok x /\ In x a.
Proof.
  intros H. unfold load. destruct (nth_error a i) as [x|] eqn:E.
  - exists x. split; auto. eapply nth_error_In; eauto.
  - apply nth_error_None in E. lia.
Qed.

Lemma store_total {A : Type} (a : list A) i v :
  i < length a -> store a i v = Ok (set_nth a i v).
Proof.
  intros H. unfold store. apply Nat.ltb_lt in H. rewrite H. reflexivity.
Qed.

Lemma cand_lt_total a b :
  has_key a -> has_key b -> exists r, cand_lt a b = Ok r.
Proof.
  destruct a as [[[ka|] la] sa], b as [[[kb|] lb] sb]; unfold has_key; simpl;
    try congruence.
  intros _ _.
  destruct (negb (feq ka kb)); simpl; eauto.
  destruct (negb (la =? lb)); eauto.
  destruct (negb (feq sa sb)); eauto.
Qed.

Lemma siftdown_loop_total fuel : forall heap startpos pos newitem,
  pos < length heap -> Forall has_key heap -> has_key newitem ->
  exists h, siftdown_loop fuel heap startpos pos newitem = Ok h.
Proof.
  induction fuel as [|fuel IH]; intros heap startpos pos newitem Hp F Hn;
    cbn [siftdown_loop].
  - rewrite store_total by exact Hp. eauto.
  - destruct (startpos <? pos) eqn:E; [|rewrite store_total by exact Hp; eauto].
    apply Nat.ltb_lt in E.
    assert (P : Nat.div2 (pos - 1) < pos)
      by (pose proof (Nat.le_div2_diag_l (pos - 1)); lia).
    destruct (load_total heap (Nat.div2 (pos - 1))) as (parent & -> & Hin);
      [lia|].
    cbn [bind].
    rewrite Forall_forall in F. pose proof (F _ Hin) as Hk.
    destruct (cand_lt_total newitem parent Hn Hk) as [[|] ->]; cbn [bind].
    + rewrite store_total by exact Hp. cbn [bind].
      apply IH; auto.
      * rewrite set_nth_length. lia.
      * apply Forall_set_nth; auto. apply Forall_forall. exact F.
    + rewrite store_total by exact Hp. eauto.
Qed.

Lemma siftdown_total heap startpos pos :
  pos < length heap -> Forall has_key heap ->
  exists h, _siftdown heap startpos pos = Ok h.
Proof.
  intros Hp F. unfold _siftdown.
  destruct (load_total heap pos Hp) as (newitem & -> & Hin). cbn [bind].
  apply siftdown_loop_total; auto.
  rewrite Forall_forall in F. auto.
Qed.

Lemma siftup_loop_total fuel : forall heap endpos pos,
  endpos <= length heap -> pos < length heap -> Forall has_key heap ->
  exists h p, siftup_loop fuel heap endpos pos = Ok (h, p) /\
              Forall has_key h.
Proof.
  induction fuel as [|fuel IH]; intros heap endpos pos He Hp F;
    cbn [siftup_loop]; [eauto|].
  destruct (2 * pos + 1 <? endpos) eqn:E; [|eauto].
  apply Nat.ltb_lt in E.
  assert (Hc : exists c, (if 2 * pos + 1 + 1 <? endpos
                          then l <- load heap (2 * pos + 1) ;;
                               r <- load heap (2 * pos + 1 + 1) ;;
                               lt <- cand_lt l r ;;
                               Ok (if negb lt then 2 * pos + 1 + 1 else 2 * pos + 1)
                          else Ok (2 * pos + 1)) = Ok c /\ c < endpos).
  { destruct (2 * pos + 1 + 1 <? endpos) eqn:E'; [|eauto].
    apply Nat.ltb_lt in E'.
    destruct (load_total heap (2 * pos + 1)) as (l & -> & Hl); [lia|].
    destruct (load_total heap (2 * pos + 1 + 1)) as (r & -> & Hr); [lia|].
    cbn [bind]. rewrite Forall_forall in F.
    destruct (cand_lt_total l r (F _ Hl) (F _ Hr)) as [[|] ->]; cbn [bind negb];
      eexists; split; try reflexivity; lia. }
  destruct Hc as (c & -> & Bc). cbn [bind].
  destruct (load_total heap c) as (child & -> & Hin); [lia|]. cbn [bind].
  rewrite store_total by exact Hp. cbn [bind].
  apply IH.
  - rewrite set_nth_length. exact He.
  - rewrite set_nth_length. lia.
  - apply Forall_set_nth; auto. rewrite Forall_forall in F. auto.
Qed.

Lemma siftup_total heap pos :
  pos < length heap -> Forall has_key heap ->
  exists h, _siftup heap pos = Ok h.
Proof.
  intros Hp F. unfold _siftup.
  destruct (load_total heap pos Hp) as (newitem & -> & Hin). cbn [bind].
  destruct (siftup_loop_total (length heap) heap (length heap) pos
              (Nat.le_refl _) Hp F) as (h1 & p1 & E1 & F1).
  rewrite E1. cbn [bind].
  destruct (siftup_loop_perm _ _ _ _ _ _ newitem Hp E1) as [B1 _].
  rewrite store_total by exact B1. cbn [bind].
  apply siftdown_total.
  - rewrite set_nth_length. exact B1.
  - apply Forall_set_nth; auto. rewrite Forall_forall in F. auto.
Qed.

Lemma heappush_total heap item :
  Forall has_key heap -> has_key item -> exists h, heappush heap item = Ok h.
Proof.
  intros F Hi. unfold heappush. apply siftdown_total.
  - rewrite length_app. simpl. lia.
  - apply Forall_app. split; auto.
Qed.

Lemma heappop_total heap :
  heap <> [] -> Forall has_key heap -> exists c h, heappop heap = Ok (c, h).
Proof.
  intros N F. unfold heappop. pose proof (list_pop_app heap) as L.
  destruct (list_pop heap) as [[heap' lastelt]|]; [|congruence].
  subst heap. apply Forall_app in F as [F1 F2].
  destruct heap' as [|returnitem r]; [eauto|].
  rewrite store_total by (simpl; lia). simpl.
  destruct (siftup_total (lastelt :: r) 0) as [h ->]; [simpl; lia| |simpl; eauto].
  inversion F1; inversion F2; subst. constructor; auto.
Qed.

(** The fuel of the two sifting loops is enough: more fuel changes nothing. *)
Lemma div2_pred_lt pos : 0 < pos -> Nat.div2 (pos - 1) < pos.
Proof.
  intros H. pose proof (Nat.le_div2_diag_l (pos - 1)). lia.
Qed.

Lemma bind_ext {A B : Type} (m : result A) (k1 k2 : A -> result B) :
  (forall a, m = Ok a -> k1 a = k2 a) -> bind m k1 = bind m k2.
Proof.
  destruct m as [a|e]; simpl; auto.
Qed.

Lemma siftdown_loop_fuel f1 : forall f2 heap startpos pos newitem,
  pos <= f1 -> pos <= f2 ->
  siftdown_loop f1 heap startpos pos newitem
  = siftdown_loop f2 heap startpos pos newitem.
Proof.
  induction f1 as [|f1 IH]; intros [|f2] heap startpos pos newitem H1 H2;
    cbn [siftdown_loop]; auto.
  - replace pos with 0 by lia. reflexivity.
  - replace pos with 0 by lia. reflexivity.
  - destruct (startpos <? pos) eqn:E; [|reflexivity].
    apply Nat.ltb_lt in E.
    assert (P : Nat.div2 (pos - 1) < pos) by (apply div2_pred_lt; lia).
    apply bind_ext; intros parent _. apply bind_ext; intros [|] _; auto.
    apply bind_ext; intros heap' _. apply IH; lia.
Qed.

Lemma siftup_loop_fuel f1 : forall f2 heap endpos pos,
  endpos - pos <= f1 -> endpos - pos <= f2 ->
  siftup_loop f1 heap endpos pos = siftup_loop f2 heap endpos pos.
Proof.
  induction f1 as [|f1 IH]; intros [|f2] heap endpos pos H1 H2;
    cbn [siftup_loop]; auto.
  - destruct (2 * pos + 1 <? endpos) eqn:E; auto.
    apply Nat.ltb_lt in E. lia.
  - destruct (2 * pos + 1 <? endpos) eqn:E; auto.
    apply Nat.ltb_lt in E. lia.
  - destruct (2 * pos + 1 <? endpos) eqn:E; [|reflexivity].
    apply Nat.ltb_lt in E.
    apply bind_ext; intros childpos Hc.
    assert (C : pos < childpos).
    { destruct (2 * pos + 1 + 1 <? endpos).
      - bind_inv Hc. bind_inv Hc. bind_inv Hc. injection Hc as <-.
        destruct (negb a1); lia.
      - injection Hc as <-. lia. }
    apply bind_ext; intros child _. apply bind_ext; intros heap' _.
    apply IH; lia.
Qed.

(** ** Masks and index arrays *)

Lemma nonzero_from_filter (mask : list bool) : forall k,
  nonzero_from k mask
  = filter (fun i => nth (i - k) mask false) (seq k (length mask)).
Proof.
  induction mask as [|b m IH]; intros k; [reflexivity|].
  cbn [nonzero_from length seq filter]. rewrite Nat.sub_diag.
  change (nth 0 (b :: m) false) with b.
  assert (E : filter (fun i => nth (i - k) (b :: m) false) (seq (S k) (length m))
              = filter (fun i => nth (i - S k) m false) (seq (S k) (length m))).
  { apply filter_ext_in. intros i Hi. apply in_seq in Hi.
    replace (i - k) with (S (i - S k)) by lia. reflexivity. }
  rewrite E, <- IH. reflexivity.
Qed.

Lemma np_nonzero_filter (mask : list bool) :
  np_nonzero mask = filter (fun i => nth i mask false) (seq 0 (length mask)).
Proof.
  unfold np_nonzero. rewrite nonzero_from_filter.
  apply filter_ext. intros i. rewrite Nat.sub_0_r. reflexivity.
Qed.

Lemma np_nonzero_In (mask : list bool) i :
  In i (np_nonzero mask) <-> nth_error mask i = Some true.
Proof.
  rewrite np_nonzero_filter, filter_In, in_seq. split.
  - intros [[_ L] H]. simpl in L.
    destruct (nth_error mask i) as [b|] eqn:E.
    + rewrite (nth_error_nth _ _ false E) in H. congruence.
    + apply nth_error_None in E. lia.
  - intros H. assert (i < length mask) by (apply nth_error_Some; congruence).
    split; [lia|]. apply nth_error_nth with (d := false) in H. exact H.
Qed.

Lemma np_nonzero_NoDup (mask : list bool) : NoDup (np_nonzero mask).
Proof.
  rewrite np_nonzero_filter. apply NoDup_filter, seq_NoDup.
Qed.

(** The positions of a label in the label array. *)
Lemma positions_In (labels : list nat) label i :
  In i (np_nonzero (map (fun l => l =? label) labels)) <->
  nth_error labels i = Some label.
Proof.
  rewrite np_nonzero_In, nth_error_map.
  destruct (nth_error labels i) as [l|]; simpl; split; intros H;
    try discriminate.
  - injection H as H. apply Nat.eqb_eq in H. congruence.
  - injection H as ->. rewrite Nat.eqb_refl. reflexivity.
Qed.

(** Indexing an array without repetition at positions without repetition. *)
Lemma take_idx_NoDup {A : Type} (a : list A) idx t :
  NoDup a -> NoDup idx -> take_idx a idx = Ok t -> NoDup t.
Proof.
  intros Na. revert t; induction idx as [|i r IH]; intros t Ni; simpl.
  - intros H; inv H. constructor.
  - destruct (nth_error a i) as [x|] eqn:Hx; [|discriminate].
    intros H. bind_inv H. injection H as <-. inv Ni.
    constructor; [|apply IH; auto].
    intros Hin. destruct (take_idx_in _ _ _ _ Ha Hin) as [j [J1 J2]].
    assert (i = j).
    { apply (proj1 (NoDup_nth_error a) Na).
      - apply nth_error_Some; congruence.
      - congruence. }
    subst. contradiction.
Qed.

Lemma take_idx_disjoint {A : Type} (a : list A) idx1 idx2 t1 t2 x :
  NoDup a -> take_idx a idx1 = Ok t1 -> take_idx a idx2 = Ok t2 ->
  (forall i, In i idx1 -> In i idx2 -> False) ->
  In x t1 -> In x t2 -> False.
Proof.
  intros Na H1 H2 D I1 I2.
  destruct (take_idx_in _ _ _ _ H1 I1) as [i [Hi Ei]].
  destruct (take_idx_in _ _ _ _ H2 I2) as [j [Hj Ej]].
  assert (i = j).
  { apply (proj1 (NoDup_nth_error a) Na).
    - apply nth_error_Some; congruence.
    - congruence. }
  subst. eauto.
Qed.

(** ** heapq keeps its invariant *)

Lemma parent_spec i p :
  0 < i -> (parent i = p <-> i = 2 * p + 1 \/ i = 2 * p + 2).
Proof.
  intros H. unfold parent.
  destruct (Nat.Even_or_Odd (i - 1)) as [[k E]|[k E]]; rewrite E.
  - rewrite Nat.div2_double. lia.
  - replace (2 * k + 1) with (S (2 * k)) by lia.
    rewrite Nat.div2_succ_double. lia.
Qed.

Lemma parent_lt i : 0 < i -> parent i < i.
Proof.
  intros H. destruct (proj1 (parent_spec i (parent i) H) eq_refl); lia.
Qed.

Lemma cand_le_iff ka la sa kb lb sb :
  cand_le (Some (Fin ka), la, Fin sa) (Some (Fin kb), lb, Fin sb) <->
  (ka < kb)%Q \/ ((ka == kb)%Q /\ (la < lb \/ (la = lb /\ (sa <= sb)%Q))).
Proof.
  unfold cand_le, cand_lt, key_eq, key_lt, feq, flt.
  destruct (Qeq_bool kb ka) eqn:Ek; cbn [negb].
  - apply Qeq_bool_iff in Ek.
    destruct (lb =? la) eqn:El; cbn [negb].
    + apply Nat.eqb_eq in El.
      destruct (Qeq_bool sb sa) eqn:Es; cbn [negb].
      * apply Qeq_bool_iff in Es. split; [intros _|reflexivity].
        right. split; [lra|]. right. split; [lia|lra].
      * apply Qeq_bool_neq in Es. rewrite andb_true_r.
        destruct (Qle_bool sb sa) eqn:Le.
        -- apply Qle_bool_iff in Le. split; [discriminate|].
           intros [C|(_ & [C|[_ C]])]; [lra|lia|].
           exfalso. apply Es. lra.
        -- split; [intros _|reflexivity].
           assert (~ (sb <= sa)%Q)
             by (intros C; apply Qle_bool_iff in C; congruence).
           right. split; [lra|]. right. split; [lia|lra].
    + apply Nat.eqb_neq in El.
      destruct (lb <? la) eqn:Lt.
      * apply Nat.ltb_lt in Lt. split; [discriminate|].
        intros [C|(_ & [C|[C _]])]; [lra|lia|lia].
      * apply Nat.ltb_ge in Lt. split; [intros _|reflexivity].
        right. split; [lra|]. left. lia.
  - apply Qeq_bool_neq in Ek. rewrite andb_true_r.
    destruct (Qle_bool kb ka) eqn:Le.
    + apply Qle_bool_iff in Le. split; [discriminate|].
      intros [C|(C & _)]; [lra|]. exfalso. apply Ek. lra.
    + split; [intros _|reflexivity].
      assert (~ (kb <= ka)%Q)
        by (intros C; apply Qle_bool_iff in C; congruence).
      left. lra.
Qed.

Lemma cand_le_refl a : good_cand a -> cand_le a a.
Proof.
  intros (k & l & s & ->). apply cand_le_iff. right.
  split; [lra|]. right. split; [lia|lra].
Qed.

Lemma cand_le_trans a b c :
  good_cand a -> good_cand b -> good_cand c ->
  cand_le a b -> cand_le b c -> cand_le a c.
Proof.
  intros (ka & la & sa & ->) (kb & lb & sb & ->) (kc & lc & sc & ->).
  rewrite !cand_le_iff.
  intros [A|(A & [A'|(A' & A'')])] [B|(B & [B'|(B' & B'')])];
    try (left; lra); right; (split; [lra|]);
    try (left; lia); right; split; [lia|lra].
Qed.

Lemma cand_lt_le a b :
  good_cand a -> good_cand b -> cand_lt a b = Ok true -> cand_le a b.
Proof.
  intros (ka & la & sa & ->) (kb & lb & sb & ->) H.
  destruct (cand_lt (Some (Fin kb), lb, Fin sb) (Some (Fin ka), la, Fin sa))
    as [[|]|ex] eqn:E.
  - exfalso.
    assert (N1 : ~ cand_le (Some (Fin ka), la, Fin sa) (Some (Fin kb), lb, Fin sb))
      by (unfold cand_le; congruence).
    assert (N2 : ~ cand_le (Some (Fin kb), lb, Fin sb) (Some (Fin ka), la, Fin sa))
      by (unfold cand_le; congruence).
    rewrite cand_le_iff in N1, N2.
    destruct (Q_dec ka kb) as [[C|C]|C]; [apply N1; left; exact C
                                        |apply N2; left; exact C|].
    destruct (Nat.lt_trichotomy la lb) as [D|[D|D]].
    + apply N1. right. split; [exact C|]. left. exact D.
    + destruct (Qlt_le_dec sb sa) as [F|F].
      * apply N2. right. split; [lra|]. right. split; [lia|lra].
      * apply N1. right. split; [lra|]. right. split; [lia|lra].
    + apply N2. right. split; [lra|]. left. exact D.
  - exact E.
  - exfalso. revert E. unfold cand_lt, key_eq, key_lt.
    destruct (negb _); [discriminate|].
    destruct (negb _); [discriminate|].
    destruct (negb _); discriminate.
Qed.

Lemma cand_le_key ka la sa kb lb sb :
  cand_le (Some (Fin ka), la, sa) (Some (Fin kb), lb, sb) -> (ka <= kb)%Q.
Proof.
  unfold cand_le, cand_lt, key_eq, key_lt, feq, flt.
  destruct (Qeq_bool kb ka) eqn:Ek; cbn [negb].
  - apply Qeq_bool_iff in Ek. intros _. lra.
  - rewrite andb_true_r. intros H.
    destruct (Qle_bool kb ka) eqn:Le; [discriminate|].
    assert (~ (kb <= ka)%Q)
      by (intros C; apply Qle_bool_iff in C; congruence).
    lra.
Qed.

Lemma good_nth h i a :
  Forall good_cand h -> nth_error h i = Some a -> good_cand a.
Proof.
  intros F H. rewrite Forall_forall in F. eapply F, nth_error_In, H.
Qed.

Lemma place_ordered h pos x :
  pos < length h ->
  ordered_off h pos -> above x h pos ->
  (0 < pos -> forall a, nth_error h (parent pos) = Some a -> cand_le a x) ->
  heap_ordered (set_nth h pos x).
Proof.
  intros Hp Ho Ha Hx i a b Hi Ea Eb.
  pose proof (parent_lt i Hi) as Pi.
  destruct (Nat.eq_dec i pos) as [->|Ni].
  - rewrite nth_error_set_nth_eq in Eb by exact Hp. injection Eb as <-.
    rewrite nth_error_set_nth_neq in Ea by lia. eapply Hx; eauto.
  - rewrite nth_error_set_nth_neq in Eb by lia.
    destruct (Nat.eq_dec (parent i) pos) as [Ep|Np].
    + rewrite Ep, nth_error_set_nth_eq in Ea by exact Hp. injection Ea as <-.
      eapply Ha; eauto.
    + rewrite nth_error_set_nth_neq in Ea by lia. eapply Ho; eauto.
Qed.

Lemma siftdown_loop_ordered fuel : forall h pos x h',
  pos <= fuel -> pos < length h ->
  Forall good_cand h -> good_cand x ->
  ordered_off h pos -> skip_ok h pos -> above x h pos ->
  siftdown_loop fuel h 0 pos x = Ok h' -> heap_ordered h'.
Proof.
  induction fuel as [|fuel IH]; intros h pos x h' Hf Hp F Gx Ho Hs Ha H;
    cbn [siftdown_loop] in H.
  - apply store_ok in H as [_ ->]. apply place_ordered; auto. intros; lia.
  - destruct (0 <? pos) eqn:E.
    2:{ apply Nat.ltb_ge in E. apply store_ok in H as [_ ->].
        apply place_ordered; auto. intros; lia. }
    apply Nat.ltb_lt in E. fold (parent pos) in H.
    pose proof (parent_lt pos E) as Pp.
    bind_inv H. rename a into p. apply load_ok in Ha0.
    pose proof (good_nth _ _ _ F Ha0) as Gp.
    bind_inv H. destruct a.
    2:{ apply store_ok in H as [_ ->]. apply place_ordered; auto.
        intros _ a Ea. rewrite Ha0 in Ea. injection Ea as <-. exact Ha1. }
    apply (cand_lt_le _ _ Gx Gp) in Ha1.
    bind_inv H. apply store_ok in Ha2 as [_ ->].
    apply IH in H; auto.
    + lia.
    + rewrite set_nth_length. lia.
    + apply Forall_set_nth; auto.
    + (* pairs away from the parent's position *)
      intros i a b Hi Ni Np Ea Eb.
      assert (i <> pos) by (intros ->; congruence).
      rewrite nth_error_set_nth_neq in Eb by lia.
      destruct (Nat.eq_dec (parent i) pos) as [Ei|Ei].
      * rewrite Ei, nth_error_set_nth_eq in Ea by exact Hp. injection Ea as <-.
        eapply (Hs i); eauto.
      * rewrite nth_error_set_nth_neq in Ea by lia. eapply Ho; eauto.
    + intros c a b H0 Hc Ec Ea Eb.
      pose proof (parent_lt _ H0) as P2.
      rewrite nth_error_set_nth_neq in Ea by lia.
      assert (Lp : cand_le a p) by (eapply (Ho (parent pos)); eauto; lia).
      destruct (Nat.eq_dec c pos) as [->|Nc].
      * rewrite nth_error_set_nth_eq in Eb by exact Hp. injection Eb as <-.
        exact Lp.
      * rewrite nth_error_set_nth_neq in Eb by lia.
        apply (cand_le_trans a p b); eauto using good_nth.
        apply (Ho c p b); auto; try lia. rewrite Ec. exact Ha0.
    + intros c b Hc Ec Eb.
      destruct (Nat.eq_dec c pos) as [->|Nc].
      * rewrite nth_error_set_nth_eq in Eb by exact Hp. injection Eb as <-.
        exact Ha1.
      * rewrite nth_error_set_nth_neq in Eb by lia.
        apply (cand_le_trans x p b); eauto using good_nth.
        apply (Ho c p b); auto; try lia. rewrite Ec. exact Ha0.
Qed.

Lemma Ok_inj {A : Type} (a b : A) : Ok a = Ok b -> a = b.
Proof. congruence. Qed.

Lemma siftup_loop_ordered fuel : forall h endpos pos h' pos',
  endpos = length h -> pos < endpos -> endpos <= fuel + pos ->
  Forall good_cand h ->
  ordered_off h pos -> skip_ok h pos ->
  siftup_loop fuel h endpos pos = Ok (h', pos') ->
  length h' = endpos /\ pos' < endpos /\ endpos <= 2 * pos' + 1 /\
  Forall good_cand h' /\ ordered_off h' pos' /\ skip_ok h' pos'.
Proof.
  induction fuel as [|fuel IH]; intros h endpos pos h' pos' He Hp Hf F Ho Hs H;
    [lia|].
  cbn [siftup_loop] in H.
  destruct (2 * pos + 1 <? endpos) eqn:E.
  2:{ apply Nat.ltb_ge in E. injection H as <- <-. auto 10. }
  apply Nat.ltb_lt in E.
  bind_inv H. rename a into c.
  assert (Hc : (c = 2 * pos + 1 \/ c = 2 * pos + 2) /\ c < endpos /\
               forall s a b, 0 < s -> s <> c -> parent s = pos ->
                 nth_error h c = Some a -> nth_error h s = Some b ->
                 cand_le a b).
  { destruct (2 * pos + 1 + 1 <? endpos) eqn:E'.
    - apply Nat.ltb_lt in E'.
      bind_inv Ha. rename a into l. bind_inv Ha. rename a into r.
      bind_inv Ha. rename a into lt. apply Ok_inj in Ha. subst c.
      apply load_ok in Ha0, Ha1.
      pose proof (good_nth _ _ _ F Ha0) as Gl.
      pose proof (good_nth _ _ _ F Ha1) as Gr.
      destruct lt; cbn [negb].
      + split; [left; reflexivity|]. split; [lia|].
        intros s a b H0 Ns Ps Ea Eb.
        apply parent_spec in Ps; [|exact H0].
        assert (s = 2 * pos + 1 + 1) by lia. subst s.
        rewrite Ha0 in Ea. rewrite Ha1 in Eb.
        injection Ea as <-. injection Eb as <-.
        apply cand_lt_le; auto.
      + split; [right; lia|]. split; [lia|].
        intros s a b H0 Ns Ps Ea Eb.
        apply parent_spec in Ps; [|exact H0].
        assert (s = 2 * pos + 1) by lia. subst s.
        rewrite Ha1 in Ea. rewrite Ha0 in Eb.
        injection Ea as <-. injection Eb as <-.
        exact Ha2.
    - apply Nat.ltb_ge in E'. apply Ok_inj in Ha. subst c.
      split; [left; reflexivity|]. split; [lia|].
      intros s a b H0 Ns Ps Ea Eb.
      apply parent_spec in Ps; [|exact H0].
      assert (s < length h) by (apply nth_error_Some; congruence). lia. }
  destruct Hc as (Cc & Bc & Sib). clear Ha.
  assert (Pc : parent c = pos) by (apply parent_spec; lia).
  bind_inv H. rename a into child. apply load_ok in Ha.
  bind_inv H. apply store_ok in Ha0 as [_ ->].
  apply IH in H; auto.
  - rewrite set_nth_length. exact He.
  - lia.
  - apply Forall_set_nth; eauto using good_nth.
  - intros i a b Hi Ni Np Ea Eb.
    pose proof (parent_lt i Hi) as Pi.
    destruct (Nat.eq_dec i pos) as [->|Nip].
    + rewrite nth_error_set_nth_eq in Eb by lia. injection Eb as <-.
      rewrite nth_error_set_nth_neq in Ea by lia.
      apply (Hs c a child); auto. lia.
    + rewrite nth_error_set_nth_neq in Eb by lia.
      destruct (Nat.eq_dec (parent i) pos) as [Ei|Ei].
      * rewrite Ei, nth_error_set_nth_eq in Ea by lia. injection Ea as <-.
        apply (Sib i child b); auto.
      * rewrite nth_error_set_nth_neq in Ea by lia. eapply Ho; eauto.
  - intros d a b H0 Hd Ed Ea Eb.
    rewrite Pc, nth_error_set_nth_eq in Ea by lia. injection Ea as <-.
    pose proof (parent_lt d Hd) as Pd.
    rewrite nth_error_set_nth_neq in Eb by lia.
    apply (Ho d child b); auto; try lia. rewrite Ed. exact Ha.
Qed.

Lemma siftup_ordered h h' :
  h <> [] -> Forall good_cand h -> ordered_off h 0 ->
  _siftup h 0 = Ok h' -> heap_ordered h'.
Proof.
  intros N F Ho H. unfold _siftup in H.
  assert (L : 0 < length h) by (destruct h; [congruence|simpl; lia]).
  bind_inv H. rename a into newitem. apply load_ok in Ha.
  pose proof (good_nth _ _ _ F Ha) as Gn.
  bind_inv H. destruct a as [h1 p1].
  apply siftup_loop_ordered in Ha0 as (L1 & B1 & Lf & F1 & O1 & S1); auto;
    [|lia|intros c a b C; lia].
  bind_inv H. apply store_ok in Ha0 as [_ ->].
  unfold _siftdown in H. bind_inv H. apply load_ok in Ha0.
  rewrite nth_error_set_nth_eq in Ha0 by lia. injection Ha0 as <-.
  assert (Leaf : forall c, 0 < c -> parent c = p1 ->
                           nth_error (set_nth h1 p1 newitem) c = None).
  { intros c Hc Pc. apply nth_error_None. rewrite set_nth_length.
    apply parent_spec in Pc; [|exact Hc]. lia. }
  eapply siftdown_loop_ordered; [| | | | | | |exact H]; auto.
  - rewrite set_nth_length. lia.
  - apply Forall_set_nth; auto.
  - intros i a b Hi Ni Np Ea Eb.
    rewrite nth_error_set_nth_neq in Ea, Eb by lia. eapply O1; eauto.
  - intros c a b H0 Hc Pc Ea Eb. rewrite (Leaf c Hc Pc) in Eb. discriminate.
  - intros c b Hc Pc Eb. rewrite (Leaf c Hc Pc) in Eb. discriminate.
Qed.

Lemma heap_ordered_app h t : heap_ordered (h ++ t) -> heap_ordered h.
Proof.
  intros H i a b Hi Ea Eb. apply (H i a b Hi).
  - rewrite nth_error_app1; [exact Ea|]. apply nth_error_Some. congruence.
  - rewrite nth_error_app1; [exact Eb|]. apply nth_error_Some. congruence.
Qed.

(** [heappush] keeps the heap invariant. *)
Lemma heappush_ordered h item h' :
  Forall good_cand h -> good_cand item -> heap_ordered h ->
  heappush h item = Ok h' -> heap_ordered h'.
Proof.
  intros F G Ho H. unfold heappush, _siftdown in H.
  rewrite length_app in H. cbn [length] in H.
  replace (length h + 1 - 1) with (length h) in H by lia.
  bind_inv H. apply load_ok in Ha.
  rewrite nth_error_app2, Nat.sub_diag in Ha by lia. injection Ha as <-.
  assert (Out : forall c, length h < c -> nth_error (h ++ [item]) c = None).
  { intros c Hc. apply nth_error_None. rewrite length_app. simpl. lia. }
  eapply siftdown_loop_ordered; [| | | | | | |exact H]; auto.
  - rewrite length_app. simpl. lia.
  - apply Forall_app. split; auto.
  - intros i a b Hi Ni Np Ea Eb. pose proof (parent_lt i Hi) as Pi.
    destruct (Nat.lt_ge_cases i (length h)) as [C|C].
    + rewrite nth_error_app1 in Ea, Eb by lia. eapply Ho; eauto.
    + rewrite Out in Eb by lia. discriminate.
  - intros c a b H0 Hc Pc Ea Eb. pose proof (parent_lt c Hc).
    rewrite Out in Eb by lia. discriminate.
  - intros c b Hc Pc Eb. pose proof (parent_lt c Hc).
    rewrite Out in Eb by lia. discriminate.
Qed.

(** [heappop] returns the root and keeps the heap invariant. *)
Lemma heappop_ordered h c rest :
  Forall good_cand h -> heap_ordered h ->
  heappop h = Ok (c, rest) ->
  nth_error h 0 = Some c /\ heap_ordered rest.
Proof.
  intros F Ho H. unfold heappop in H. pose proof (list_pop_app h) as L.
  destruct (list_pop h) as [[h0 lastelt]|]; [|discriminate]. subst h.
  destruct h0 as [|returnitem r].
  - injection H as <- <-. split; [reflexivity|].
    intros i a b _ Ea. destruct (parent i); discriminate.
  - bind_inv H. apply store_ok in Ha as [_ ->]. bind_inv H.
    injection H as <- <-. split; [reflexivity|].
    apply Forall_app in F as [F1 F2].
    apply heap_ordered_app in Ho.
    eapply siftup_ordered; [| | |exact Ha].
    + discriminate.
    + simpl. inversion F1; inversion F2; subst. constructor; auto.
    + intros i u v Hi Ni Np Eu Ev. apply (Ho i u v Hi).
      * destruct (parent i); [congruence|exact Eu].
      * destruct i; [lia|exact Ev].
Qed.

(** The root of a heap is a least entry. *)
Lemma heap_root_least h a :
  Forall good_cand h -> heap_ordered h -> nth_error h 0 = Some a ->
  forall i b, nth_error h i = Some b -> cand_le a b.
Proof.
  intros F Ho E0 i. induction i as [i IH] using lt_wf_ind. intros b Eb.
  destruct (Nat.eq_dec i 0) as [->|Ni].
  - rewrite E0 in Eb. injection Eb as <-. apply cand_le_refl.
    eapply good_nth; eauto.
  - assert (Hi : 0 < i) by lia. pose proof (parent_lt i Hi) as Pi.
    destruct (nth_error h (parent i)) as [p|] eqn:Ep.
    + apply (cand_le_trans a p b); eauto using good_nth.
    + apply nth_error_None in Ep.
      assert (i < length h) by (apply nth_error_Some; congruence). lia.
Qed.

(** ** One turn of the loop *)

Section Verification.

Variable _split : list (list Q) -> list Z.
Variable np_std : list Q -> npfloat.
Variable np_argsort : list npfloat -> list nat.

Section LoopFacts.

Variable X : list (list Q).
Variable y : list Q.
Variable mcs : Z.
Variable n_samples : nat.

Local Abbreviation pop_split' := (pop_split _split X).
Local Abbreviation accept_split' := (accept_split np_std y).
Local Abbreviation decide_split' := (decide_split np_std y mcs n_samples).
Local Abbreviation step' := (step _split np_std X y mcs n_samples).
Local Abbreviation fit_loop' := (fit_loop _split np_std X y mcs n_samples).

Lemma pop_split_facts st v :
  pop_split' st = Ok v ->
  (exists k, Permutation ((k, sv_label v, sv_score v) :: sv_heap v) (fs_heap st)) /\
  (forall i, In i (sv_indices0 v) -> nth_error (fs_labels st) i = Some (sv_label v)) /\
  (forall i, In i (sv_indices1 v) -> nth_error (fs_labels st) i = Some (sv_label v)) /\
  NoDup (sv_indices0 v) /\ NoDup (sv_indices1 v) /\
  (forall i, In i (sv_indices0 v) -> In i (sv_indices1 v) -> False).
Proof.
  unfold pop_split. intros H.
  bind_inv H. destruct a as [[[k label] score] heap]. simpl in H.
  bind_inv H. rename a into cluster.
  bind_inv H. rename a into indices0. bind_inv H. rename a into indices1.
  injection H as <-. simpl.
  set (ci := np_nonzero (map (fun l => l =? label) (fs_labels st))) in *.
  assert (Nci : NoDup ci) by apply np_nonzero_NoDup.
  assert (Hci : forall i, In i ci -> nth_error (fs_labels st) i = Some label).
  { intros i Hi. apply positions_In. exact Hi. }
  assert (Sub : forall idx t i, take_idx ci idx = Ok t -> In i t -> In i ci).
  { intros idx t i Ht Hi. destruct (take_idx_in _ _ _ _ Ht Hi) as [j [_ J]].
    eapply nth_error_In; eauto. }
  refine (conj _ (conj _ (conj _ (conj _ (conj _ _))))).
  - exists k. apply heappop_perm. exact Ha.
  - intros i Hi. apply Hci. exact (Sub _ _ _ Ha1 Hi).
  - intros i Hi. apply Hci. exact (Sub _ _ _ Ha2 Hi).
  - eapply take_idx_NoDup; [exact Nci| |exact Ha1]. apply np_nonzero_NoDup.
  - eapply take_idx_NoDup; [exact Nci| |exact Ha2]. apply np_nonzero_NoDup.
  - intros i H0 H1.
    eapply (take_idx_disjoint _ _ _ _ _ i Nci Ha1 Ha2); auto.
    intros j J0 J1. apply np_nonzero_In in J0, J1.
    rewrite nth_error_map in J0, J1.
    destruct (nth_error (_split cluster) j) as [z|]; simpl in *; [|discriminate].
    injection J0 as J0. injection J1 as J1.
    apply Z.eqb_eq in J0, J1. lia.
Qed.

Lemma accept_split_materialized st v s0 s1 st' :
  accept_split' st v s0 s1 = Ok st' -> materialized st v s0 s1 st'.
Proof.
  unfold accept_split. intros H.
  bind_inv H. rename a into y0. bind_inv H. rename a into heap1.
  bind_inv H. rename a into y1. bind_inv H. rename a into heap2.
  bind_inv H. rename a into labels. injection H as <-.
  unfold materialized; simpl.
  refine (conj eq_refl (conj _ (conj _ (conj eq_refl eq_refl)))).
  - intros i. apply assign_idx_nth. exact Ha3.
  - exists (Some (fneg (np_std y0))), (Some (fneg (np_std y1))).
    apply heappush_perm in Ha0, Ha2.
    eapply perm_trans; [exact Ha2|]. apply perm_skip. exact Ha0.
Qed.

Lemma decide_split_small st v :
  sizes_ok mcs v = false -> decide_split' st v = Ok (finalize_popped st v).
Proof.
  unfold decide_split. intros ->. reflexivity.
Qed.

Lemma decide_split_cases st v st' :
  decide_split' st v = Ok st' ->
  st' = finalize_popped st v \/
  (sizes_ok mcs v = true /\
   exists s0 s1,
     disc_score n_samples y (sv_indices0 v) = Ok s0 /\
     disc_score n_samples y (sv_indices1 v) = Ok s1 /\
     fge (pymax s0 s1) (sv_score v) = true /\
     accept_split' st v s0 s1 = Ok st').
Proof.
  unfold decide_split. destruct (sizes_ok mcs v) eqn:S.
  - intros H. bind_inv H. rename a into s0. bind_inv H. rename a into s1.
    destruct (fge (pymax s0 s1) (sv_score v)) eqn:G.
    + right. split; auto. exists s0, s1. auto.
    + left. injection H as <-. reflexivity.
  - intros H. left. injection H as <-. reflexivity.
Qed.

Lemma materialized_not_finalized st v s0 s1 :
  ~ materialized st v s0 s1 (finalize_popped st v).
Proof.
  intros [H _]. simpl in H. lia.
Qed.

Lemma sizes_ok_iff v :
  sizes_ok mcs v = true <->
  (mcs <= Z.of_nat (length (sv_indices0 v)))%Z /\
  (mcs <= Z.of_nat (length (sv_indices1 v)))%Z.
Proof.
  unfold sizes_ok. rewrite andb_true_iff, !Z.geb_le. reflexivity.
Qed.

(** ** The loop keeps the labels a partition *)

Lemma all_clusters_after_pop st v k :
  Permutation ((k, sv_label v, sv_score v) :: sv_heap v) (fs_heap st) ->
  Permutation (fs_clusters st ++ sv_label v :: map cand_label (sv_heap v))
              (all_clusters st).
Proof.
  intros P. unfold all_clusters. apply Permutation_app_head.
  apply (Permutation_map cand_label) in P. exact P.
Qed.

Lemma partitions_init : partitions n_samples (init_state n_samples).
Proof.
  unfold partitions, all_clusters, all_scores; simpl.
  refine (conj _ (conj _ (conj _ (conj eq_refl eq_refl)))).
  - apply repeat_length.
  - reflexivity.
  - apply Forall_forall. intros l Hl. apply repeat_spec in Hl. subst. left; auto.
Qed.

Lemma partitions_finalize st v :
  pop_split' st = Ok v -> partitions n_samples st ->
  partitions n_samples (finalize_popped st v).
Proof.
  intros Hp (I1 & I2 & I3 & I4 & I5).
  destruct (pop_split_facts _ _ Hp) as ([k P] & _).
  pose proof (all_clusters_after_pop _ _ _ P) as Pc.
  assert (E : Permutation (all_clusters (finalize_popped st v)) (all_clusters st)).
  { unfold all_clusters at 1; simpl. rewrite <- app_assoc. exact Pc. }
  unfold partitions.
  refine (conj I1 (conj _ (conj _ (conj _ _)))).
  - simpl. eapply perm_trans; [exact E|exact I2].
  - simpl. eapply Forall_impl; [|exact I3].
    intros l Hl. eapply Permutation_in; [symmetry; exact E|exact Hl].
  - rewrite (Permutation_length E), <- I4.
    unfold all_scores; simpl. rewrite !length_app, !length_map. simpl.
    apply Permutation_length in P. simpl in P. unfold cand in *. lia.
  - simpl. rewrite !length_app. simpl. lia.
Qed.

Lemma partitions_accept st v s0 s1 st' :
  pop_split' st = Ok v -> partitions n_samples st ->
  accept_split' st v s0 s1 = Ok st' -> partitions n_samples st'.
Proof.
  intros Hp (I1 & I2 & I3 & I4 & I5) Ha.
  destruct (pop_split_facts _ _ Hp) as ([k P] & _).
  pose proof (all_clusters_after_pop _ _ _ P) as Pc.
  apply accept_split_materialized in Ha
    as (M1 & M2 & (k0 & k1 & M3) & M4 & M5).
  assert (E : Permutation (all_clusters st') (fs_n_clusters st :: all_clusters st)).
  { unfold all_clusters at 1. rewrite M4.
    apply (Permutation_map cand_label) in M3. simpl in M3.
    eapply perm_trans; [apply Permutation_app_head; exact M3|].
    unfold cand_label at 1; simpl.
    eapply perm_trans; [symmetry; apply Permutation_middle|].
    apply perm_skip. exact Pc. }
  assert (L : length (fs_labels st') = length (fs_labels st)).
  { destruct (Nat.lt_trichotomy (length (fs_labels st')) (length (fs_labels st)))
      as [C|[C|C]]; auto; exfalso.
    - pose proof (M2 (length (fs_labels st'))) as N.
      rewrite (proj2 (nth_error_None _ _) (Nat.le_refl _)) in N.
      destruct (existsb _ _); [discriminate|].
      symmetry in N. apply nth_error_None in N. lia.
    - pose proof (M2 (length (fs_labels st))) as N.
      rewrite (proj2 (nth_error_None (fs_labels st) _) (Nat.le_refl _)) in N.
      destruct (existsb (Nat.eqb (length (fs_labels st))) (sv_indices1 v)) eqn:Ex.
      + apply existsb_eqb_In in Ex.
        destruct (pop_split_facts _ _ Hp) as (_ & _ & F1 & _).
        apply F1 in Ex.
        rewrite (proj2 (nth_error_None (fs_labels st) _) (Nat.le_refl _)) in Ex.
        discriminate.
      + apply nth_error_None in N. lia. }
  unfold partitions.
  refine (conj _ (conj _ (conj _ (conj _ _)))).
  - congruence.
  - rewrite M1, Nat.add_1_r, seq_S. simpl.
    eapply perm_trans; [exact E|].
    eapply perm_trans; [apply perm_skip; exact I2|].
    apply Permutation_cons_append.
  - apply Forall_forall. intros l Hl.
    apply In_nth_error in Hl as [i Hi]. rewrite M2 in Hi.
    eapply Permutation_in; [symmetry; exact E|].
    destruct (existsb _ _).
    + injection Hi as <-. left; reflexivity.
    + right. rewrite Forall_forall in I3. apply I3.
      eapply nth_error_In; eauto.
  - rewrite (Permutation_length E). simpl. rewrite <- I4.
    unfold all_scores. rewrite M5, !length_app, !length_map.
    apply Permutation_length in M3, P. simpl in M3, P. unfold cand in *. lia.
  - congruence.
Qed.

Lemma step_partitions st st' :
  partitions n_samples st -> step' st = Ok st' -> partitions n_samples st'.
Proof.
  unfold step. intros I H. bind_inv H. rename a into v.
  apply decide_split_cases in H as [->|(_ & s0 & s1 & _ & _ & _ & A)].
  - apply partitions_finalize; auto.
  - eapply partitions_accept; eauto.
Qed.

Lemma fit_loop_partitions turns : forall st st' r,
  partitions n_samples st -> fit_loop' turns st = (st', r) ->
  partitions n_samples st'.
Proof.
  induction turns as [|t IH]; intros st st' r I; simpl.
  - intros H. injection H as <- _. exact I.
  - destruct (fs_heap st) eqn:Eh.
    + intros H. injection H as <- _. exact I.
    + destruct (step' st) as [st1|ex] eqn:Es.
      * apply IH. eapply step_partitions; eauto.
      * intros H. injection H as <- _. exact I.
Qed.

(** With a positive minimum size no cluster is ever empty. *)
Lemma nonempty_has_member (l : list nat) :
  (1 <= Z.of_nat (length l))%Z -> exists i, In i l.
Proof.
  destruct l as [|i r]; simpl; [lia|]. exists i; auto.
Qed.

Lemma step_inhabited st st' :
  (1 <= mcs)%Z -> inhabited st -> step' st = Ok st' -> inhabited st'.
Proof.
  unfold step. intros Hm I H. bind_inv H. rename a into v.
  apply decide_split_cases in H as [->|(S & s0 & s1 & _ & _ & _ & A)].
  - exact I.
  - destruct (pop_split_facts _ _ Ha) as (_ & F0 & F1 & _ & _ & D).
    apply sizes_ok_iff in S as [S0 S1].
    apply accept_split_materialized in A as (M1 & M2 & _).
    destruct (nonempty_has_member (sv_indices0 v)) as [i0 H0]; [lia|].
    destruct (nonempty_has_member (sv_indices1 v)) as [i1 H1]; [lia|].
    intros l Hl. rewrite M1 in Hl.
    destruct (Nat.eq_dec l (fs_n_clusters st)) as [->|N1].
    + apply (nth_error_In _ i1). rewrite M2.
      rewrite (proj2 (existsb_eqb_In i1 _) H1). reflexivity.
    + destruct (Nat.eq_dec l (sv_label v)) as [->|N2].
      * apply (nth_error_In _ i0). rewrite M2.
        destruct (existsb (Nat.eqb i0) (sv_indices1 v)) eqn:Ex.
        -- apply existsb_eqb_In in Ex. destruct (D _ H0 Ex).
        -- apply F0. exact H0.
      * destruct (In_nth_error _ _ (I l ltac:(lia))) as [i Hi].
        apply (nth_error_In _ i). rewrite M2.
        destruct (existsb (Nat.eqb i) (sv_indices1 v)) eqn:Ex; [|exact Hi].
        apply existsb_eqb_In in Ex. apply F1 in Ex. congruence.
Qed.

Lemma fit_loop_inhabited turns : forall st st' r,
  (1 <= mcs)%Z -> inhabited st -> fit_loop' turns st = (st', r) -> inhabited st'.
Proof.
  induction turns as [|t IH]; intros st st' r Hm I; simpl.
  - intros H. injection H as <- _. exact I.
  - destruct (fs_heap st) eqn:Eh.
    + intros H. injection H as <- _. exact I.
    + destruct (step' st) as [st1|ex] eqn:Es.
      * apply IH; auto. eapply step_inhabited; eauto.
      * intros H. injection H as <- _. exact I.
Qed.

Lemma inhabited_init : 1 <= n_samples -> inhabited (init_state n_samples).
Proof.
  intros H l Hl. simpl in *. assert (l = 0) by lia. subst.
  destruct n_samples; [lia|]. left; reflexivity.
Qed.

(** With a positive minimum size every score is a number. *)
Lemma np_mean_fin (l : list Q) : l <> [] -> is_fin (np_mean l) = true.
Proof.
  destruct l; [congruence|reflexivity].
Qed.

Lemma spec_score_fin side i0 i1 :
  In i0 side -> i1 < n_samples -> ~ In i1 side ->
  is_fin (spec_score n_samples y side) = true.
Proof.
  intros H0 H1 N1. unfold spec_score.
  assert (A : is_fin (np_mean (y_over y (complement_of n_samples side))) = true).
  { apply np_mean_fin. unfold y_over, complement_of. intros E.
    apply map_eq_nil in E.
    assert (In i1 (filter (fun i => negb (existsb (Nat.eqb i) side))
                      (seq 0 n_samples))).
    { apply filter_In. split; [apply in_seq; lia|].
      destruct (existsb (Nat.eqb i1) side) eqn:Ex; auto.
      apply existsb_eqb_In in Ex. contradiction. }
    rewrite E in H. destruct H. }
  assert (B : is_fin (np_mean (y_over y side)) = true).
  { apply np_mean_fin. destruct side; [destruct H0|discriminate]. }
  destruct (np_mean _); [|discriminate].
  destruct (np_mean _); [reflexivity|discriminate].
Qed.

Lemma step_finite_scores st st' :
  (1 <= mcs)%Z -> length y = n_samples -> length (fs_labels st) = n_samples ->
  finite_scores st -> step' st = Ok st' -> finite_scores st'.
Proof.
  unfold step. intros Hm Ly Ll I H. bind_inv H. rename a into v.
  destruct (pop_split_facts _ _ Ha) as ([k P] & F0 & F1 & _ & _ & D).
  assert (Pf : Forall (fun s => is_fin s = true)
                 (fs_scores st ++ sv_score v :: map cand_score (sv_heap v))).
  { eapply Permutation_Forall; [|exact I]. unfold all_scores.
    apply Permutation_app_head. symmetry.
    apply (Permutation_map cand_score) in P. exact P. }
  apply Forall_app in Pf as [Pf1 Pf2]. apply Forall_cons_iff in Pf2 as [Pf3 Pf4].
  apply decide_split_cases in H as [->|(S & s0 & s1 & D0 & D1 & _ & A)].
  - unfold finite_scores, all_scores; simpl. rewrite <- app_assoc.
    apply Forall_app; split; auto. simpl. constructor; auto.
  - apply sizes_ok_iff in S as [S0 S1].
    destruct (nonempty_has_member (sv_indices0 v)) as [i0 H0]; [lia|].
    destruct (nonempty_has_member (sv_indices1 v)) as [i1 H1]; [lia|].
    assert (B0 : i0 < n_samples).
    { rewrite <- Ll. apply nth_error_Some. rewrite (F0 _ H0). discriminate. }
    assert (B1 : i1 < n_samples).
    { rewrite <- Ll. apply nth_error_Some. rewrite (F1 _ H1). discriminate. }
    apply disc_score_ok in D0 as [_ ->]; auto.
    apply disc_score_ok in D1 as [_ ->]; auto.
    apply accept_split_materialized in A as (_ & _ & (k0 & k1 & M3) & _ & M5).
    unfold finite_scores, all_scores. rewrite M5.
    apply Forall_app; split; auto.
    eapply Permutation_Forall;
      [symmetry; apply (Permutation_map cand_score); exact M3|].
    simpl. constructor; [|constructor; auto].
    + apply spec_score_fin with (i0 := i1) (i1 := i0); auto.
      intros C. exact (D _ H0 C).
    + apply spec_score_fin with (i0 := i0) (i1 := i1); auto.
      intros C. exact (D _ C H1).
Qed.

Lemma fit_loop_finite_scores turns : forall st st' r,
  (1 <= mcs)%Z -> length y = n_samples -> partitions n_samples st ->
  finite_scores st -> fit_loop' turns st = (st', r) -> finite_scores st'.
Proof.
  induction turns as [|t IH]; intros st st' r Hm Ly Ip I; simpl.
  - intros H. injection H as <- _. exact I.
  - destruct (fs_heap st) eqn:Eh.
    + intros H. injection H as <- _. exact I.
    + destruct (step' st) as [st1|ex] eqn:Es.
      * apply IH; auto.
        -- eapply step_partitions; eauto.
        -- eapply step_finite_scores; eauto. apply Ip.
      * intros H. injection H as <- _. exact I.
Qed.

(** A turn of the loop adds at most one cluster. *)
Lemma step_n_clusters st st' :
  step' st = Ok st' ->
  fs_n_clusters st <= fs_n_clusters st' <= fs_n_clusters st + 1.
Proof.
  unfold step. intros H. bind_inv H.
  apply decide_split_cases in H as [->|(_ & s0 & s1 & _ & _ & _ & A)].
  - simpl. lia.
  - apply accept_split_materialized in A as (M1 & _). lia.
Qed.

Lemma fit_loop_n_clusters turns : forall st st' r,
  fit_loop' turns st = (st', r) ->
  fs_n_clusters st <= fs_n_clusters st' <= fs_n_clusters st + turns.
Proof.
  induction turns as [|t IH]; intros st st' r; simpl.
  - intros H. injection H as <- _. lia.
  - destruct (fs_heap st) eqn:Eh.
    + intros H. injection H as <- _. lia.
    + destruct (step' st) as [st1|ex] eqn:Es.
      * intros H. apply IH in H. apply step_n_clusters in Es. lia.
      * intros H. injection H as <- _. lia.
Qed.

(** ** The acceptance rule *)




(** C2. When one side of the split has [min_cluster_size - 1] points or
    fewer, the turn finishes the popped cluster: its label and score are
    appended to the finished clusters and the labels, the number of
    clusters and the rest of the heap are left as they are.  A turn that
    does anything else, a materialized split in particular, has two sides
    of [min_cluster_size] points or more. *)
Theorem split_needs_min_size st v :
  pop_split' st = Ok v ->
  (((Z.of_nat (length (sv_indices0 v)) <= mcs - 1)%Z \/
    (Z.of_nat (length (sv_indices1 v)) <= mcs - 1)%Z) ->
   step' st = Ok (finalize_popped st v)) /\
  (fs_labels (finalize_popped st v) = fs_labels st /\
   fs_n_clusters (finalize_popped st v) = fs_n_clusters st /\
   fs_clusters (finalize_popped st v) = fs_clusters st ++ [sv_label v] /\
   fs_scores (finalize_popped st v) = fs_scores st ++ [sv_score v] /\
   fs_heap (finalize_popped st v) = sv_heap v) /\
  (forall st',
      step' st = Ok st' ->
      (st' <> finalize_popped st v \/ exists s0 s1, materialized st v s0 s1 st') ->
      (mcs <= Z.of_nat (length (sv_indices0 v)))%Z /\
      (mcs <= Z.of_nat (length (sv_indices1 v)))%Z).
Proof.
  intros Hp. refine (conj _ (conj _ _)).
  - intros Small. unfold step. rewrite Hp. simpl.
    apply decide_split_small.
    destruct (sizes_ok mcs v) eqn:S; auto.
    apply sizes_ok_iff in S. lia.
  - repeat split.
  - intros st' H Hd. unfold step in H. rewrite Hp in H. simpl in H.
    apply sizes_ok_iff.
    destruct (sizes_ok mcs v) eqn:S; auto.
    rewrite (decide_split_small _ _ S) in H. injection H as <-.
    destruct Hd as [N|(s0 & s1 & M)]; [congruence|].
    destruct (materialized_not_finalized _ _ _ _ M).
Qed.

(** C3. In a turn of the loop on validated data, the score computed for
    each of the two sides is the mean of [y] over all the indices of the
    dataset that are not in the side, minus the mean of [y] over the side
    (the complement is taken in the whole dataset, not in the popped
    cluster), and these two scores are the ones the turn compares and
    pushes. *)
Theorem side_scores_are_outside_minus_inside st v :
  length y = n_samples ->
  length (fs_labels st) = n_samples ->
  pop_split' st = Ok v ->
  disc_score n_samples y (sv_indices0 v)
    = Ok (spec_score n_samples y (sv_indices0 v)) /\
  disc_score n_samples y (sv_indices1 v)
    = Ok (spec_score n_samples y (sv_indices1 v)) /\
  decide_split' st v =
    (if sizes_ok mcs v then
       if fge (pymax (spec_score n_samples y (sv_indices0 v))
                     (spec_score n_samples y (sv_indices1 v))) (sv_score v)
       then accept_split' st v (spec_score n_samples y (sv_indices0 v))
                               (spec_score n_samples y (sv_indices1 v))
       else Ok (finalize_popped st v)
     else Ok (finalize_popped st v)).
Proof.
  intros Ly Ll Hp.
  destruct (pop_split_facts _ _ Hp) as (_ & F0 & F1 & _).
  assert (B : forall idx,
             (forall i, In i idx -> nth_error (fs_labels st) i = Some (sv_label v)) ->
             Forall (fun i => i < n_samples) idx).
  { intros idx F. apply Forall_forall. intros i Hi.
    rewrite <- Ll. apply nth_error_Some. rewrite (F _ Hi). discriminate. }
  pose proof (disc_score_total n_samples y _ Ly (B _ F0)) as E0.
  pose proof (disc_score_total n_samples y _ Ly (B _ F1)) as E1.
  refine (conj E0 (conj E1 _)).
  unfold decide_split. rewrite E0, E1. reflexivity.
Qed.

(** ** A turn of the loop does not raise *)

Lemma np_nonzero_bound (mask : list bool) :
  Forall (fun i => i < length mask) (np_nonzero mask).
Proof.
  apply Forall_forall. intros i Hi. apply np_nonzero_In in Hi.
  apply nth_error_Some. congruence.
Qed.

Lemma take_idx_total {A : Type} (a : list A) idx :
  Forall (fun i => i < length a) idx -> exists t, take_idx a idx = Ok t.
Proof.
  intros F. destruct a as [|d a'].
  - destruct idx as [|i r]; [simpl; eauto|].
    inversion F; subst. simpl in *. lia.
  - eexists. apply (take_idx_spec d). split; [exact F|reflexivity].
Qed.

Lemma heap_keyed_init : heap_keyed (init_state n_samples).
Proof.
  left. reflexivity.
Qed.

Lemma pop_split_total st :
  one_label_per_row _split ->
  length X = n_samples -> length (fs_labels st) = n_samples ->
  fs_heap st <> [] -> heap_keyed st ->
  exists v, pop_split' st = Ok v /\ Forall has_key (sv_heap v).
Proof.
  intros Hs Lx Ll Ne Hk. unfold pop_split.
  assert (Hp : exists c h, heappop (fs_heap st) = Ok (c, h) /\ Forall has_key h).
  { destruct Hk as [E|F].
    - rewrite E. exists (None, 0, Fin 0%Q), []. split; [reflexivity|constructor].
    - destruct (heappop_total _ Ne F) as (c & h & E). exists c, h.
      split; [exact E|].
      apply heappop_perm in E.
      apply (Permutation_Forall (Permutation_sym E)) in F.
      inversion F; subst; auto. }
  destruct Hp as ([[k label] score] & h & -> & Fh). cbn [bind].
  set (ci := np_nonzero (map (fun l => l =? label) (fs_labels st))).
  assert (Bci : Forall (fun i => i < length X) ci).
  { pose proof (np_nonzero_bound (map (fun l => l =? label) (fs_labels st))) as B.
    rewrite length_map, Ll, <- Lx in B. exact B. }
  destruct (take_idx_total X ci Bci) as [cluster Ec]. rewrite Ec. cbn [bind].
  assert (Lc : length cluster = length ci) by (eapply take_idx_length; eauto).
  assert (Bm : forall z, Forall (fun i => i < length ci)
                 (np_nonzero (map (fun l => (l =? z)%Z) (_split cluster)))).
  { intros z.
    pose proof (np_nonzero_bound (map (fun l => (l =? z)%Z) (_split cluster))) as B.
    rewrite length_map, Hs, Lc in B. exact B. }
  destruct (take_idx_total ci _ (Bm 0%Z)) as [i0 ->]. cbn [bind].
  destruct (take_idx_total ci _ (Bm 1%Z)) as [i1 ->]. cbn [bind].
  eexists. split; [reflexivity|exact Fh].
Qed.

Lemma accept_split_total st v s0 s1 :
  length y = n_samples -> length (fs_labels st) = n_samples ->
  Forall (fun i => i < n_samples) (sv_indices0 v) ->
  Forall (fun i => i < n_samples) (sv_indices1 v) ->
  Forall has_key (sv_heap v) ->
  exists st', accept_split' st v s0 s1 = Ok st' /\ Forall has_key (fs_heap st').
Proof.
  intros Ly Ll B0 B1 Fh. unfold accept_split.
  rewrite <- Ly in B0, B1.
  destruct (take_idx_total y _ B0) as [y0 ->]. cbn [bind].
  destruct (heappush_total (sv_heap v)
              (Some (fneg (np_std y0)), sv_label v, s0) Fh) as [h1 E1];
    [unfold has_key; simpl; discriminate|].
  rewrite E1. cbn [bind].
  destruct (take_idx_total y _ B1) as [y1 ->]. cbn [bind].
  assert (F1 : Forall has_key h1).
  { apply heappush_perm in E1.
    apply (Permutation_Forall (Permutation_sym E1)).
    constructor; [unfold has_key; simpl; discriminate|exact Fh]. }
  destruct (heappush_total h1
              (Some (fneg (np_std y1)), fs_n_clusters st, s1) F1) as [h2 E2];
    [unfold has_key; simpl; discriminate|].
  rewrite E2. cbn [bind].
  assert (F2 : Forall has_key h2).
  { apply heappush_perm in E2.
    apply (Permutation_Forall (Permutation_sym E2)).
    constructor; [unfold has_key; simpl; discriminate|exact F1]. }
  rewrite Ly, <- Ll in B1.
  destruct (assign_idx_total (fs_labels st) (sv_indices1 v) (fs_n_clusters st) B1)
    as [labels ->].
  cbn [bind]. eexists. split; [reflexivity|exact F2].
Qed.

Lemma step_total st :
  one_label_per_row _split ->
  length X = n_samples -> length y = n_samples ->
  length (fs_labels st) = n_samples ->
  fs_heap st <> [] -> heap_keyed st ->
  exists st', step' st = Ok st' /\ heap_keyed st'.
Proof.
  intros Hs Lx Ly Ll Ne Hk. unfold step.
  destruct (pop_split_total st Hs Lx Ll Ne Hk) as (v & Ev & Fv).
  rewrite Ev. cbn [bind].
  destruct (pop_split_facts _ _ Ev) as (_ & F0 & F1 & _).
  assert (B : forall idx,
             (forall i, In i idx -> nth_error (fs_labels st) i = Some (sv_label v)) ->
             Forall (fun i => i < n_samples) idx).
  { intros idx F. apply Forall_forall. intros i Hi.
    rewrite <- Ll. apply nth_error_Some. rewrite (F _ Hi). discriminate. }
  unfold decide_split.
  destruct (sizes_ok mcs v); [|eexists; split; [reflexivity|right; exact Fv]].
  rewrite (disc_score_total n_samples y _ Ly (B _ F0)). cbn [bind].
  rewrite (disc_score_total n_samples y _ Ly (B _ F1)). cbn [bind].
  destruct (fge _ _); [|eexists; split; [reflexivity|right; exact Fv]].
  destruct (accept_split_total st v (spec_score n_samples y (sv_indices0 v))
              (spec_score n_samples y (sv_indices1 v)) Ly Ll (B _ F0) (B _ F1) Fv)
    as (st' & -> & F').
  exists st'. split; [reflexivity|right; exact F'].
Qed.

Lemma fit_loop_total turns : forall st,
  one_label_per_row _split ->
  length X = n_samples -> length y = n_samples ->
  partitions n_samples st -> heap_keyed st ->
  exists st', fit_loop' turns st = (st', None).
Proof.
  induction turns as [|t IH]; intros st Hs Lx Ly Ip Hk; simpl; [eauto|].
  destruct (fs_heap st) as [|c h] eqn:Eh; [eauto|].
  destruct (step_total st Hs Lx Ly (proj1 Ip)) as (st1 & E1 & K1).
  - rewrite Eh. discriminate.
  - exact Hk.
  - rewrite E1. apply IH; auto. eapply step_partitions; eauto.
Qed.

End LoopFacts.

(** ** [fit] as a whole *)

Local Abbreviation fit' := (fit _split np_std np_argsort).
Local Abbreviation fit_stages' := (fit_stages _split np_std np_argsort).
Local Abbreviation loop_of X y e :=
  (fit_loop _split np_std X y (min_cluster_size e) (length X)
     (Z.to_nat (n_iter e)) (init_state (length X))).

(** Opens the definition of [fit] stage by stage. *)
Ltac unfold_fit :=
  unfold fit, mbind, lift, run_loop, set_n_clusters, set_scores, set_labels,
    set_centroids, get_attr.

Ltac fields :=
  cbn [n_clusters_ n_iter min_cluster_size scores_ labels_ centroids_].

Lemma fit_ok_iff X y e e' :
  fit' X y e = (e', Ok tt) <->
  exists st clusters scores labels centroids,
    fit_stages' X y e st clusters scores labels centroids /\
    e' = fitted e (fs_n_clusters st) scores labels centroids.
Proof.
  split.
  - unfold fit_stages, fitted. unfold_fit.
    destruct (validate_Xy X y) as [[]|ex0] eqn:V; [|discriminate].
    fields.
    destruct (loop_of X y e) as [st [ex1|]] eqn:L; [discriminate|].
    destruct (take_idx (all_clusters st) (np_argsort (map fneg (all_scores st))))
      as [clusters|ex2] eqn:T1; [|discriminate].
    destruct (take_idx (all_scores st) (np_argsort (map fneg (all_scores st))))
      as [scores|ex3] eqn:T2; [|discriminate].
    fields.
    destruct (scatter_arange (repeat 0 (fs_n_clusters st)) clusters
                (fs_n_clusters st)) as [mapping|ex4] eqn:T3; [|discriminate].
    destruct (take_idx mapping (fs_labels st)) as [labels|ex5] eqn:T4;
      [|discriminate].
    fields.
    destruct (calc_centroids X labels) as [centroids|ex6] eqn:T5;
      [|discriminate].
    fields.
    intros H. injection H as <-.
    exists st, clusters, scores, labels, centroids.
    split; [|reflexivity].
    refine (conj eq_refl (conj eq_refl (conj T1 (conj T2 (conj _ T5))))).
    exists mapping. auto.
  - intros (st & clusters & scores & labels & centroids &
            (V & L & T1 & T2 & (mapping & T3 & T4) & T5) & ->).
    unfold fitted. unfold_fit.
    rewrite V.
    fields.
    rewrite L, T1, T2.
    fields.
    rewrite T3, T4.
    fields.
    rewrite T5. reflexivity.
Qed.

(** *** Ranking *)

Lemma map_nth_seq {A : Type} (d : A) (a : list A) :
  map (fun i => nth i a d) (seq 0 (length a)) = a.
Proof.
  apply nth_ext with (d := d) (d' := d).
  - rewrite length_map, length_seq. reflexivity.
  - intros i Hi. rewrite length_map, length_seq in Hi.
    rewrite (nth_indep _ d (nth 0 a d)) by (rewrite length_map, length_seq; exact Hi).
    rewrite (map_nth (fun i => nth i a d) (seq 0 (length a)) 0 i).
    rewrite seq_nth by exact Hi. reflexivity.
Qed.

Lemma take_idx_by_permutation {A : Type} (d : A) (a : list A) idx :
  Permutation idx (seq 0 (length a)) ->
  take_idx a idx = Ok (map (fun i => nth i a d) idx) /\
  Permutation (map (fun i => nth i a d) idx) a.
Proof.
  intros P. split.
  - apply (take_idx_spec d). split; auto.
    apply Forall_forall. intros i Hi.
    apply (Permutation_in _ P) in Hi. apply in_seq in Hi. lia.
  - eapply perm_trans; [apply Permutation_map; exact P|].
    rewrite map_nth_seq. reflexivity.
Qed.

Lemma scatter_from_spec clusters : forall mapping v mapping',
  scatter_from mapping clusters v = Ok mapping' ->
  NoDup clusters ->
  length mapping' = length mapping /\
  (forall r c, nth_error clusters r = Some c -> nth_error mapping' c = Some (v + r)) /\
  (forall c, ~ In c clusters -> nth_error mapping' c = nth_error mapping c).
Proof.
  induction clusters as [|c0 cl IH]; intros mapping v mapping'; simpl.
  - intros H _. injection H as <-. repeat split; auto.
    intros [|r] c; discriminate.
  - destruct (c0 <? length mapping) eqn:E; [|discriminate].
    apply Nat.ltb_lt in E. intros H N. inv N.
    destruct (IH _ _ _ H H3) as (L & R & U).
    rewrite set_nth_length in L.
    refine (conj L (conj _ _)).
    + intros [|r] c Hc; simpl in Hc.
      * injection Hc as <-. rewrite (U _ H2), Nat.add_0_r.
        apply nth_error_set_nth_eq. exact E.
      * rewrite (R _ _ Hc). f_equal. lia.
    + intros c Hc. rewrite U by tauto.
      apply nth_error_set_nth_neq. intros ->. apply Hc. left; reflexivity.
Qed.

Lemma np_asc_fneg_desc a b : np_asc (fneg a) (fneg b) -> np_desc a b.
Proof.
  unfold np_asc, np_desc. destruct a as [x|], b as [z|]; simpl; auto.
  - intros H. apply Qle_bool_iff in H. apply Qopp_le_compat in H.
    rewrite !Qopp_involutive in H. exact H.
  - discriminate.
Qed.

Lemma np_desc_refl a : np_desc a a.
Proof.
  destruct a; simpl; auto. apply Qle_refl.
Qed.

Lemma sorted_neg_desc (l : list npfloat) :
  StronglySorted np_asc (map fneg l) -> StronglySorted np_desc l.
Proof.
  induction l as [|a r IH]; simpl; intros H; [constructor|].
  inv H. constructor; auto.
  rewrite Forall_map in H3. eapply Forall_impl; [|exact H3].
  intros b. apply np_asc_fneg_desc.
Qed.

Lemma sorted_head_max (l : list npfloat) :
  StronglySorted np_desc l ->
  forall r s, nth_error l r = Some s -> np_desc (nth 0 l NaN) s.
Proof.
  intros H r s Hr. destruct l as [|a t]; [destruct r; discriminate|].
  simpl. destruct r as [|r]; simpl in Hr.
  - injection Hr as <-. apply np_desc_refl.
  - inv H. rewrite Forall_forall in H3. apply H3.
    eapply nth_error_In; eauto.
Qed.

Hypothesis argsort_perm : argsort_permutes np_argsort.

(** After a successful [fit]: the state the loop ended in satisfies the
    partition property, and the ranking is a permutation. *)
Lemma fit_stages_facts X y e st clusters scores labels centroids :
  fit_stages' X y e st clusters scores labels centroids ->
  let n := fs_n_clusters st in
  let idx := np_argsort (map fneg (all_scores st)) in
  partitions (length X) st /\
  Permutation idx (seq 0 n) /\
  clusters = map (fun i => nth i (all_clusters st) 0) idx /\
  scores = map (fun i => nth i (all_scores st) NaN) idx /\
  Permutation clusters (seq 0 n) /\
  length scores = n /\
  length labels = length X /\
  (forall i c, nth_error (fs_labels st) i = Some c ->
     exists r, nth_error clusters r = Some c /\ nth_error labels i = Some r).
Proof.
  intros (V & L & T1 & T2 & (mapping & T3 & T4) & T5) n idx.
  assert (Ip : partitions (length X) st)
    by (eapply fit_loop_partitions; [apply partitions_init|exact L]).
  destruct Ip as (I1 & I2 & I3 & I4 & I5).
  assert (Ln : length (all_clusters st) = n).
  { rewrite (Permutation_length I2). apply length_seq. }
  assert (Pi : Permutation idx (seq 0 n)).
  { unfold idx. eapply perm_trans; [apply argsort_perm|].
    rewrite length_map, I4, Ln. reflexivity. }
  assert (Pc : Permutation idx (seq 0 (length (all_clusters st))))
    by (rewrite Ln; exact Pi).
  assert (Ps : Permutation idx (seq 0 (length (all_scores st))))
    by (rewrite I4, Ln; exact Pi).
  destruct (take_idx_by_permutation 0 _ _ Pc) as [E1 P1].
  destruct (take_idx_by_permutation NaN _ _ Ps) as [E2 P2].
  fold idx in T1, T2. rewrite E1 in T1. rewrite E2 in T2.
  injection T1 as <-. injection T2 as <-.
  assert (Pr : Permutation (map (fun i => nth i (all_clusters st) 0) idx) (seq 0 n)).
  { eapply perm_trans; [exact P1|exact I2]. }
  assert (Lc : length (map (fun i => nth i (all_clusters st) 0) idx) = n).
  { rewrite (Permutation_length Pr). apply length_seq. }
  unfold scatter_arange in T3. rewrite Lc, Nat.eqb_refl in T3.
  assert (Nr : NoDup (map (fun i => nth i (all_clusters st) 0) idx)).
  { eapply Permutation_NoDup; [symmetry; exact Pr|apply seq_NoDup]. }
  destruct (scatter_from_spec _ _ _ _ T3 Nr) as (Lm & R & _).
  refine (conj (conj I1 (conj I2 (conj I3 (conj I4 I5))))
            (conj Pi (conj eq_refl (conj eq_refl (conj Pr (conj _ (conj _ _))))))).
  - rewrite length_map, (Permutation_length Pi). apply length_seq.
  - rewrite (take_idx_length _ _ _ T4). exact I1.
  - intros i c Hc.
    assert (Hin : In c (map (fun i => nth i (all_clusters st) 0) idx)).
    { eapply Permutation_in; [symmetry; exact P1|].
      rewrite Forall_forall in I3. apply I3. eapply nth_error_In; eauto. }
    apply In_nth_error in Hin as [r Hr]. exists r. split; auto.
    apply (take_idx_spec 0) in T4 as [_ ->].
    rewrite nth_error_map, Hc. simpl. f_equal.
    apply nth_error_nth. rewrite (R _ _ Hr). reflexivity.
Qed.

Lemma validate_X_ok X :
  validate_X X = Ok tt ->
  1 <= length X /\ 1 <= n_features X /\
  Forall (fun row => length row = n_features X) X.
Proof.
  unfold validate_X, n_features. destruct X as [|row r]; [discriminate|].
  destruct (_ && _) eqn:E; [|discriminate]. intros _.
  apply andb_true_iff in E as [E1 E2]. apply Nat.leb_le in E1.
  rewrite forallb_forall in E2. simpl hd.
  refine (conj _ (conj E1 _)); [simpl; lia|].
  apply Forall_forall. intros x Hx. apply Nat.eqb_eq. apply E2. exact Hx.
Qed.

Lemma validate_Xy_ok X y :
  validate_Xy X y = Ok tt -> validate_X X = Ok tt /\ length y = length X.
Proof.
  unfold validate_Xy. destruct (validate_X X) as [[]|]; simpl; [|discriminate].
  destruct (length y =? length X) eqn:E; [|discriminate].
  apply Nat.eqb_eq in E. auto.
Qed.

Lemma finite_scores_init n : finite_scores (init_state n).
Proof.
  unfold finite_scores, all_scores; simpl. constructor; auto.
Qed.

(** C4. After a successful [fit], [scores_] is in descending order (NaN,
    which only a minimum size below one can produce, comes last) and the
    labels are remapped by rank: [ranked] lists the labels of the loop by
    rank, a cluster of rank [r] has its score at [scores_[r]], and every
    point whose label in the loop was the cluster of rank [r] has the
    final label [r].  The score of label 0 is the greatest. *)
Theorem fit_ranks_clusters_by_score X y e e' :
  argsort_sorts np_argsort ->
  fit' X y e = (e', Ok tt) ->
  exists st ranked scores labels,
    loop_of X y e = (st, None) /\
    n_clusters_ e' = Some (fs_n_clusters st) /\
    scores_ e' = Some scores /\
    labels_ e' = Some labels /\
    StronglySorted np_desc scores /\
    ((1 <= min_cluster_size e)%Z -> Forall (fun s => is_fin s = true) scores) /\
    Permutation ranked (seq 0 (fs_n_clusters st)) /\
    length scores = fs_n_clusters st /\
    (forall r c, nth_error ranked r = Some c ->
       exists p, nth_error (all_clusters st) p = Some c /\
                 nth_error (all_scores st) p = nth_error scores r) /\
    length labels = length (fs_labels st) /\
    (forall i c, nth_error (fs_labels st) i = Some c ->
       exists r, nth_error ranked r = Some c /\ nth_error labels i = Some r) /\
    (forall r s, nth_error scores r = Some s -> np_desc (nth 0 scores NaN) s).
Proof.
  intros Hsort H. apply fit_ok_iff in H
    as (st & clusters & scores & labels & centroids & Hst & ->).
  pose proof (fit_stages_facts _ _ _ _ _ _ _ _ Hst)
    as (Ip & Pi & Ec & Es & Pr & Ls & Ll & Hm).
  destruct Hst as (V & L & _).
  apply validate_Xy_ok in V as [_ Ly].
  destruct Ip as (I1 & I2 & I3 & I4 & I5).
  assert (Sd : StronglySorted np_desc scores).
  { apply sorted_neg_desc. rewrite Es, map_map.
    specialize (Hsort (map fneg (all_scores st))).
    erewrite map_ext; [exact Hsort|].
    intros i. simpl. symmetry.
    apply (map_nth fneg (all_scores st) NaN i). }
  exists st, clusters, scores, labels.
  refine (conj L (conj eq_refl (conj eq_refl (conj eq_refl (conj Sd
            (conj _ (conj Pr (conj Ls (conj _ (conj _ (conj Hm _))))))))))).
  - intros Hm1.
    assert (F : finite_scores st).
    { eapply fit_loop_finite_scores; [exact Hm1|exact Ly|apply partitions_init
                                     |apply finite_scores_init|exact L]. }
    rewrite Es. apply Forall_forall. intros s Hs.
    apply in_map_iff in Hs as [i [<- Hi]].
    apply (Permutation_in _ Pi) in Hi. apply in_seq in Hi.
    unfold finite_scores in F. rewrite Forall_forall in F. apply F.
    apply nth_In. rewrite I4, (Permutation_length I2), length_seq. lia.
  - intros r c Hr. rewrite Ec in Hr. rewrite nth_error_map in Hr.
    destruct (nth_error (np_argsort (map fneg (all_scores st))) r)
      as [p|] eqn:Hp; [|discriminate].
    simpl in Hr. injection Hr as <-.
    assert (Bp : p < fs_n_clusters st).
    { apply nth_error_In in Hp. apply (Permutation_in _ Pi) in Hp.
      apply in_seq in Hp. lia. }
    exists p. split.
    + apply nth_error_nth'. rewrite (Permutation_length I2), length_seq. exact Bp.
    + rewrite Es, nth_error_map, Hp. simpl.
      apply nth_error_nth'.
      rewrite I4, (Permutation_length I2), length_seq. exact Bp.
  - rewrite Ll. symmetry. exact I1.
  - apply sorted_head_max. exact Sd.
Qed.

Lemma fit_stages_labels_bounded X y e st clusters scores labels centroids :
  fit_stages' X y e st clusters scores labels centroids ->
  Forall (fun l => l < fs_n_clusters st) labels.
Proof.
  intros Hst.
  pose proof (fit_stages_facts _ _ _ _ _ _ _ _ Hst)
    as (Ip & Pi & Ec & Es & Pr & Ls & Ll & Hmap).
  destruct Ip as (I1 & I2 & I3 & I4 & I5).
  assert (Lr : length clusters = fs_n_clusters st).
  { rewrite (Permutation_length Pr). apply length_seq. }
  apply Forall_forall. intros l Hl. apply In_nth_error in Hl as [i Hi].
  assert (Bi : i < length (fs_labels st)).
  { rewrite I1, <- Ll. apply nth_error_Some. congruence. }
  destruct (nth_error (fs_labels st) i) as [c|] eqn:Hc;
    [|apply nth_error_None in Hc; lia].
  destruct (Hmap _ _ Hc) as (r & Hr & Hlr).
  assert (l = r) by congruence. subst l.
  rewrite <- Lr. apply nth_error_Some. congruence.
Qed.

(** *** The partition *)

(** The states the loop goes through are those of its shorter runs. *)
Lemma fit_loop_add X y mcs n a : forall b st,
  fit_loop _split np_std X y mcs n (a + b) st =
  match fit_loop _split np_std X y mcs n a st with
  | (st', None) => fit_loop _split np_std X y mcs n b st'
  | (st', Some ex) => (st', Some ex)
  end.
Proof.
  induction a as [|a IH]; intros b st; simpl; [reflexivity|].
  destruct (fs_heap st) eqn:Eh.
  - destruct b; simpl; [reflexivity|]. rewrite Eh. reflexivity.
  - destruct (step _split np_std X y mcs n st) as [st1|ex]; [apply IH|reflexivity].
Qed.

(** C5 (with the minimum size of one that the nonempty groups need).
    After a successful [fit], [labels_] gives every one of the N points one
    label below [n_clusters_]; every state the loop goes through partitions
    the N points among the labels in use (finished or on the heap, none
    twice, the numbers below the current [n_clusters_]).  When
    [min_cluster_size >= 1], every label below [n_clusters_] is carried by
    some point, at the end and in every state of the loop: N points in
    exactly [n_clusters_] groups, none empty. *)
Theorem fit_labels_partition X y e e' :
  fit' X y e = (e', Ok tt) ->
  exists n labels,
    n_clusters_ e' = Some n /\
    labels_ e' = Some labels /\
    length labels = length X /\
    Forall (fun l => l < n) labels /\
    ((1 <= min_cluster_size e)%Z -> forall l, l < n -> In l labels) /\
    (forall turns st r,
        turns <= Z.to_nat (n_iter e) ->
        fit_loop _split np_std X y (min_cluster_size e) (length X) turns
          (init_state (length X)) = (st, r) ->
        partitions (length X) st /\ NoDup (all_clusters st) /\
        ((1 <= min_cluster_size e)%Z -> inhabited st)).
Proof.
  intros H. apply fit_ok_iff in H
    as (st & clusters & scores & labels & centroids & Hst & ->).
  pose proof (fit_stages_facts _ _ _ _ _ _ _ _ Hst)
    as (Ip & Pi & Ec & Es & Pr & Ls & Ll & Hmap).
  pose proof (fit_stages_labels_bounded _ _ _ _ _ _ _ _ Hst) as Fl.
  destruct Hst as (V & L & _).
  apply validate_Xy_ok in V as [V Ly]. apply validate_X_ok in V as (N1 & _).
  assert (Nr : NoDup clusters).
  { eapply Permutation_NoDup; [symmetry; exact Pr|apply seq_NoDup]. }
  exists (fs_n_clusters st), labels.
  refine (conj eq_refl (conj eq_refl (conj Ll (conj Fl (conj _ _))))).
  - intros Hm l Hl.
    assert (Ih : inhabited st).
    { eapply fit_loop_inhabited;
        [exact Hm|apply inhabited_init; exact N1|exact L]. }
    assert (Lr : length clusters = fs_n_clusters st).
    { rewrite (Permutation_length Pr). apply length_seq. }
    destruct (nth_error clusters l) as [c|] eqn:Hc;
      [|apply nth_error_None in Hc; lia].
    assert (Bc : c < fs_n_clusters st).
    { apply nth_error_In in Hc. apply (Permutation_in _ Pr) in Hc.
      apply in_seq in Hc. lia. }
    destruct (In_nth_error _ _ (Ih _ Bc)) as [i Hi].
    destruct (Hmap _ _ Hi) as (r & Hr & Hlr).
    assert (r = l).
    { apply (proj1 (NoDup_nth_error clusters) Nr).
      - apply nth_error_Some. congruence.
      - congruence. }
    subst r. eapply nth_error_In; eauto.
  - intros turns st1 r _ L1.
    assert (P1 : partitions (length X) st1)
      by (eapply fit_loop_partitions; [apply partitions_init|exact L1]).
    refine (conj P1 (conj _ _)).
    + destruct P1 as (_ & P2 & _).
      eapply Permutation_NoDup; [symmetry; exact P2|apply seq_NoDup].
    + intros Hm. eapply fit_loop_inhabited;
        [exact Hm|apply inhabited_init; exact N1|exact L1].
Qed.

(** *** The number of clusters *)

Lemma list_max_repeat_0 n : list_max (repeat 0 n) = 0.
Proof.
  induction n; simpl; auto.
Qed.

Lemma np_unique_repeat_0 n : 1 <= n -> np_unique (repeat 0 n) = [0].
Proof.
  intros H. destruct n as [|n]; [lia|].
  unfold np_unique. change (repeat 0 (S n)) with (0 :: repeat 0 n).
  change (list_max (0 :: repeat 0 n)) with (Nat.max 0 (list_max (repeat 0 n))).
  rewrite list_max_repeat_0. reflexivity.
Qed.

Lemma select_all_true {A : Type} (X : list A) :
  select (map (fun l => l =? 0) (repeat 0 (length X))) X = X.
Proof.
  induction X as [|x r IH]; simpl; [reflexivity|]. rewrite IH. reflexivity.
Qed.

(** C6. After a successful [fit] with [n_iter >= 0], [n_clusters_] is at
    most [n_iter + 1]; and with [n_iter = 0], [fit] on validated data
    returns with one cluster, every point labelled 0, the single score 0
    and a centroid table of one column (the mean of all the rows). *)
Theorem n_clusters_at_most_n_iter_plus_one X y e :
  (0 <= n_iter e)%Z ->
  (forall e', fit' X y e = (e', Ok tt) ->
     exists n, n_clusters_ e' = Some n /\ (Z.of_nat n <= n_iter e + 1)%Z) /\
  (n_iter e = 0%Z -> validate_Xy X y = Ok tt ->
     fit' X y e =
       (fitted e 1 [Fin 0%Q] (repeat 0 (length X))
          [np_mean_axis0 (n_features X) X], Ok tt)).
Proof.
  intros Hn. split.
  - intros e' H. apply fit_ok_iff in H
      as (st & clusters & scores & labels & centroids & Hst & ->).
    destruct Hst as (_ & L & _).
    apply fit_loop_n_clusters in L. simpl in L.
    exists (fs_n_clusters st). split; [reflexivity|]. lia.
  - intros H0 V. apply fit_ok_iff.
    exists (init_state (length X)), [0], [Fin 0%Q], (repeat 0 (length X)),
      [np_mean_axis0 (n_features X) X].
    split; [|reflexivity].
    assert (Ea : np_argsort (map fneg (all_scores (init_state (length X)))) = [0]).
    { apply Permutation_length_1_inv. symmetry.
      apply (argsort_perm (map fneg (all_scores (init_state (length X))))). }
    unfold fit_stages. rewrite Ea, H0.
    refine (conj V (conj eq_refl (conj eq_refl (conj eq_refl (conj _ _))))).
    + exists [0]. split; [reflexivity|].
      apply (take_idx_spec 0). split.
      * apply Forall_forall. intros i Hi. apply repeat_spec in Hi. subst.
        simpl. lia.
      * rewrite <- (map_id (repeat 0 (length X))) at 1.
        apply map_ext_in. intros i Hi. apply repeat_spec in Hi. subst.
        reflexivity.
    + apply validate_Xy_ok in V as [V _]. apply validate_X_ok in V as (N1 & _).
      unfold calc_centroids. rewrite np_unique_repeat_0 by exact N1.
      simpl. unfold take_mask.
      rewrite length_map, repeat_length, Nat.eqb_refl. simpl.
      rewrite select_all_true. reflexivity.
Qed.

(** *** What [fit] checks and what it leaves in [self] *)

Lemma fit_invalid_data X y e ex :
  validate_Xy X y = Raise ex -> fit' X y e = (e, Raise ex).
Proof.
  intros V. unfold fit, mbind, lift. rewrite V. reflexivity.
Qed.

(** Once the data are validated [self.n_clusters_] is written, whatever
    happens next. *)
Lemma fit_sets_n_clusters X y e :
  validate_Xy X y = Ok tt ->
  n_clusters_ (fst (fit' X y e)) = Some (fs_n_clusters (fst (loop_of X y e))).
Proof.
  intros V.
  unfold_fit.
  rewrite V. fields.
  destruct (loop_of X y e) as [st [ex1|]]; [reflexivity|].
  destruct (take_idx (all_clusters st) _); [|reflexivity].
  destruct (take_idx (all_scores st) _); [|reflexivity].
  fields.
  destruct (scatter_arange _ _ _); [|reflexivity].
  destruct (take_idx _ (fs_labels st)); [|reflexivity].
  fields.
  destruct (calc_centroids _ _); reflexivity.
Qed.




(** *** [fit] returns *)

Lemma scatter_from_total clusters : forall mapping v,
  Forall (fun c => c < length mapping) clusters ->
  exists mapping', scatter_from mapping clusters v = Ok mapping'.
Proof.
  induction clusters as [|c r IH]; intros mapping v F; simpl; [eauto|].
  inversion F as [|? ? F1 F2]; subst.
  apply Nat.ltb_lt in F1. rewrite F1.
  apply IH. rewrite set_nth_length. exact F2.
Qed.

Lemma centroid_columns_total X labels d uniq :
  length labels = length X ->
  exists C, centroid_columns X labels d uniq = Ok C.
Proof.
  intros L. induction uniq as [|u r [C IH]]; simpl; [eauto|].
  unfold take_mask. rewrite length_map, L, Nat.eqb_refl. cbn [bind].
  rewrite IH. cbn [bind]. eauto.
Qed.

(** On validated data, with a split strategy that returns one label per
    row, [fit] returns: none of the exceptions of the embedding (a
    comparison with the key [None], an index out of range, arrays that do
    not match) is raised, whatever the configuration. *)
Lemma fit_returns X y e :
  one_label_per_row _split ->
  validate_Xy X y = Ok tt ->
  exists e', fit' X y e = (e', Ok tt).
Proof.
  intros Hs V.
  destruct (validate_Xy_ok _ _ V) as [_ Ly].
  destruct (fit_loop_total X y (min_cluster_size e) (length X)
              (Z.to_nat (n_iter e)) (init_state (length X)) Hs eq_refl Ly
              (partitions_init _) (heap_keyed_init _)) as [st L].
  assert (Ip : partitions (length X) st)
    by (eapply fit_loop_partitions; [apply partitions_init|exact L]).
  destruct Ip as (I1 & I2 & I3 & I4 & I5).
  set (n := fs_n_clusters st).
  set (idx := np_argsort (map fneg (all_scores st))).
  assert (Ln : length (all_clusters st) = n).
  { rewrite (Permutation_length I2). apply length_seq. }
  assert (Pi : Permutation idx (seq 0 n)).
  { unfold idx. eapply perm_trans; [apply argsort_perm|].
    rewrite length_map, I4, Ln. reflexivity. }
  assert (Pc : Permutation idx (seq 0 (length (all_clusters st))))
    by (rewrite Ln; exact Pi).
  assert (Ps : Permutation idx (seq 0 (length (all_scores st))))
    by (rewrite I4, Ln; exact Pi).
  destruct (take_idx_by_permutation 0 _ _ Pc) as [E1 P1].
  destruct (take_idx_by_permutation NaN _ _ Ps) as [E2 P2].
  set (clusters := map (fun i => nth i (all_clusters st) 0) idx) in *.
  assert (Pr : Permutation clusters (seq 0 n))
    by (eapply perm_trans; [exact P1|exact I2]).
  assert (Lc : length clusters = n).
  { rewrite (Permutation_length Pr). apply length_seq. }
  assert (Em : exists mapping,
             scatter_arange (repeat 0 n) clusters n = Ok mapping).
  { unfold scatter_arange. rewrite Lc, Nat.eqb_refl.
    apply scatter_from_total. rewrite repeat_length.
    apply Forall_forall. intros c Hc. apply (Permutation_in _ Pr) in Hc.
    apply in_seq in Hc. lia. }
  destruct Em as [mapping Em].
  assert (Lm : length mapping = n).
  { unfold scatter_arange in Em. rewrite Lc, Nat.eqb_refl in Em.
    assert (Nr : NoDup clusters)
      by (eapply Permutation_NoDup; [symmetry; exact Pr|apply seq_NoDup]).
    destruct (scatter_from_spec _ _ _ _ Em Nr) as (Lm & _).
    rewrite Lm. apply repeat_length. }
  assert (El : exists labels, take_idx mapping (fs_labels st) = Ok labels).
  { apply take_idx_total. rewrite Lm.
    eapply Forall_impl; [|exact I3]. intros l Hl.
    apply (Permutation_in _ I2) in Hl. apply in_seq in Hl. lia. }
  destruct El as [labels El].
  assert (Ll : length labels = length X).
  { rewrite (take_idx_length _ _ _ El). exact I1. }
  destruct (centroid_columns_total X labels (n_features X) (np_unique labels) Ll)
    as [centroids Ec].
  exists (fitted e n (map (fun i => nth i (all_scores st) NaN) idx) labels centroids).
  apply fit_ok_iff.
  exists st, clusters, (map (fun i => nth i (all_scores st) NaN) idx), labels,
    centroids.
  split; [|reflexivity].
  refine (conj V (conj L (conj E1 (conj E2 (conj _ Ec))))).
  exists mapping. split; [exact Em|exact El].
Qed.

(** C9 (as the code has it). [fit] validates [X] and [y] and nothing else:
    invalid data raise before anything is written to [self]; a minimum
    size of zero or less is not refused: the size test of lines 91-94 then
    holds for every split, and [fit] on valid data writes [n_clusters_]
    and, with a split strategy that returns one label per row, returns. *)
Theorem fit_validates_data_only X y e :
  (forall ex, validate_Xy X y = Raise ex -> fit' X y e = (e, Raise ex)) /\
  ((min_cluster_size e <= 0)%Z ->
   (forall v, sizes_ok (min_cluster_size e) v = true) /\
   (validate_Xy X y = Ok tt ->
    (exists n, n_clusters_ (fst (fit' X y e)) = Some n /\ 1 <= n) /\
    (one_label_per_row _split -> exists e', fit' X y e = (e', Ok tt)))).
Proof.
  split; [intros ex; apply fit_invalid_data|].
  intros Hm. split.
  - intros v. apply sizes_ok_iff. lia.
  - intros V. split; [|intros Hs; apply fit_returns; assumption].
    rewrite (fit_sets_n_clusters _ _ _ V).
    eexists. split; [reflexivity|].
    destruct (loop_of X y e) as [st r] eqn:L.
    apply fit_loop_n_clusters in L. simpl in *. lia.
Qed.


(** ** [calc_centroids] and [predict] *)

Lemma np_unique_In (labels : list nat) u :
  In u (np_unique labels) <-> In u labels.
Proof.
  unfold np_unique. destruct labels as [|l0 r]; [reflexivity|].
  rewrite filter_In, existsb_eqb_In, in_seq. split; [tauto|].
  intros H. split; auto. split; [lia|].
  pose proof (proj1 (list_max_le (l0 :: r) (list_max (l0 :: r))) (Nat.le_refl _)) as F.
  rewrite Forall_forall in F. specialize (F _ H). lia.
Qed.

Lemma np_unique_NoDup (labels : list nat) : NoDup (np_unique labels).
Proof.
  unfold np_unique. destruct labels; [constructor|].
  apply NoDup_filter, seq_NoDup.
Qed.

Lemma np_unique_length_le (labels : list nat) n :
  Forall (fun l => l < n) labels -> length (np_unique labels) <= n.
Proof.
  intros F.
  replace n with (length (seq 0 n)) at 1 by apply length_seq.
  apply NoDup_incl_length; [apply np_unique_NoDup|].
  intros u Hu. apply (proj1 (np_unique_In _ _)) in Hu.
  rewrite Forall_forall in F.
  apply in_seq. specialize (F _ Hu). lia.
Qed.

Lemma select_In {A : Type} (mask : list bool) (a : list A) i x :
  nth_error mask i = Some true -> nth_error a i = Some x -> In x (select mask a).
Proof.
  revert a i; induction mask as [|b m IH]; intros [|z r] [|i]; simpl;
    try discriminate.
  - intros Hb Hx. injection Hb as ->. injection Hx as ->. left; reflexivity.
  - intros Hb Hx. destruct b; [right|]; eapply IH; eauto.
Qed.

Lemma np_mean_axis0_fin d (rows : list (list Q)) :
  rows <> [] ->
  exists col, np_mean_axis0 d rows = map Fin col /\ length col = d.
Proof.
  intros N.
  exists (map (fun j => (Qsum (map (fun row => nth j row 0%Q) rows)
                         / inject_Z (Z.of_nat (length rows)))%Q) (seq 0 d)).
  split; [|rewrite length_map, length_seq; reflexivity].
  unfold np_mean_axis0. rewrite map_map. apply map_ext. intros j.
  destruct rows as [|r0 rs]; [congruence|].
  change (map (fun row => nth j row 0%Q) (r0 :: rs))
    with (nth j r0 0%Q :: map (fun row => nth j row 0%Q) rs).
  unfold np_mean. cbn [length]. rewrite length_map. reflexivity.
Qed.

Lemma centroid_columns_fin X labels d : forall uniq C,
  length labels = length X ->
  (forall u, In u uniq -> In u labels) ->
  centroid_columns X labels d uniq = Ok C ->
  exists cents, C = map (map Fin) cents /\
                Forall (fun c => length c = d) cents /\
                length cents = length uniq.
Proof.
  induction uniq as [|u r IH]; intros C L Hin; simpl.
  - intros H. injection H as <-. exists []. repeat split; constructor.
  - intros H. bind_inv H. rename a into X_label. bind_inv H. rename a into cs.
    injection H as <-.
    destruct (IH _ L (fun u' Hu' => Hin u' (or_intror Hu')) Ha0)
      as (cents & -> & F & Lc).
    assert (Nn : X_label <> []).
    { unfold take_mask in Ha. destruct (_ =? _); [|discriminate].
      injection Ha as <-.
      destruct (In_nth_error _ _ (Hin u (or_introl eq_refl))) as [i Hi].
      assert (Bi : i < length X).
      { rewrite <- L. apply nth_error_Some. congruence. }
      destruct (nth_error X i) as [row|] eqn:Hr;
        [|apply nth_error_None in Hr; lia].
      intros E.
      assert (In row (select (map (fun l => l =? u) labels) X)).
      { eapply select_In; [|exact Hr].
        rewrite nth_error_map, Hi. simpl. rewrite Nat.eqb_refl. reflexivity. }
      rewrite E in H. destruct H. }
    destruct (np_mean_axis0_fin d X_label Nn) as (col & -> & Lcol).
    exists (col :: cents). simpl. repeat split; auto.
Qed.








Lemma fit_stages_centroids X y e st clusters scores labels centroids :
  fit_stages' X y e st clusters scores labels centroids ->
  Forall (fun l => l < fs_n_clusters st) labels /\
  exists cents,
    centroids = map (map Fin) cents /\
    Forall (fun c => length c = n_features X) cents /\
    1 <= length cents <= fs_n_clusters st.
Proof.
  intros Hst.
  pose proof (fit_stages_facts _ _ _ _ _ _ _ _ Hst)
    as (Ip & Pi & Ec & Es & Pr & Ls & Ll & Hmap).
  pose proof Hst as (V & L & _ & _ & _ & T5).
  apply validate_Xy_ok in V as [V Ly]. apply validate_X_ok in V as (N1 & _).
  destruct Ip as (I1 & I2 & I3 & I4 & I5).
  pose proof (fit_stages_labels_bounded _ _ _ _ _ _ _ _ Hst) as Fl.
  split; [exact Fl|].
  unfold calc_centroids in T5.
  destruct (centroid_columns_fin _ _ _ _ _ Ll
              (fun u => proj1 (np_unique_In labels u)) T5)
    as (cents & -> & Fc & Lc).
  exists cents. refine (conj eq_refl (conj Fc _)).
  rewrite Lc. split; [|apply np_unique_length_le; exact Fl].
  destruct labels as [|l0 lr]; [simpl in Ll; lia|].
  assert (Hin : In l0 (np_unique (l0 :: lr)))
    by (apply np_unique_In; left; reflexivity).
  destruct (np_unique (l0 :: lr)); [destruct Hin|simpl; lia].
Qed.


(** *** [predict] before [fit] *)

Lemma fit_raise_keeps_centroids X y e ex :
  snd (fit' X y e) = Raise ex -> centroids_ (fst (fit' X y e)) = centroids_ e.
Proof.
  unfold_fit.
  destruct (validate_Xy X y) as [[]|]; [|reflexivity].
  fields.
  destruct (loop_of X y e) as [st [ex1|]]; [reflexivity|].
  destruct (take_idx (all_clusters st) _); [|reflexivity].
  destruct (take_idx (all_scores st) _); [|reflexivity].
  fields.
  destruct (scatter_arange _ _ _); [|reflexivity].
  destruct (take_idx _ (fs_labels st)); [|reflexivity].
  fields.
  destruct (calc_centroids _ _); [discriminate|reflexivity].
Qed.

Lemma never_fitted_no_centroids e :
  never_fitted _split np_std np_argsort e -> centroids_ e = None.
Proof.
  induction 1 as [|e X y ex _ IH Hr]; [reflexivity|].
  rewrite (fit_raise_keeps_centroids _ _ _ _ Hr). exact IH.
Qed.

Lemma validate_X_raises X ex : validate_X X = Raise ex -> ex = ValueError.
Proof.
  unfold validate_X. destruct X; [congruence|].
  destruct (_ && _); congruence.
Qed.

(** C8 (as the code has it). On an engine on which [fit] never returned,
    [predict] raises and leaves the engine as it was: ValueError when the
    samples do not pass the validation, and otherwise AttributeError, for
    the missing attribute [centroids_]. *)
Theorem predict_before_fit_raises X e :
  never_fitted _split np_std np_argsort e ->
  exists ex,
    predict X e = (e, Raise ex) /\
    (validate_X X = Ok tt -> ex = AttributeError) /\
    (validate_X X <> Ok tt -> ex = ValueError).
Proof.
  intros Hn. apply never_fitted_no_centroids in Hn.
  unfold predict, mbind, lift, get_attr. rewrite Hn.
  destruct (validate_X X) as [[]|ex] eqn:V.
  - exists AttributeError. repeat split; auto. congruence.
  - exists ex. apply validate_X_raises in V. subst.
    repeat split; auto. discriminate.
Qed.

(** ** More on [fit] *)

(** *** The best score is never negative *)

Lemma fge_fin_inv a b :
  fge a b = true -> exists x z, a = Fin x /\ b = Fin z /\ (z <= x)%Q.
Proof.
  destruct a as [x|], b as [z|]; simpl; try discriminate.
  intros H. apply Qle_bool_iff in H. eauto.
Qed.

Lemma pymax_cases a b : pymax a b = a \/ pymax a b = b.
Proof.
  unfold pymax. destruct (fgt b a); auto.
Qed.

Lemma step_keeps_nonneg_score X y mcs n st st' :
  Exists nonneg_score (all_scores st) ->
  step _split np_std X y mcs n st = Ok st' ->
  Exists nonneg_score (all_scores st').
Proof.
  unfold step. intros He H. bind_inv H. rename a into v.
  destruct (pop_split_facts _ _ _ Ha) as ([k P] & _).
  apply Exists_exists in He as (s & Hs & Hn).
  assert (Hs' : In s (fs_scores st) \/ s = sv_score v \/
                In s (map cand_score (sv_heap v))).
  { unfold all_scores in Hs. apply in_app_or in Hs as [Hs|Hs]; auto.
    apply (Permutation_in _ (Permutation_sym (Permutation_map cand_score P))) in Hs.
    simpl in Hs. destruct Hs as [<-|Hs]; auto. }
  apply decide_split_cases in H as [->|(_ & s0 & s1 & _ & _ & G & A)].
  - apply Exists_exists. exists s. split; [|exact Hn].
    unfold all_scores; simpl. rewrite <- app_assoc. apply in_or_app.
    destruct Hs' as [Hs'|[->|Hs']]; auto; right; simpl; auto.
  - apply accept_split_materialized in A as (_ & _ & (k0 & k1 & M3) & _ & M5).
    apply (Permutation_map cand_score) in M3. simpl in M3.
    apply Exists_exists. unfold all_scores. rewrite M5.
    destruct Hs' as [Hs'|[->|Hs']].
    + exists s. split; [apply in_or_app; auto|exact Hn].
    + apply fge_fin_inv in G as (x & z & Ex & Ez & Le).
      exists (pymax s0 s1). split.
      * apply in_or_app. right.
        apply (Permutation_in _ (Permutation_sym M3)).
        destruct (pymax_cases s0 s1) as [->| ->]; simpl; auto.
      * rewrite Ex. rewrite Ez in Hn. simpl in *.
        eapply Qle_trans; eauto.
    + exists s. split; [|exact Hn]. apply in_or_app. right.
      apply (Permutation_in _ (Permutation_sym M3)). simpl. auto.
Qed.

Lemma fit_loop_keeps_nonneg_score X y mcs n turns : forall st st' r,
  Exists nonneg_score (all_scores st) ->
  fit_loop _split np_std X y mcs n turns st = (st', r) ->
  Exists nonneg_score (all_scores st').
Proof.
  induction turns as [|t IH]; intros st st' r I; simpl.
  - intros H. injection H as <- _. exact I.
  - destruct (fs_heap st) eqn:Eh.
    + intros H. injection H as <- _. exact I.
    + destruct (step _split np_std X y mcs n st) as [st1|ex] eqn:Es.
      * apply IH. eapply step_keeps_nonneg_score; eauto.
      * intros H. injection H as <- _. exact I.
Qed.

(** X1.  After a successful [fit] the first entry of [scores_], the
    score of label 0, is a number and is zero or more: the whole dataset
    starts at score 0 and a split is only accepted when one of its sides
    scores at least as much as the cluster it splits. *)
Theorem top_score_is_nonnegative X y e e' :
  argsort_sorts np_argsort ->
  fit' X y e = (e', Ok tt) ->
  exists q rest, scores_ e' = Some (Fin q :: rest) /\ (0 <= q)%Q.
Proof.
  intros Hsort H. apply fit_ok_iff in H
    as (st & clusters & scores & labels & centroids & Hst & ->).
  pose proof (fit_stages_facts _ _ _ _ _ _ _ _ Hst)
    as (Ip & Pi & Ec & Es & Pr & Ls & Ll & Hm).
  destruct Hst as (V & L & _ & T2 & _).
  destruct Ip as (I1 & I2 & I3 & I4 & I5).
  assert (Ps : Permutation scores (all_scores st)).
  { rewrite Es. apply take_idx_by_permutation.
    rewrite I4, (Permutation_length I2), length_seq. exact Pi. }
  assert (Sd : StronglySorted np_desc scores).
  { apply sorted_neg_desc. rewrite Es, map_map.
    specialize (Hsort (map fneg (all_scores st))).
    erewrite map_ext; [exact Hsort|].
    intros i. simpl. symmetry.
    apply (map_nth fneg (all_scores st) NaN i). }
  assert (He : Exists nonneg_score scores).
  { apply Exists_exists.
    assert (E0 : Exists nonneg_score (all_scores st)).
    { eapply fit_loop_keeps_nonneg_score; [|exact L].
      unfold all_scores; simpl. left. simpl. apply Qle_refl. }
    apply Exists_exists in E0 as (s & Hs & Hn).
    exists s. split; [|exact Hn].
    apply (Permutation_in _ (Permutation_sym Ps)). exact Hs. }
  apply Exists_exists in He as (s & Hs & Hn).
  destruct scores as [|s0 rest]; [destruct Hs|].
  destruct s as [q|]; [|destruct Hn].
  assert (D : np_desc s0 (Fin q)).
  { destruct Hs as [->|Hs]; [apply np_desc_refl|].
    inversion Sd as [|? ? _ F]; subst. rewrite Forall_forall in F. auto. }
  destruct s0 as [q0|]; [|destruct D].
  exists q0, rest. split; [reflexivity|].
  simpl in D, Hn. eapply Qle_trans; eauto.
Qed.

(** *** A call of [fit] that raises *)

(** X2.  When [fit] raises, [centroids_] is what it was before the call
    (while [n_clusters_] may have been overwritten), so [predict] goes
    on answering as before: from the centroids of the last call of [fit]
    that returned, or with the same exception. *)
Theorem failed_fit_keeps_predict X y e ex X' :
  snd (fit' X y e) = Raise ex ->
  centroids_ (fst (fit' X y e)) = centroids_ e /\
  snd (predict X' (fst (fit' X y e))) = snd (predict X' e).
Proof.
  intros H. pose proof (fit_raise_keeps_centroids _ _ _ _ H) as E.
  split; [exact E|].
  unfold predict, mbind, lift, get_attr. rewrite E.
  destruct (validate_X X') as [[]|]; [|reflexivity].
  destruct (centroids_ e) as [c|]; [|reflexivity].
  destruct (distance_columns X' c); [|reflexivity].
  reflexivity.
Qed.

(** *** No more clusters than points *)

(** X3.  With [min_cluster_size >= 1] a successful [fit] never reports
    more clusters than there are points. *)
Theorem n_clusters_at_most_n_samples X y e e' :
  (1 <= min_cluster_size e)%Z ->
  fit _split np_std np_argsort X y e = (e', Ok tt) ->
  exists n, n_clusters_ e' = Some n /\ 1 <= n <= length X.
Proof.
  intros Hm H. apply fit_ok_iff in H
    as (st & clusters & scores & labels & centroids & Hst & ->).
  destruct Hst as (V & L & _).
  apply validate_Xy_ok in V as [V Ly]. apply validate_X_ok in V as (N1 & _).
  assert (Ip : partitions (length X) st)
    by (eapply fit_loop_partitions; [apply partitions_init|exact L]).
  assert (Ih : inhabited st).
  { eapply fit_loop_inhabited;
      [exact Hm|apply inhabited_init; exact N1|exact L]. }
  exists (fs_n_clusters st). split; [reflexivity|]. split.
  - apply fit_loop_n_clusters in L. simpl in L. lia.
  - destruct Ip as (I1 & _). rewrite <- I1.
    replace (fs_n_clusters st) with (length (seq 0 (fs_n_clusters st)))
      by apply length_seq.
    apply NoDup_incl_length; [apply seq_NoDup|].
    intros l Hl. apply in_seq in Hl. apply Ih. lia.
Qed.

(** *** The clustering is hierarchical *)

Lemma popped_label_bound X n st v :
  partitions n st -> pop_split _split X st = Ok v ->
  sv_label v < fs_n_clusters st.
Proof.
  intros (_ & I2 & _) Hp.
  destruct (pop_split_facts _ _ _ Hp) as ([k P] & _).
  assert (Hin : In (sv_label v) (all_clusters st)).
  { unfold all_clusters. apply in_or_app. right.
    apply (Permutation_in _ (Permutation_map cand_label P)). left. reflexivity. }
  apply (Permutation_in _ I2) in Hin. apply in_seq in Hin. lia.
Qed.

Lemma labels_bound n st i a :
  partitions n st -> nth_error (fs_labels st) i = Some a ->
  a < fs_n_clusters st.
Proof.
  intros (_ & I2 & I3 & _) H. rewrite Forall_forall in I3.
  apply nth_error_In in H. apply I3 in H.
  apply (Permutation_in _ I2) in H. apply in_seq in H. lia.
Qed.

Lemma step_refines X y mcs n st st' :
  partitions n st ->
  step _split np_std X y mcs n st = Ok st' -> refines st' st.
Proof.
  unfold step. intros Ip H. bind_inv H. rename a into v.
  apply decide_split_cases in H as [->|(_ & s0 & s1 & _ & _ & _ & A)].
  - intros i j a Hi Hj. exists a. auto.
  - destruct (pop_split_facts _ _ _ Ha) as (_ & _ & F1 & _).
    apply accept_split_materialized in A as (_ & M2 & _).
    intros i j a Hi Hj. rewrite M2 in Hi, Hj.
    destruct (existsb (Nat.eqb i) (sv_indices1 v)) eqn:Ei,
             (existsb (Nat.eqb j) (sv_indices1 v)) eqn:Ej.
    + apply existsb_eqb_In in Ei, Ej. exists (sv_label v). auto.
    + injection Hi as <-.
      pose proof (labels_bound _ _ _ _ Ip Hj). lia.
    + injection Hj as <-.
      pose proof (labels_bound _ _ _ _ Ip Hi). lia.
    + exists a. auto.
Qed.

Lemma refines_refl st : refines st st.
Proof.
  intros i j a Hi Hj. exists a. auto.
Qed.

Lemma refines_trans st3 st2 st1 :
  refines st3 st2 -> refines st2 st1 -> refines st3 st1.
Proof.
  intros R1 R2 i j a Hi Hj.
  destruct (R1 _ _ _ Hi Hj) as (b & Bi & Bj). eapply R2; eauto.
Qed.

Lemma fit_loop_refines X y mcs n turns : forall st st' r,
  partitions n st ->
  fit_loop _split np_std X y mcs n turns st = (st', r) -> refines st' st.
Proof.
  induction turns as [|t IH]; intros st st' r Ip; simpl.
  - intros H. injection H as <- _. apply refines_refl.
  - destruct (fs_heap st) eqn:Eh.
    + intros H. injection H as <- _. apply refines_refl.
    + destruct (step _split np_std X y mcs n st) as [st1|ex] eqn:Es.
      * intros H. eapply refines_trans.
        -- eapply IH; [|exact H]. eapply step_partitions; eauto.
        -- eapply step_refines; eauto.
      * intros H. injection H as <- _. apply refines_refl.
Qed.

(** The final labels and the labels of the loop put the same points
    together. *)
Lemma fit_stages_same_groups X y e st clusters scores labels centroids :
  fit_stages' X y e st clusters scores labels centroids ->
  forall i j,
    (exists a, nth_error labels i = Some a /\ nth_error labels j = Some a) <->
    (exists b, nth_error (fs_labels st) i = Some b /\
               nth_error (fs_labels st) j = Some b).
Proof.
  intros Hst i j.
  pose proof (fit_stages_facts _ _ _ _ _ _ _ _ Hst)
    as (Ip & Pi & Ec & Es & Pr & Ls & Ll & Hmap).
  destruct Ip as (I1 & _).
  assert (Nr : NoDup clusters).
  { eapply Permutation_NoDup; [symmetry; exact Pr|apply seq_NoDup]. }
  assert (Ex : forall k a, nth_error labels k = Some a ->
                           exists c, nth_error (fs_labels st) k = Some c /\
                                     nth_error clusters a = Some c).
  { intros k a Hk.
    assert (Bk : k < length (fs_labels st)).
    { rewrite I1, <- Ll. apply nth_error_Some. congruence. }
    destruct (nth_error (fs_labels st) k) as [c|] eqn:Hc;
      [|apply nth_error_None in Hc; lia].
    destruct (Hmap _ _ Hc) as (r & Hr & Hlr).
    exists c. split; [reflexivity|]. congruence. }
  split.
  - intros (a & Hi & Hj).
    destruct (Ex _ _ Hi) as (ci & Ci & Ri). destruct (Ex _ _ Hj) as (cj & Cj & Rj).
    exists ci. split; [exact Ci|]. congruence.
  - intros (b & Hi & Hj).
    destruct (Hmap _ _ Hi) as (ri & Ri & Li).
    destruct (Hmap _ _ Hj) as (rj & Rj & Lj).
    assert (ri = rj).
    { apply (proj1 (NoDup_nth_error clusters) Nr).
      - apply nth_error_Some. congruence.
      - congruence. }
    subst. eauto.
Qed.

(** X4.  The clusters of a longer run refine those of a shorter one: on
    the same data and with the same minimum size, two points that share
    a label after [fit] with the larger [n_iter] also share a label
    after [fit] with the smaller [n_iter]. *)
Theorem more_iterations_refine_clusters X y e1 e2 e1' e2' labels1 labels2 :
  min_cluster_size e1 = min_cluster_size e2 ->
  (n_iter e1 <= n_iter e2)%Z ->
  fit _split np_std np_argsort X y e1 = (e1', Ok tt) ->
  fit _split np_std np_argsort X y e2 = (e2', Ok tt) ->
  labels_ e1' = Some labels1 ->
  labels_ e2' = Some labels2 ->
  forall i j a,
    nth_error labels2 i = Some a -> nth_error labels2 j = Some a ->
    exists b, nth_error labels1 i = Some b /\ nth_error labels1 j = Some b.
Proof.
  intros Em Hn H1 H2 L1 L2 i j a Hi Hj.
  apply fit_ok_iff in H1 as (st1 & c1 & s1 & l1 & ce1 & Hst1 & ->).
  apply fit_ok_iff in H2 as (st2 & c2 & s2 & l2 & ce2 & Hst2 & ->).
  simpl in L1, L2. injection L1 as ->. injection L2 as ->.
  destruct (proj1 (fit_stages_same_groups _ _ _ _ _ _ _ _ Hst2 i j)
              (ex_intro _ a (conj Hi Hj))) as (b & Bi & Bj).
  apply (proj2 (fit_stages_same_groups _ _ _ _ _ _ _ _ Hst1 i j)).
  destruct Hst1 as (_ & Lp1 & _). destruct Hst2 as (_ & Lp2 & _).
  assert (R : refines st2 st1).
  { replace (Z.to_nat (n_iter e2))
      with (Z.to_nat (n_iter e1) + (Z.to_nat (n_iter e2) - Z.to_nat (n_iter e1)))
      in Lp2 by lia.
    rewrite fit_loop_add, <- Em, Lp1 in Lp2.
    eapply fit_loop_refines; [|exact Lp2].
    eapply fit_loop_partitions; [apply partitions_init|exact Lp1]. }
  eapply R; eauto.
Qed.

(** *** The minimum size is honoured *)

Lemma cluster_size_le labels labels' l l' :
  (forall p, nth_error labels p = Some l -> nth_error labels' p = Some l') ->
  cluster_size labels l <= cluster_size labels' l'.
Proof.
  intros H. unfold cluster_size.
  apply NoDup_incl_length; [apply np_nonzero_NoDup|].
  intros p Hp. apply positions_In. apply H. apply positions_In. exact Hp.
Qed.

Lemma side_size_le labels l idx :
  NoDup idx ->
  (forall p, In p idx -> nth_error labels p = Some l) ->
  length idx <= cluster_size labels l.
Proof.
  intros N H. unfold cluster_size.
  apply NoDup_incl_length; [exact N|].
  intros p Hp. apply positions_In. auto.
Qed.

Lemma step_sized X y mcs n st st' :
  partitions n st -> sized mcs st ->
  step _split np_std X y mcs n st = Ok st' -> sized mcs st'.
Proof.
  unfold step. intros Ip Hs H. bind_inv H. rename a into v.
  apply decide_split_cases in H as [->|(S & s0 & s1 & _ & _ & _ & A)].
  - exact Hs.
  - pose proof (popped_label_bound _ _ _ _ Ip Ha) as Bl.
    destruct (pop_split_facts _ _ _ Ha) as (_ & F0 & F1 & N0 & N1 & D).
    apply sizes_ok_iff in S as [S0 S1].
    apply accept_split_materialized in A as (M1 & M2 & _).
    right. intros l Hl. rewrite M1 in Hl.
    destruct (Nat.eq_dec l (fs_n_clusters st)) as [->|Nn].
    + assert (length (sv_indices1 v)
              <= cluster_size (fs_labels st') (fs_n_clusters st)); [|lia].
      apply side_size_le; [exact N1|].
      intros p Hp. rewrite M2.
      rewrite (proj2 (existsb_eqb_In p _) Hp). reflexivity.
    + destruct (Nat.eq_dec l (sv_label v)) as [->|Nl].
      * assert (length (sv_indices0 v)
                <= cluster_size (fs_labels st') (sv_label v)); [|lia].
        apply side_size_le; [exact N0|].
        intros p Hp. rewrite M2.
        destruct (existsb (Nat.eqb p) (sv_indices1 v)) eqn:Ex.
        -- apply existsb_eqb_In in Ex. destruct (D _ Hp Ex).
        -- apply F0. exact Hp.
      * destruct Hs as [E1|Hs]; [lia|].
        assert (cluster_size (fs_labels st) l <= cluster_size (fs_labels st') l).
        { apply cluster_size_le. intros p Hp. rewrite M2.
          destruct (existsb (Nat.eqb p) (sv_indices1 v)) eqn:Ex; [|exact Hp].
          apply existsb_eqb_In in Ex. apply F1 in Ex. congruence. }
        specialize (Hs l ltac:(lia)). lia.
Qed.

Lemma fit_loop_sized X y mcs n turns : forall st st' r,
  partitions n st -> sized mcs st ->
  fit_loop _split np_std X y mcs n turns st = (st', r) -> sized mcs st'.
Proof.
  induction turns as [|t IH]; intros st st' r Ip I; simpl.
  - intros H. injection H as <- _. exact I.
  - destruct (fs_heap st) eqn:Eh.
    + intros H. injection H as <- _. exact I.
    + destruct (step _split np_std X y mcs n st) as [st1|ex] eqn:Es.
      * apply IH.
        -- eapply step_partitions; eauto.
        -- eapply step_sized; eauto.
      * intros H. injection H as <- _. exact I.
Qed.

(** X5.  After a successful [fit] that found more than one cluster,
    every cluster has [min_cluster_size] points or more. *)
Theorem min_cluster_size_is_honoured X y e e' n labels :
  fit' X y e = (e', Ok tt) ->
  n_clusters_ e' = Some n ->
  labels_ e' = Some labels ->
  n <> 1 ->
  forall l, l < n ->
    (min_cluster_size e <= Z.of_nat (cluster_size labels l))%Z.
Proof.
  intros H En El Hn l Hl. apply fit_ok_iff in H
    as (st & clusters & scores & labels0 & centroids & Hst & ->).
  simpl in En, El. injection En as <-. injection El as ->.
  pose proof (fit_stages_facts _ _ _ _ _ _ _ _ Hst)
    as (Ip & Pi & Ec & Es & Pr & Ls & Ll & Hmap).
  destruct Hst as (V & L & _).
  assert (Hs : sized (min_cluster_size e) st).
  { eapply fit_loop_sized; [apply partitions_init| |exact L]. left. reflexivity. }
  destruct Hs as [E1|Hs]; [congruence|].
  assert (Nr : NoDup clusters).
  { eapply Permutation_NoDup; [symmetry; exact Pr|apply seq_NoDup]. }
  assert (Lr : length clusters = fs_n_clusters st).
  { rewrite (Permutation_length Pr). apply length_seq. }
  destruct (nth_error clusters l) as [c|] eqn:Hc;
    [|apply nth_error_None in Hc; lia].
  assert (Bc : c < fs_n_clusters st).
  { apply nth_error_In in Hc. apply (Permutation_in _ Pr) in Hc.
    apply in_seq in Hc. lia. }
  assert (cluster_size (fs_labels st) c <= cluster_size labels l).
  { apply cluster_size_le. intros p Hp.
    destruct (Hmap _ _ Hp) as (r & Hr & Hlr).
    assert (r = l).
    { apply (proj1 (NoDup_nth_error clusters) Nr).
      - apply nth_error_Some. congruence.
      - congruence. }
    subst. exact Hlr. }
  specialize (Hs c Bc). lia.
Qed.

(** *** The centroid table *)

Lemma fit_stages_labels_inhabited X y e st clusters scores labels centroids :
  (1 <= min_cluster_size e)%Z ->
  fit_stages' X y e st clusters scores labels centroids ->
  forall l, l < fs_n_clusters st -> In l labels.
Proof.
  intros Hm Hst l Hl.
  pose proof (fit_stages_facts _ _ _ _ _ _ _ _ Hst)
    as (Ip & Pi & Ec & Es & Pr & Ls & Ll & Hmap).
  destruct Hst as (V & L & _).
  apply validate_Xy_ok in V as [V Ly]. apply validate_X_ok in V as (N1 & _).
  assert (Ih : inhabited st).
  { eapply fit_loop_inhabited;
      [exact Hm|apply inhabited_init; exact N1|exact L]. }
  assert (Nr : NoDup clusters).
  { eapply Permutation_NoDup; [symmetry; exact Pr|apply seq_NoDup]. }
  assert (Lr : length clusters = fs_n_clusters st).
  { rewrite (Permutation_length Pr). apply length_seq. }
  destruct (nth_error clusters l) as [c|] eqn:Hc;
    [|apply nth_error_None in Hc; lia].
  assert (Bc : c < fs_n_clusters st).
  { apply nth_error_In in Hc. apply (Permutation_in _ Pr) in Hc.
    apply in_seq in Hc. lia. }
  destruct (In_nth_error _ _ (Ih _ Bc)) as [i Hi].
  destruct (Hmap _ _ Hi) as (r & Hr & Hlr).
  assert (r = l).
  { apply (proj1 (NoDup_nth_error clusters) Nr).
    - apply nth_error_Some. congruence.
    - congruence. }
  subst r. eapply nth_error_In; eauto.
Qed.

Lemma centroid_columns_spec X labels d : forall uniq C,
  centroid_columns X labels d uniq = Ok C ->
  C = map (fun u => np_mean_axis0 d (rows_of X labels u)) uniq.
Proof.
  induction uniq as [|u r IH]; intros C; simpl.
  - intros H. injection H as <-. reflexivity.
  - intros H. bind_inv H. bind_inv H. injection H as <-.
    unfold take_mask in Ha. destruct (_ =? _); [|discriminate].
    injection Ha as <-. rewrite (IH _ Ha0). reflexivity.
Qed.

Lemma filter_all {A : Type} (f : A -> bool) (l : list A) :
  (forall x, In x l -> f x = true) -> filter f l = l.
Proof.
  induction l as [|x r IH]; intros H; simpl; [reflexivity|].
  rewrite (H x (or_introl eq_refl)). f_equal. apply IH.
  intros z Hz. apply H. right. exact Hz.
Qed.

Lemma np_unique_full labels n :
  1 <= n ->
  Forall (fun l => l < n) labels ->
  (forall l, l < n -> In l labels) ->
  np_unique labels = seq 0 n.
Proof.
  intros Hn F I. unfold np_unique.
  destruct labels as [|l0 r]; [destruct (I 0 ltac:(lia))|].
  assert (M : list_max (l0 :: r) = n - 1).
  { apply Nat.le_antisymm.
    - apply list_max_le. eapply Forall_impl; [|exact F]. simpl. intros; lia.
    - pose proof (proj1 (list_max_le (l0 :: r) (list_max (l0 :: r)))
                    (Nat.le_refl _)) as G.
      rewrite Forall_forall in G. apply G. apply I. lia. }
  rewrite M. replace (S (n - 1)) with n by lia.
  apply filter_all. intros x Hx. apply in_seq in Hx.
  apply existsb_eqb_In. apply I. lia.
Qed.

(** X6.  With [min_cluster_size >= 1], after a successful [fit] the
    centroid table has one column per label, [n_clusters_] columns in
    all, and the column of label [l] is the mean, feature by feature, of
    the rows of [X] that [labels_] gives label [l]; every entry is a
    number. *)
Theorem centroids_are_cluster_means X y e e' :
  (1 <= min_cluster_size e)%Z ->
  fit' X y e = (e', Ok tt) ->
  exists n labels cents,
    n_clusters_ e' = Some n /\
    labels_ e' = Some labels /\
    centroids_ e' =
      Some (map (fun l => np_mean_axis0 (n_features X) (rows_of X labels l))
                (seq 0 n)) /\
    centroids_ e' = Some (map (map Fin) cents) /\
    length cents = n /\
    Forall (fun c => length c = n_features X) cents.
Proof.
  intros Hm H.
  apply fit_ok_iff in H
    as (st & clusters & scores & labels & centroids & Hst & ->).
  pose proof (fit_stages_labels_inhabited _ _ _ _ _ _ _ _ Hm Hst) as Il.
  destruct (fit_stages_centroids _ _ _ _ _ _ _ _ Hst)
    as (Fl & cents & Ec & Fc & B1 & B2).
  destruct Hst as (_ & _ & _ & _ & _ & T5).
  unfold calc_centroids in T5.
  assert (Eu : np_unique labels = seq 0 (fs_n_clusters st)).
  { apply np_unique_full; auto. lia. }
  rewrite Eu in T5. apply centroid_columns_spec in T5.
  exists (fs_n_clusters st), labels, cents.
  refine (conj eq_refl (conj eq_refl (conj _ (conj _ (conj _ Fc))))).
  - simpl. rewrite T5. reflexivity.
  - simpl. rewrite Ec. reflexivity.
  - assert (length centroids = fs_n_clusters st)
      by (rewrite T5, length_map, length_seq; reflexivity).
    rewrite Ec, length_map in H. exact H.
Qed.

(** *** [predict] and the number of features *)

Lemma fit_centroids X y e0 e :
  fit' X y e0 = (e, Ok tt) ->
  exists n cents,
    n_clusters_ e = Some n /\
    centroids_ e = Some (map (map Fin) cents) /\
    Forall (fun c => length c = n_features X) cents /\
    1 <= length cents <= n.
Proof.
  intros H. apply fit_ok_iff in H
    as (st & clusters & scores & labels & centroids & Hst & ->).
  destruct (fit_stages_centroids _ _ _ _ _ _ _ _ Hst)
    as (_ & cents & -> & Fc & B).
  exists (fs_n_clusters st), cents. auto.
Qed.

(** X7.  [predict] never compares the number of features of the samples
    with that of the data of [fit]: when the two differ and neither is
    one, the subtraction of line 163 cannot be broadcast and [predict]
    raises ValueError, leaving the engine as it was. *)
Theorem predict_rejects_other_feature_counts X y e0 e X' :
  fit' X y e0 = (e, Ok tt) ->
  validate_X X' = Ok tt ->
  n_features X' <> n_features X ->
  n_features X' <> 1 ->
  n_features X <> 1 ->
  predict X' e = (e, Raise ValueError).
Proof.
  intros H V' D D1 D2.
  destruct (fit_centroids _ _ _ _ H) as (n & cents & _ & Ec & Fc & B & _).
  unfold predict, mbind, lift, get_attr. rewrite V', Ec.
  destruct cents as [|c cs]; [simpl in B; lia|].
  inversion Fc as [|? ? Lc _]; subst.
  destruct X' as [|row r]; [discriminate|].
  unfold n_features in *. simpl in D, D1.
  simpl. unfold broadcast_sub. rewrite length_map.
  destruct (Nat.eqb_spec (length row) (length c)) as [E|_]; [congruence|].
  destruct (Nat.eqb_spec (length c) 1) as [E|_]; [congruence|].
  destruct (Nat.eqb_spec (length row) 1) as [E|_]; [congruence|].
  reflexivity.
Qed.






(** *** When more iterations change nothing *)

Lemma step_progress X y mcs n st st' :
  step _split np_std X y mcs n st = Ok st' ->
  fs_n_clusters st' + length (fs_clusters st')
  = fs_n_clusters st + length (fs_clusters st) + 1.
Proof.
  unfold step. intros H. bind_inv H. rename a into v.
  apply decide_split_cases in H as [->|(_ & s0 & s1 & _ & _ & _ & A)].
  - simpl. rewrite length_app. simpl. lia.
  - apply accept_split_materialized in A as (M1 & _ & _ & M4 & _).
    rewrite M1, M4. lia.
Qed.

Lemma fit_loop_progress X y mcs n turns : forall st st',
  fit_loop _split np_std X y mcs n turns st = (st', None) ->
  fs_heap st' = [] \/
  fs_n_clusters st' + length (fs_clusters st')
  = fs_n_clusters st + length (fs_clusters st) + turns.
Proof.
  induction turns as [|t IH]; intros st st'; simpl.
  - intros H. injection H as <-. right. lia.
  - destruct (fs_heap st) eqn:Eh.
    + intros H. injection H as <-. left. exact Eh.
    + destruct (step _split np_std X y mcs n st) as [st1|ex] eqn:Es;
        [|discriminate].
      intros H. apply IH in H as [H|H]; [left; exact H|].
      right. apply step_progress in Es. lia.
Qed.

Lemma fit_loop_empty_heap X y mcs n turns st :
  fs_heap st = [] ->
  fit_loop _split np_std X y mcs n turns st = (st, None).
Proof.
  intros E. destruct turns; simpl; [reflexivity|]. rewrite E. reflexivity.
Qed.

(** With a minimum size of one or more, the heap is empty after
    [2 * n_samples - 1] turns: every cluster is finished. *)
Lemma fit_loop_exhausts X y mcs turns st :
  (1 <= mcs)%Z -> 1 <= length X ->
  2 * length X - 1 <= turns ->
  fit_loop _split np_std X y mcs (length X) turns (init_state (length X))
    = (st, None) ->
  fs_heap st = [].
Proof.
  intros Hm N1 Ht L.
  assert (Ip : partitions (length X) st)
    by (eapply fit_loop_partitions; [apply partitions_init|exact L]).
  assert (Ih : inhabited st).
  { eapply fit_loop_inhabited;
      [exact Hm|apply inhabited_init; exact N1|exact L]. }
  destruct (fit_loop_progress _ _ _ _ _ _ _ L) as [E|E]; [exact E|].
  simpl in E.
  destruct Ip as (I1 & I2 & _).
  assert (Bn : fs_n_clusters st <= length X).
  { rewrite <- I1.
    replace (fs_n_clusters st) with (length (seq 0 (fs_n_clusters st)))
      by apply length_seq.
    apply NoDup_incl_length; [apply seq_NoDup|].
    intros l Hl. apply in_seq in Hl. apply Ih. lia. }
  apply Permutation_length in I2. rewrite length_seq in I2.
  unfold all_clusters in I2. rewrite length_app, length_map in I2.
  destruct (fs_heap st) as [|c h]; [reflexivity|]. simpl in I2. lia.
Qed.

(** X9.  With [min_cluster_size >= 1], once [n_iter] is [2 * n_samples -
    1] or more, it has no influence: a successful [fit] has finished
    every cluster, and [fit] with any other [n_iter] that large returns
    the same [n_clusters_], [scores_], [labels_] and [centroids_]. *)
Theorem n_iter_saturates X y e1 e2 e1' :
  (1 <= min_cluster_size e1)%Z ->
  min_cluster_size e1 = min_cluster_size e2 ->
  (2 * Z.of_nat (length X) - 1 <= n_iter e1)%Z ->
  (2 * Z.of_nat (length X) - 1 <= n_iter e2)%Z ->
  fit _split np_std np_argsort X y e1 = (e1', Ok tt) ->
  exists e2',
    fit _split np_std np_argsort X y e2 = (e2', Ok tt) /\
    n_clusters_ e2' = n_clusters_ e1' /\
    scores_ e2' = scores_ e1' /\
    labels_ e2' = labels_ e1' /\
    centroids_ e2' = centroids_ e1'.
Proof.
  intros Hm Em H1 H2 H. apply fit_ok_iff in H
    as (st & clusters & scores & labels & centroids & Hst & ->).
  destruct Hst as (V & L & T).
  destruct (validate_Xy_ok _ _ V) as [Vx _].
  apply validate_X_ok in Vx as (N1 & _).
  set (m := 2 * length X - 1).
  assert (S1 : Z.to_nat (n_iter e1) = m + (Z.to_nat (n_iter e1) - m))
    by (unfold m; lia).
  assert (S2 : Z.to_nat (n_iter e2) = m + (Z.to_nat (n_iter e2) - m))
    by (unfold m; lia).
  rewrite S1, fit_loop_add in L.
  destruct (fit_loop _split np_std X y (min_cluster_size e1) (length X) m
              (init_state (length X))) as [sm [ex|]] eqn:Lm; [discriminate|].
  assert (Eh : fs_heap sm = []).
  { eapply fit_loop_exhausts; [exact Hm|exact N1| |exact Lm]. unfold m. lia. }
  rewrite fit_loop_empty_heap in L by exact Eh. injection L as <-.
  exists (fitted e2 (fs_n_clusters sm) scores labels centroids).
  split; [|repeat split].
  apply fit_ok_iff. exists sm, clusters, scores, labels, centroids.
  split; [|reflexivity].
  unfold fit_stages. refine (conj V (conj _ T)).
  rewrite S2, fit_loop_add, <- Em, Lm.
  apply fit_loop_empty_heap. exact Eh.
Qed.

(** *** What the scores are *)

Lemma filter_StronglySorted {A : Type} (R : A -> A -> Prop) (f : A -> bool) l :
  StronglySorted R l -> StronglySorted R (filter f l).
Proof.
  induction 1 as [|a r S IH F]; simpl; [constructor|].
  destruct (f a); [|exact IH].
  constructor; [exact IH|].
  apply Forall_forall. intros x Hx. apply filter_In in Hx as [Hx _].
  rewrite Forall_forall in F. auto.
Qed.

Lemma seq_ascending n : forall a, StronglySorted lt (seq a n).
Proof.
  induction n as [|n IH]; intros a; simpl; constructor; [apply IH|].
  apply Forall_forall. intros x Hx. apply in_seq in Hx. lia.
Qed.

Lemma np_nonzero_ascending mask : StronglySorted lt (np_nonzero mask).
Proof.
  rewrite np_nonzero_filter. apply filter_StronglySorted, seq_ascending.
Qed.

Lemma ascending_ext (l1 : list nat) : forall l2,
  StronglySorted lt l1 -> StronglySorted lt l2 ->
  (forall x, In x l1 <-> In x l2) -> l1 = l2.
Proof.
  induction l1 as [|a r1 IH]; intros [|b r2] S1 S2 H.
  - reflexivity.
  - destruct (proj2 (H b) (or_introl eq_refl)).
  - destruct (proj1 (H a) (or_introl eq_refl)).
  - inversion S1 as [|? ? S1' F1]; subst. inversion S2 as [|? ? S2' F2]; subst.
    rewrite Forall_forall in F1, F2.
    assert (a = b).
    { destruct (proj1 (H a) (or_introl eq_refl)) as [E|Ha]; [auto|].
      destruct (proj2 (H b) (or_introl eq_refl)) as [E|Hb]; [auto|].
      pose proof (F2 _ Ha). pose proof (F1 _ Hb). lia. }
    subst b. f_equal. apply IH; auto.
    intros x. split; intros Hx.
    + destruct (proj1 (H x) (or_intror Hx)) as [E|Hx']; [|exact Hx'].
      pose proof (F1 _ Hx). lia.
    + destruct (proj2 (H x) (or_intror Hx)) as [E|Hx']; [|exact Hx'].
      pose proof (F2 _ Hx). lia.
Qed.

Lemma ascending_nth_lt (l : list nat) : forall i j,
  StronglySorted lt l -> i < j -> j < length l -> nth i l 0 < nth j l 0.
Proof.
  induction l as [|a r IH]; intros i j S Hij Hj; simpl in Hj; [lia|].
  inversion S as [|? ? S' F]; subst.
  destruct j as [|j]; [lia|]. destruct i as [|i]; simpl.
  - rewrite Forall_forall in F. apply F. apply nth_In. lia.
  - apply IH; auto; lia.
Qed.

Lemma take_idx_ascending (a idx t : list nat) :
  StronglySorted lt a -> StronglySorted lt idx ->
  take_idx a idx = Ok t -> StronglySorted lt t.
Proof.
  intros Sa Si H. apply (take_idx_spec 0) in H as [B ->].
  induction Si as [|p ps S IH F]; simpl; [constructor|].
  inversion B as [|? ? Bp Bps]; subst.
  constructor; [apply IH; exact Bps|].
  rewrite Forall_forall in F, Bps.
  apply Forall_forall. intros x Hx. apply in_map_iff in Hx as [q [<- Hq]].
  apply ascending_nth_lt; auto.
Qed.

(** The two sides of a binary split: ascending, and together the whole
    popped cluster. *)
Lemma pop_split_binary X st v :
  binary_split _split ->
  pop_split _split X st = Ok v ->
  StronglySorted lt (sv_indices0 v) /\
  StronglySorted lt (sv_indices1 v) /\
  (forall i, nth_error (fs_labels st) i = Some (sv_label v) ->
             In i (sv_indices0 v) \/ In i (sv_indices1 v)).
Proof.
  intros Hb H. unfold pop_split in H.
  bind_inv H. destruct a as [[[k label] score] heap]. simpl in H.
  bind_inv H. rename a into cluster.
  bind_inv H. rename a into indices0. bind_inv H. rename a into indices1.
  injection H as <-. simpl.
  set (ci := np_nonzero (map (fun l => l =? label) (fs_labels st))) in *.
  destruct (Hb cluster) as [Ls Fs].
  refine (conj _ (conj _ _)).
  - eapply take_idx_ascending; [| |exact Ha1]; apply np_nonzero_ascending.
  - eapply take_idx_ascending; [| |exact Ha2]; apply np_nonzero_ascending.
  - intros i Hi. apply positions_In in Hi. fold ci in Hi.
    apply In_nth_error in Hi as [p Hp].
    assert (Bp : p < length (_split cluster)).
    { rewrite Ls, (take_idx_length _ _ _ Ha0).
      apply nth_error_Some. congruence. }
    destruct (nth_error (_split cluster) p) as [z|] eqn:Hz;
      [|apply nth_error_None in Hz; lia].
    rewrite Forall_forall in Fs.
    pose proof (nth_error_nth _ _ 0 Hp) as Ei.
    apply (take_idx_spec 0) in Ha1 as [_ E0].
    apply (take_idx_spec 0) in Ha2 as [_ E1].
    destruct (Fs z (nth_error_In _ _ Hz)) as [->| ->]; [left|right].
    + rewrite E0. apply in_map_iff. exists p. split; [exact Ei|].
      apply np_nonzero_In. rewrite nth_error_map, Hz. reflexivity.
    + rewrite E1. apply in_map_iff. exists p. split; [exact Ei|].
      apply np_nonzero_In. rewrite nth_error_map, Hz. reflexivity.
Qed.

Lemma positions_ext labels labels' l l' :
  (forall p, nth_error labels p = Some l <-> nth_error labels' p = Some l') ->
  np_nonzero (map (fun x => x =? l) labels)
  = np_nonzero (map (fun x => x =? l') labels').
Proof.
  intros H. apply ascending_ext; try apply np_nonzero_ascending.
  intros p. rewrite !positions_In. apply H.
Qed.

Lemma positions_are labels l idx :
  StronglySorted lt idx ->
  (forall p, nth_error labels p = Some l <-> In p idx) ->
  np_nonzero (map (fun x => x =? l) labels) = idx.
Proof.
  intros S H. apply ascending_ext; [apply np_nonzero_ascending|exact S|].
  intros p. rewrite positions_In. apply H.
Qed.

Lemma combine_snoc {A B : Type} (a : list A) (b : list B) x z :
  length a = length b ->
  combine (a ++ [x]) (b ++ [z]) = combine a b ++ [(x, z)].
Proof.
  revert b; induction a as [|a0 a IH]; intros [|b0 b] L; simpl in *;
    try discriminate; [reflexivity|].
  f_equal. apply IH. lia.
Qed.

Lemma scored_clusters_after_pop st v k :
  length (fs_scores st) = length (fs_clusters st) ->
  Permutation ((k, sv_label v, sv_score v) :: sv_heap v) (fs_heap st) ->
  Permutation
    (combine (fs_clusters st) (fs_scores st)
     ++ (sv_label v, sv_score v)
        :: map (fun c => (cand_label c, cand_score c)) (sv_heap v))
    (scored_clusters st).
Proof.
  intros L P. unfold scored_clusters. apply Permutation_app_head.
  apply (Permutation_map (fun c => (cand_label c, cand_score c))) in P.
  exact P.
Qed.

Lemma step_scores_match X y mcs n st st' :
  binary_split _split ->
  length y = n ->
  partitions n st -> scores_match n y st ->
  step _split np_std X y mcs n st = Ok st' -> scores_match n y st'.
Proof.
  unfold step. intros Hb Ly Ip Hs H. bind_inv H. rename a into v.
  pose proof (popped_label_bound _ _ _ _ Ip Ha) as Bl.
  destruct (pop_split_facts _ _ _ Ha) as ([k P] & F0 & F1 & N0 & N1 & D).
  destruct (pop_split_binary _ _ _ Hb Ha) as (A0 & A1 & Cov).
  pose proof Ip as (I1 & I2 & I3 & I4 & I5).
  pose proof (scored_clusters_after_pop _ _ _ I5 P) as Pp.
  apply decide_split_cases in H as [->|(_ & s0 & s1 & D0 & D1 & _ & A)].
  - destruct Hs as [E1|Hs]; [left; exact E1|]. right.
    unfold scored_clusters; simpl.
    rewrite combine_snoc by (symmetry; exact I5). rewrite <- app_assoc.
    eapply Permutation_Forall; [symmetry; exact Pp|exact Hs].
  - right.
    apply disc_score_ok in D0 as [_ ->]; auto.
    apply disc_score_ok in D1 as [_ ->]; auto.
    apply accept_split_materialized in A as (M1 & M2 & (k0 & k1 & M3) & M4 & M5).
    (* the clusters other than the popped one keep their points *)
    assert (Nd : NoDup (fs_clusters st ++ sv_label v
                        :: map cand_label (sv_heap v))).
    { eapply Permutation_NoDup;
        [symmetry; eapply perm_trans;
           [apply (all_clusters_after_pop _ _ _ P)|exact I2]
        |apply seq_NoDup]. }
    assert (Old : Forall
                    (fun p => fst p <> sv_label v /\ fst p < fs_n_clusters st /\
                              (fs_n_clusters st <> 1 ->
                               snd p = spec_score n y
                                 (np_nonzero (map (fun l => l =? fst p)
                                                (fs_labels st)))))
                    (combine (fs_clusters st) (fs_scores st)
                     ++ map (fun c => (cand_label c, cand_score c)) (sv_heap v))).
    { apply Forall_forall. intros [l s] Hin.
      assert (Hl : In l (fs_clusters st) \/ In l (map cand_label (sv_heap v))).
      { apply in_app_or in Hin as [Hin|Hin].
        - left. eapply in_combine_l; eauto.
        - right. apply in_map_iff in Hin as (c & Ec & Hc). injection Ec as <- _.
          apply in_map. exact Hc. }
      simpl. refine (conj _ (conj _ _)).
      - intros ->. apply NoDup_remove_2 in Nd. apply Nd.
        apply in_or_app. exact Hl.
      - assert (In l (all_clusters st)).
        { eapply Permutation_in; [apply (all_clusters_after_pop _ _ _ P)|].
          apply in_or_app. destruct Hl; [left|right; right]; auto. }
        apply (Permutation_in _ I2) in H. apply in_seq in H. lia.
      - intros Hn. destruct Hs as [E1|Hs]; [congruence|].
        apply (Permutation_Forall (Permutation_sym Pp)) in Hs.
        rewrite Forall_forall in Hs.
        apply (Hs (l, s)). apply in_app_or in Hin as [Hin|Hin];
          apply in_or_app; [left|right; right]; auto. }
    assert (One : fs_n_clusters st = 1 ->
                  combine (fs_clusters st) (fs_scores st)
                  ++ map (fun c => (cand_label c, cand_score c)) (sv_heap v) = []).
    { intros E1. apply Permutation_length in I2.
      rewrite length_seq, E1 in I2.
      pose proof (Permutation_length (all_clusters_after_pop _ _ _ P)) as Lp.
      rewrite I2, length_app in Lp. simpl in Lp. rewrite length_map in Lp.
      destruct (fs_clusters st); [|simpl in Lp; lia].
      destruct (sv_heap v); [reflexivity|simpl in Lp; lia]. }
    assert (E0 : np_nonzero (map (fun l => l =? sv_label v) (fs_labels st'))
                 = sv_indices0 v).
    { apply positions_are; [exact A0|]. intros p. rewrite M2. split.
      - destruct (existsb (Nat.eqb p) (sv_indices1 v)) eqn:Ex.
        + intros Hp. injection Hp as Hp. lia.
        + intros Hp. destruct (Cov _ Hp) as [C|C]; [exact C|].
          apply existsb_eqb_In in C. congruence.
      - intros Hp. destruct (existsb (Nat.eqb p) (sv_indices1 v)) eqn:Ex.
        + apply existsb_eqb_In in Ex. destruct (D _ Hp Ex).
        + apply F0. exact Hp. }
    assert (E1 : np_nonzero (map (fun l => l =? fs_n_clusters st) (fs_labels st'))
                 = sv_indices1 v).
    { apply positions_are; [exact A1|]. intros p. rewrite M2. split.
      - destruct (existsb (Nat.eqb p) (sv_indices1 v)) eqn:Ex.
        + intros _. apply existsb_eqb_In. exact Ex.
        + intros Hp. pose proof (labels_bound _ _ _ _ Ip Hp). lia.
      - intros Hp. rewrite (proj2 (existsb_eqb_In p _) Hp). reflexivity. }
    assert (Keep : Forall
                     (fun p => snd p = spec_score n y
                                 (np_nonzero (map (fun l => l =? fst p)
                                                (fs_labels st'))))
                     (combine (fs_clusters st) (fs_scores st)
                      ++ map (fun c => (cand_label c, cand_score c)) (sv_heap v))).
    { destruct (Nat.eq_dec (fs_n_clusters st) 1) as [En|En].
      - rewrite (One En). constructor.
      - eapply Forall_impl; [|exact Old].
        intros [l s] (Nl & Bn & Hp). simpl in *.
        rewrite (Hp En). f_equal. symmetry. apply positions_ext.
        intros p. rewrite M2.
        destruct (existsb (Nat.eqb p) (sv_indices1 v)) eqn:Ex; [|reflexivity].
        apply existsb_eqb_In in Ex. rewrite (F1 _ Ex).
        split; intros Hp'; injection Hp' as Hp'; lia. }
    apply Forall_app in Keep as [K1 K2].
    unfold scored_clusters. rewrite M4, M5.
    apply Forall_app. split; [exact K1|].
    eapply Permutation_Forall.
    { symmetry.
      apply (Permutation_map (fun c => (cand_label c, cand_score c))). exact M3. }
    cbn [map].
    constructor;
      [unfold cand_label, cand_score; cbn [fst snd]; rewrite E1; reflexivity|].
    constructor;
      [unfold cand_label, cand_score; cbn [fst snd]; rewrite E0; reflexivity|].
    exact K2.
Qed.

Lemma fit_loop_scores_match X y mcs n turns : forall st st' r,
  binary_split _split -> length y = n ->
  partitions n st -> scores_match n y st ->
  fit_loop _split np_std X y mcs n turns st = (st', r) -> scores_match n y st'.
Proof.
  induction turns as [|t IH]; intros st st' r Hb Ly Ip I; simpl.
  - intros H. injection H as <- _. exact I.
  - destruct (fs_heap st) eqn:Eh.
    + intros H. injection H as <- _. exact I.
    + destruct (step _split np_std X y mcs n st) as [st1|ex] eqn:Es.
      * apply IH; auto.
        -- eapply step_partitions; eauto.
        -- eapply step_scores_match; eauto.
      * intros H. injection H as <- _. exact I.
Qed.

Lemma combine_append {A B : Type} (a a' : list A) (b b' : list B) :
  length a = length b ->
  combine (a ++ a') (b ++ b') = combine a b ++ combine a' b'.
Proof.
  revert b; induction a as [|a0 a IH]; intros [|b0 b] L; simpl in *;
    try discriminate; [reflexivity|].
  f_equal. apply IH. lia.
Qed.

Lemma scored_clusters_combine st :
  length (fs_scores st) = length (fs_clusters st) ->
  scored_clusters st = combine (all_clusters st) (all_scores st).
Proof.
  intros L. unfold scored_clusters, all_clusters, all_scores.
  rewrite combine_append by (symmetry; exact L). f_equal.
  induction (fs_heap st) as [|c h IH]; simpl; [reflexivity|]. f_equal. exact IH.
Qed.

(** X10.  With a binary split strategy, after a successful [fit] that
    found more than one cluster, [scores_[l]] is the discrimination
    score of the final cluster [l]: the mean of [y] over the points that
    [labels_] does not give label [l], minus the mean of [y] over those
    it does. *)
Theorem scores_are_discrimination_scores X y e e' n scores labels :
  binary_split _split ->
  fit' X y e = (e', Ok tt) ->
  n_clusters_ e' = Some n ->
  scores_ e' = Some scores ->
  labels_ e' = Some labels ->
  n <> 1 ->
  forall l s,
    nth_error scores l = Some s ->
    s = spec_score (length X) y (np_nonzero (map (fun x => x =? l) labels)).
Proof.
  intros Hb H En Es El Hn l s Hl. apply fit_ok_iff in H
    as (st & clusters & scores0 & labels0 & centroids & Hst & ->).
  simpl in En, Es, El. injection En as <-. injection Es as ->.
  injection El as ->.
  pose proof (fit_stages_facts _ _ _ _ _ _ _ _ Hst)
    as (Ip & Pi & Ec & Esc & Pr & Ls & Ll & Hmap).
  destruct Hst as (V & L & _).
  apply validate_Xy_ok in V as [_ Ly].
  assert (Hs : scores_match (length X) y st).
  { eapply fit_loop_scores_match;
      [exact Hb|exact Ly|apply partitions_init| |exact L].
    left. reflexivity. }
  destruct Hs as [E1|Hs]; [congruence|].
  pose proof Ip as (I1 & I2 & I3 & I4 & I5).
  rewrite (scored_clusters_combine _ I5) in Hs. rewrite Forall_forall in Hs.
  assert (La : length (all_clusters st) = fs_n_clusters st).
  { rewrite (Permutation_length I2). apply length_seq. }
  assert (Nr : NoDup clusters).
  { eapply Permutation_NoDup; [symmetry; exact Pr|apply seq_NoDup]. }
  (* the position sorted to rank [l] *)
  rewrite Esc, nth_error_map in Hl.
  destruct (nth_error (np_argsort (map fneg (all_scores st))) l)
    as [p|] eqn:Hp; [|discriminate].
  simpl in Hl. injection Hl as <-.
  assert (Bp : p < fs_n_clusters st).
  { apply nth_error_In in Hp. apply (Permutation_in _ Pi) in Hp.
    apply in_seq in Hp. lia. }
  set (c := nth p (all_clusters st) 0).
  assert (Hc : nth_error clusters l = Some c).
  { rewrite Ec, nth_error_map, Hp. reflexivity. }
  assert (Hin : In (c, nth p (all_scores st) NaN)
                   (combine (all_clusters st) (all_scores st))).
  { unfold c. rewrite <- (combine_nth _ _ p 0 NaN) by (symmetry; exact I4).
    apply nth_In. rewrite length_combine, I4, La. lia. }
  pose proof (Hs _ Hin) as Hv. cbn [fst snd] in Hv. rewrite Hv. f_equal.
  apply positions_ext. intros q. split.
  - intros Hq. destruct (Hmap _ _ Hq) as (r & Hr & Hlr).
    assert (r = l).
    { apply (proj1 (NoDup_nth_error clusters) Nr).
      - apply nth_error_Some. congruence.
      - congruence. }
    subst. exact Hlr.
  - intros Hq.
    assert (Bq : q < length (fs_labels st)).
    { rewrite I1, <- Ll. apply nth_error_Some. congruence. }
    destruct (nth_error (fs_labels st) q) as [c'|] eqn:Hc';
      [|apply nth_error_None in Hc'; lia].
    destruct (Hmap _ _ Hc') as (r & Hr & Hlr).
    assert (r = l) by congruence. subst. congruence.
Qed.

(** *** The first split *)







(** *** The cluster taken at each turn *)

Lemma rest_labels n st v k :
  partitions n st ->
  Permutation ((k, sv_label v, sv_score v) :: sv_heap v) (fs_heap st) ->
  forall d, In d (sv_heap v) ->
    cand_label d <> sv_label v /\ cand_label d < fs_n_clusters st.
Proof.
  intros (_ & I2 & _) P d Hd.
  pose proof (all_clusters_after_pop _ _ _ P) as Pa.
  assert (Nd : NoDup (fs_clusters st ++ sv_label v
                      :: map cand_label (sv_heap v))).
  { eapply Permutation_NoDup;
      [symmetry; eapply perm_trans; [exact Pa|exact I2]|apply seq_NoDup]. }
  split.
  - intros E. apply NoDup_remove_2 in Nd. apply Nd.
    apply in_or_app. right. rewrite <- E. apply in_map. exact Hd.
  - assert (In (cand_label d) (all_clusters st)).
    { eapply Permutation_in; [exact Pa|].
      apply in_or_app. right. right. apply in_map. exact Hd. }
    apply (Permutation_in _ I2) in H. apply in_seq in H. lia.
Qed.

(** The points of each cluster after a materialized split. *)
Lemma accept_positions X n st v s0 s1 st' :
  binary_split _split ->
  partitions n st ->
  pop_split _split X st = Ok v ->
  materialized st v s0 s1 st' ->
  np_nonzero (map (fun l => l =? sv_label v) (fs_labels st')) = sv_indices0 v /\
  np_nonzero (map (fun l => l =? fs_n_clusters st) (fs_labels st'))
  = sv_indices1 v /\
  (forall l, l <> sv_label v -> l < fs_n_clusters st ->
     np_nonzero (map (fun x => x =? l) (fs_labels st'))
     = np_nonzero (map (fun x => x =? l) (fs_labels st))).
Proof.
  intros Hb Ip Hp (_ & M2 & _).
  pose proof (popped_label_bound _ _ _ _ Ip Hp) as Bl.
  destruct (pop_split_facts _ _ _ Hp) as (_ & F0 & F1 & _ & _ & D).
  destruct (pop_split_binary _ _ _ Hb Hp) as (A0 & A1 & Cov).
  refine (conj _ (conj _ _)).
  - apply positions_are; [exact A0|]. intros p. rewrite M2. split.
    + destruct (existsb (Nat.eqb p) (sv_indices1 v)) eqn:Ex.
      * intros E. injection E as E. lia.
      * intros E. destruct (Cov _ E) as [C|C]; [exact C|].
        apply existsb_eqb_In in C. congruence.
    + intros E. destruct (existsb (Nat.eqb p) (sv_indices1 v)) eqn:Ex.
      * apply existsb_eqb_In in Ex. destruct (D _ E Ex).
      * apply F0. exact E.
  - apply positions_are; [exact A1|]. intros p. rewrite M2. split.
    + destruct (existsb (Nat.eqb p) (sv_indices1 v)) eqn:Ex.
      * intros _. apply existsb_eqb_In. exact Ex.
      * intros E. pose proof (labels_bound _ _ _ _ Ip E). lia.
    + intros E. rewrite (proj2 (existsb_eqb_In p _) E). reflexivity.
  - intros l Nl Bn. apply positions_ext. intros p. rewrite M2.
    destruct (existsb (Nat.eqb p) (sv_indices1 v)) eqn:Ex; [|reflexivity].
    apply existsb_eqb_In in Ex. rewrite (F1 _ Ex).
    split; intros E; injection E as E; lia.
Qed.

Lemma fneg_fin_inv a k : fneg a = Fin k -> a = Fin (- k)%Q /\ exists q, a = Fin q /\ k = (- q)%Q.
Proof.
  destruct a as [q|]; [|discriminate]. simpl. intros H. injection H as <-.
  split; [|eauto]. f_equal.
  destruct q as [n d]. unfold Qopp. simpl. rewrite Z.opp_involutive. reflexivity.
Qed.

(** What [heappop] leaves and returns, on the heap of the loop. *)
Lemma pop_split_least X y st v :
  heap_invariant np_std y st ->
  pop_split _split X st = Ok v ->
  Forall good_cand (sv_heap v) /\ heap_ordered (sv_heap v) /\
  keyed_by_deviation np_std y (fs_labels st) (sv_heap v) /\
  (forall d, In d (sv_heap v) ->
     fge (deviation np_std y (fs_labels st) (sv_label v))
         (deviation np_std y (fs_labels st) (cand_label d)) = true).
Proof.
  intros I H. unfold pop_split in H.
  bind_inv H. destruct a as [[[k label] score] rest]. cbn [fst snd] in H.
  bind_inv H. bind_inv H. bind_inv H. injection H as <-. cbn [sv_heap sv_label].
  destruct I as [E|(G & O & K)].
  - rewrite E, heappop_singleton in Ha. injection Ha as _ _ _ <-.
    refine (conj (Forall_nil _) (conj _ (conj (Forall_nil _) _))).
    + intros i u w _ Eu. destruct (parent i); discriminate.
    + intros d [].
  - pose proof (heappop_perm _ _ _ Ha) as P.
    destruct (heappop_ordered _ _ _ G O Ha) as [R O'].
    pose proof (Permutation_Forall (Permutation_sym P) G) as G'.
    pose proof (Permutation_Forall (Permutation_sym P) K) as K'.
    apply Forall_cons_iff in G' as [Gc Gr]. apply Forall_cons_iff in K' as [Kc Kr].
    refine (conj Gr (conj O' (conj Kr _))).
    intros d Hd.
    assert (Hin : In d (fs_heap st))
      by (eapply Permutation_in; [exact P|right; exact Hd]).
    apply In_nth_error in Hin as [i Hi].
    pose proof (heap_root_least _ _ G O R i d Hi) as Le.
    rewrite Forall_forall in Kr, Gr.
    pose proof (Kr _ Hd) as Kd. destruct (Gr _ Hd) as (kd & ld & sd & ->).
    destruct Gc as (kc & lc & sc & Ec). injection Ec as -> -> ->.
    unfold cand_label in *. cbn [fst snd] in *.
    apply cand_le_key in Le.
    injection Kc as Kc. injection Kd as Kd.
    symmetry in Kc, Kd.
    apply fneg_fin_inv in Kc as [-> _]. apply fneg_fin_inv in Kd as [-> _].
    simpl. apply Qle_bool_iff. lra.
Qed.

Lemma std_finite_fin y :
  std_finite np_std -> y <> [] -> exists q, np_std y = Fin q.
Proof.
  intros Hs N. specialize (Hs y N). destruct (np_std y) as [q|]; [eauto|discriminate].
Qed.

Lemma step_heap_invariant X y mcs n st st' :
  binary_split _split -> std_finite np_std ->
  (1 <= mcs)%Z -> length y = n ->
  partitions n st -> finite_scores st -> heap_invariant np_std y st ->
  step _split np_std X y mcs n st = Ok st' -> heap_invariant np_std y st'.
Proof.
  intros Hb Hs Hm Ly Ip If I H.
  pose proof (step_finite_scores _ _ _ _ _ _ Hm Ly (proj1 Ip) If H) as If'.
  unfold step in H. bind_inv H. rename a into v.
  destruct (pop_split_least _ _ _ _ I Ha) as (G & O & K & _).
  destruct (pop_split_facts _ _ _ Ha) as ([k P] & _).
  apply decide_split_cases in H as [->|(S & s0 & s1 & _ & _ & _ & A)].
  - right. cbn [finalize_popped fs_heap fs_labels]. auto.
  - right. pose proof (accept_split_materialized _ _ _ _ _ _ A) as M.
    destruct (accept_positions _ _ _ _ _ _ _ Hb Ip Ha M) as (E0 & E1 & Keep).
    apply sizes_ok_iff in S as [S0 S1].
    unfold accept_split in A.
    bind_inv A. rename a into y0. bind_inv A. rename a into heap1.
    bind_inv A. rename a into y1. bind_inv A. rename a into heap2.
    bind_inv A. rename a into labels. injection A as <-.
    cbn [fs_heap fs_labels] in *.
    apply (take_idx_spec 0%Q) in Ha0 as [_ Ey0].
    apply (take_idx_spec 0%Q) in Ha2 as [_ Ey1].
    fold (y_over y (sv_indices0 v)) in Ey0.
    fold (y_over y (sv_indices1 v)) in Ey1.
    destruct (std_finite_fin y0 Hs) as [q0 Q0].
    { subst y0. unfold y_over. destruct (sv_indices0 v); [simpl in S0; lia|].
      discriminate. }
    destruct (std_finite_fin y1 Hs) as [q1 Q1].
    { subst y1. unfold y_over. destruct (sv_indices1 v); [simpl in S1; lia|].
      discriminate. }
    pose proof (Permutation_sym (heappush_perm _ _ _ Ha1)) as P1.
    pose proof (Permutation_sym (heappush_perm _ _ _ Ha3)) as P2.
    (* the scores on the new heap are numbers *)
    assert (Fs : Forall (fun c => is_fin (cand_score c) = true) heap2).
    { unfold finite_scores, all_scores in If'. cbn [fs_heap fs_scores] in If'.
      apply Forall_app in If' as [_ If']. apply Forall_map in If'. exact If'. }
    rewrite Forall_forall in Fs.
    assert (G0 : good_cand (Some (fneg (np_std y0)), sv_label v, s0)).
    { assert (Hin : In (Some (fneg (np_std y0)), sv_label v, s0) heap2).
      { eapply Permutation_in; [exact P2|]. right.
        eapply Permutation_in; [exact P1|]. left. reflexivity. }
      apply Fs in Hin. unfold cand_score in Hin. cbn [snd] in Hin.
      destruct s0 as [s|]; [|discriminate]. rewrite Q0. simpl.
      do 3 eexists. reflexivity. }
    assert (G1 : good_cand (Some (fneg (np_std y1)), fs_n_clusters st, s1)).
    { assert (Hin : In (Some (fneg (np_std y1)), fs_n_clusters st, s1) heap2).
      { eapply Permutation_in; [exact P2|]. left. reflexivity. }
      apply Fs in Hin. unfold cand_score in Hin. cbn [snd] in Hin.
      destruct s1 as [s|]; [|discriminate]. rewrite Q1. simpl.
      do 3 eexists. reflexivity. }
    assert (Gh1 : Forall good_cand heap1).
    { eapply Permutation_Forall; [exact P1|]. constructor; auto. }
    pose proof (heappush_ordered _ _ _ G G0 O Ha1) as O1.
    pose proof (heappush_ordered _ _ _ Gh1 G1 O1 Ha3) as O2.
    refine (conj _ (conj O2 _)).
    + eapply Permutation_Forall; [exact P2|]. constructor; auto.
    + unfold keyed_by_deviation.
      eapply Permutation_Forall; [exact P2|].
      constructor;
        [unfold deviation, cand_label; cbn [fst snd]; rewrite E1, Ey1;
         reflexivity|].
      eapply Permutation_Forall; [exact P1|].
      constructor;
        [unfold deviation, cand_label; cbn [fst snd]; rewrite E0, Ey0;
         reflexivity|].
      unfold keyed_by_deviation in K. rewrite Forall_forall in K.
      apply Forall_forall. intros d Hd.
      destruct (rest_labels _ _ _ _ Ip P d Hd) as [Nl Bl].
      rewrite (K d Hd). unfold deviation. rewrite (Keep _ Nl Bl). reflexivity.
Qed.

Lemma fit_loop_heap_invariant X y mcs n turns : forall st st' r,
  binary_split _split -> std_finite np_std ->
  (1 <= mcs)%Z -> length y = n ->
  partitions n st -> finite_scores st -> heap_invariant np_std y st ->
  fit_loop _split np_std X y mcs n turns st = (st', r) ->
  partitions n st' /\ heap_invariant np_std y st'.
Proof.
  induction turns as [|t IH]; intros st st' r Hb Hs Hm Ly Ip If I; simpl.
  - intros H. injection H as <- _. auto.
  - destruct (fs_heap st) eqn:Eh.
    + intros H. injection H as <- _. auto.
    + destruct (step _split np_std X y mcs n st) as [st1|ex] eqn:Es.
      * apply IH; auto.
        -- eapply step_partitions; eauto.
        -- eapply step_finite_scores; eauto. apply Ip.
        -- eapply step_heap_invariant; eauto.
      * intros H. injection H as <- _. auto.
Qed.

(** X16.  At every turn of the loop of [fit] the cluster taken from the
    heap is one whose outcomes deviate most: no candidate left on the
    heap has a greater [np.std] of [y] over its points.  For a binary
    split strategy, [min_cluster_size >= 1] and an [np.std] that gives a
    number on every non-empty array; [st] is any state the loop reaches on
    validated data. *)
Theorem split_takes_greatest_deviation X y mcs turns st r v :
  binary_split _split -> std_finite np_std ->
  (1 <= mcs)%Z ->
  validate_Xy X y = Ok tt ->
  fit_loop _split np_std X y mcs (length X) turns (init_state (length X))
  = (st, r) ->
  pop_split _split X st = Ok v ->
  forall d, In d (sv_heap v) ->
    fge (deviation np_std y (fs_labels st) (sv_label v))
        (deviation np_std y (fs_labels st) (cand_label d)) = true.
Proof.
  intros Hb Hs Hm V L Hp.
  apply validate_Xy_ok in V as [_ Ly].
  destruct (fit_loop_heap_invariant _ _ _ _ _ _ _ _ Hb Hs Hm Ly
              (partitions_init _) (finite_scores_init _)
              (or_introl eq_refl) L) as [_ I].
  exact (proj2 (proj2 (proj2 (pop_split_least _ _ _ _ I Hp)))).
Qed.

End Verification.

(** ** The insertion argsort satisfies the laws of [np.argsort] *)

Lemma insert_idx_perm v i s : Permutation (insert_idx v i s) (i :: s).
Proof.
  induction s as [|j r IH]; simpl; [reflexivity|].
  destruct (np_le (nth i v NaN) (nth j v NaN)); [reflexivity|].
  eapply perm_trans; [apply perm_skip; exact IH|]. apply perm_swap.
Qed.

Lemma insertion_argsort_permutes : argsort_permutes insertion_argsort.
Proof.
  intros v. unfold insertion_argsort.
  induction (seq 0 (length v)) as [|i r IH]; simpl; [reflexivity|].
  eapply perm_trans; [apply insert_idx_perm|]. apply perm_skip. exact IH.
Qed.

Lemma np_le_total a b : np_le a b = false -> np_le b a = true.
Proof.
  destruct a as [x|], b as [z|]; simpl; try discriminate; auto.
  intros H. apply Qle_bool_iff.
  destruct (Qlt_le_dec z x) as [C|C]; [apply Qlt_le_weak; exact C|].
  apply Qle_bool_iff in C. congruence.
Qed.

Lemma np_le_trans a b c : np_le a b = true -> np_le b c = true -> np_le a c = true.
Proof.
  destruct a as [x|], b as [z|], c as [w|]; simpl; try discriminate; auto.
  intros H1 H2. apply Qle_bool_iff in H1, H2. apply Qle_bool_iff.
  eapply Qle_trans; eauto.
Qed.

Lemma insert_idx_sorted v i s :
  StronglySorted np_asc (map (fun k => nth k v NaN) s) ->
  StronglySorted np_asc (map (fun k => nth k v NaN) (insert_idx v i s)).
Proof.
  induction s as [|j r IH]; simpl; intros H.
  - constructor; constructor.
  - inversion H as [|? ? H1 H2]; subst.
    destruct (np_le (nth i v NaN) (nth j v NaN)) eqn:E; simpl.
    + constructor; [exact H|]. constructor; [exact E|].
      eapply Forall_impl; [|exact H2]. intros a Ha.
      unfold np_asc in *. eapply np_le_trans; eauto.
    + constructor; [apply IH; exact H1|].
      apply Forall_forall. intros a Ha. apply in_map_iff in Ha as [k [<- Hk]].
      apply (Permutation_in _ (insert_idx_perm v i r)) in Hk.
      destruct Hk as [->|Hk].
      * apply np_le_total. exact E.
      * rewrite Forall_forall in H2. apply H2. apply in_map_iff. eauto.
Qed.

Lemma insertion_argsort_sorts : argsort_sorts insertion_argsort.
Proof.
  intros v. unfold insertion_argsort.
  induction (seq 0 (length v)) as [|i r IH]; simpl; [constructor|].
  apply insert_idx_sorted. exact IH.
Qed.

(** * The experiment script *)

(** ** Element-wise operators *)

Lemma combine_map_both {A B A' B' : Type} (g : A -> A') (h : B -> B') a b :
  combine (map g a) (map h b)
  = map (fun p => (g (fst p), h (snd p))) (combine a b).
Proof.
  revert b; induction a as [|x r IH]; intros [|v b]; simpl; auto.
  f_equal. apply IH.
Qed.

Lemma combine_map_same {A B C : Type} (g : A -> B) (h : A -> C) a :
  combine (map g a) (map h a) = map (fun x => (g x, h x)) a.
Proof. induction a as [|x r IH]; simpl; [reflexivity|]. f_equal. apply IH. Qed.

Lemma np_elementwise_map {A B A' B' C : Type}
  (f : A' -> B' -> C) (g : A -> A') (h : B -> B') a b :
  np_elementwise f (map g a) (map h b)
  = np_elementwise (fun u v => f (g u) (h v)) a b.
Proof.
  unfold np_elementwise. rewrite !length_map, combine_map_both, map_map.
  destruct (length a =? length b); [reflexivity|].
  destruct b as [|v [|v' b]], a as [|u [|u' a]]; simpl;
    rewrite ?map_map; reflexivity.
Qed.

Lemma np_elementwise_then_map {A B C D : Type}
  (f : A -> B -> C) (k : C -> D) a b :
  (m <- np_elementwise f a b ;; Ok (map k m))
  = np_elementwise (fun u v => k (f u v)) a b.
Proof.
  unfold np_elementwise.
  destruct (length a =? length b); simpl; [rewrite map_map; reflexivity|].
  destruct b as [|v [|v' b]], a as [|u [|u' a]]; simpl;
    rewrite ?map_map; reflexivity.
Qed.

(** Two arrays computed from the same operands have the same shape, and
    an operator applied to them acts element by element. *)
Lemma np_elementwise_pointwise {A B C D E : Type}
  (f : A -> B -> C) (g : A -> B -> D) (h : C -> D -> E) a b :
  (m <- np_elementwise f a b ;;
   n <- np_elementwise g a b ;;
   np_elementwise h m n)
  = np_elementwise (fun u v => h (f u v) (g u v)) a b.
Proof.
  assert (Z : forall {T : Type} (F : T -> C) (G : T -> D) (l : list T),
             np_elementwise h (map F l) (map G l)
             = Ok (map (fun x => h (F x) (G x)) l)).
  { intros T F G l. unfold np_elementwise.
    rewrite !length_map, Nat.eqb_refl, combine_map_same, map_map.
    reflexivity. }
  unfold np_elementwise at 1 2 4.
  destruct (length a =? length b); cbn [bind]; [apply Z|].
  destruct b as [|v [|v' b]], a as [|u [|u' a]]; cbn [bind];
    try reflexivity; apply Z.
Qed.

Lemma np_elementwise_ext_in {A B C : Type} (f g : A -> B -> C) a b :
  (forall u v, In u a -> In v b -> f u v = g u v) ->
  np_elementwise f a b = np_elementwise g a b.
Proof.
  intros H. unfold np_elementwise.
  destruct (length a =? length b).
  - f_equal. apply map_ext_in. intros [u v] Hp. simpl.
    apply H; [eapply in_combine_l|eapply in_combine_r]; exact Hp.
  - destruct b as [|v [|v' b]], a as [|u [|u' a]]; try reflexivity;
      f_equal; apply map_ext_in; intros w Hw; apply H; simpl; auto.
Qed.

Lemma np_elementwise_rel {A B C D : Type} (R : C -> D -> Prop)
  (f : A -> B -> C) (g : A -> B -> D) a b :
  (forall u v, In u a -> In v b -> R (f u v) (g u v)) ->
  match np_elementwise f a b, np_elementwise g a b with
  | Ok m, Ok n => Forall2 R m n
  | Raise ex, Raise ex' => ex = ex'
  | _, _ => False
  end.
Proof.
  assert (Z : forall {T : Type} (F : T -> C) (G : T -> D) (l : list T),
             (forall x, In x l -> R (F x) (G x)) ->
             Forall2 R (map F l) (map G l)).
  { intros T F G l. induction l as [|x r IH]; simpl; intros H;
      constructor; auto. }
  intros H. unfold np_elementwise.
  destruct (length a =? length b).
  - apply Z. intros [u v] Hp. simpl.
    apply H; [eapply in_combine_l|eapply in_combine_r]; exact Hp.
  - destruct b as [|v [|v' b]], a as [|u [|u' a]]; try reflexivity;
      apply Z; intros w Hw; apply H; simpl; auto.
Qed.

Lemma Qeq_bool_l u u' v : (u == u')%Q -> Qeq_bool u v = Qeq_bool u' v.
Proof.
  intros E. destruct (Qeq_bool u' v) eqn:B.
  - apply Qeq_bool_iff. apply Qeq_bool_iff in B. rewrite E. exact B.
  - destruct (Qeq_bool u v) eqn:B'; [|reflexivity].
    apply Qeq_bool_iff in B'. rewrite E in B'.
    apply Qeq_bool_iff in B'. congruence.
Qed.

Lemma Qeq_bool_r u v v' : (v == v')%Q -> Qeq_bool u v = Qeq_bool u v'.
Proof.
  intros E. destruct (Qeq_bool u v') eqn:B.
  - apply Qeq_bool_iff. apply Qeq_bool_iff in B. rewrite E. exact B.
  - destruct (Qeq_bool u v) eqn:B'; [|reflexivity].
    apply Qeq_bool_iff in B'. rewrite E in B'.
    apply Qeq_bool_iff in B'. congruence.
Qed.

(** X12.  On arrays of zeros and ones the misclassification metric is the
    sum of the false positives and the false negatives:
    [METRICS_BINARY['fp'](y, y_pred) + METRICS_BINARY['fn'](y, y_pred)]
    evaluates as [METRICS_BINARY['err'](y, y_pred)] does, to the same array
    or to the same broadcasting error. *)
Theorem err_is_fp_plus_fn y y_pred :
  binary y -> binary y_pred ->
  (fp <- METRICS_BINARY_fp y y_pred ;;
   fn <- METRICS_BINARY_fn y y_pred ;;
   np_elementwise Z.add fp fn)
  = METRICS_BINARY_err y y_pred.
Proof.
  intros By Bp. unfold METRICS_BINARY_fp, METRICS_BINARY_fn, METRICS_BINARY_err.
  rewrite !np_elementwise_then_map, !np_elementwise_map,
    np_elementwise_pointwise.
  apply np_elementwise_ext_in. intros u v Hu Hv.
  unfold binary in By, Bp. rewrite Forall_forall in By, Bp.
  destruct (By _ Hu) as [E|E], (Bp _ Hv) as [F|F];
    rewrite !(Qeq_bool_l u _ _ E), !(Qeq_bool_l v _ _ F),
      (Qeq_bool_r _ v _ F); reflexivity.
Qed.

(** X13.  On arrays of zeros and ones the squared error of the continuous
    metrics is the misclassification indicator of the binary ones:
    [METRICS_CONTINUOUS['err']] and [METRICS_BINARY['err']] give the same
    numbers, or raise the same broadcasting error. *)
Theorem squared_error_of_binary_is_err y y_pred :
  binary y -> binary y_pred ->
  match METRICS_CONTINUOUS_err y y_pred, METRICS_BINARY_err y y_pred with
  | Ok sq, Ok err => Forall2 (fun q z => (q == inject_Z z)%Q) sq err
  | Raise ex, Raise ex' => ex = ex'
  | _, _ => False
  end.
Proof.
  intros By Bp. unfold METRICS_CONTINUOUS_err, METRICS_BINARY_err.
  rewrite !np_elementwise_then_map.
  apply np_elementwise_rel. intros u v Hu Hv.
  unfold binary in By, Bp. rewrite Forall_forall in By, Bp.
  destruct (By _ Hu) as [E|E], (Bp _ Hv) as [F|F];
    rewrite (Qeq_bool_l u _ _ E), (Qeq_bool_r _ v _ F), E, F; reflexivity.
Qed.

(** ** The guard of the t-tests *)

Lemma Qsum_acc l a : (fold_left Qplus l a == a + Qsum l)%Q.
Proof.
  unfold Qsum. revert a. induction l as [|x r IH]; intros a; simpl.
  - ring.
  - rewrite (IH (a + x)%Q), (IH (0 + x)%Q). ring.
Qed.

Lemma Qsum_cons x l : (Qsum (x :: l) == x + Qsum l)%Q.
Proof. unfold Qsum at 1. simpl. rewrite Qsum_acc. ring. Qed.

Lemma Qsum_nonneg l : Forall (fun v => (0 <= v)%Q) l -> (0 <= Qsum l)%Q.
Proof.
  induction 1 as [|x r Hx _ IH]; [discriminate|].
  rewrite Qsum_cons. rewrite <- (Qplus_0_r 0). apply Qplus_le_compat; auto.
Qed.

Lemma Qsum_pos l :
  Forall (fun v => (0 <= v)%Q) l -> Exists (fun v => (0 < v)%Q) l ->
  (0 < Qsum l)%Q.
Proof.
  intros N E. induction E as [x r Hx|x r _ IH];
    apply Forall_cons_iff in N as [Nx Nr]; rewrite Qsum_cons.
  - rewrite <- (Qplus_0_r 0). apply Qplus_lt_le_compat; auto.
    apply Qsum_nonneg; exact Nr.
  - rewrite Qplus_comm, <- (Qplus_0_r 0). apply Qplus_lt_le_compat; auto.
Qed.

Lemma Qsquare_nonneg v : (0 <= v * v)%Q.
Proof.
  destruct (Qlt_le_dec v 0) as [C|C].
  - setoid_replace (v * v)%Q with ((- v) * (- v))%Q by ring.
    apply Qmult_le_0_compat; apply (Qopp_le_compat v 0), Qlt_le_weak, C.
  - apply Qmult_le_0_compat; exact C.
Qed.

Lemma Qsquare_pos v : ~ (v == 0)%Q -> (0 < v * v)%Q.
Proof.
  intros N. destruct (proj1 (Qle_lteq _ _) (Qsquare_nonneg v)) as [C|C];
    [exact C|].
  symmetry in C. apply Qmult_integral in C. tauto.
Qed.

Lemma np_all_eq_false c v :
  np_all_eq c v = false -> exists u, In u c /\ ~ (u == v)%Q.
Proof.
  unfold np_all_eq. induction c as [|w r IH]; simpl; [discriminate|].
  intros H. apply andb_false_iff in H as [H|H].
  - exists w. split; [left; reflexivity|].
    intros E. apply Qeq_bool_iff in E. congruence.
  - destruct (IH H) as (u & Iu & Nu). exists u. auto.
Qed.

(** An array that is not constant has deviations from its mean. *)
Lemma squared_deviations_pos c v0 :
  In v0 c -> np_all_eq c v0 = false -> (0 < squared_deviations c)%Q.
Proof.
  intros I0 Hn. unfold squared_deviations.
  set (m := (Qsum c / inject_Z (Z.of_nat (length c)))%Q).
  apply Qsum_pos.
  - apply Forall_forall. intros q Hq. apply in_map_iff in Hq as (v & <- & _).
    apply Qsquare_nonneg.
  - apply np_all_eq_false in Hn as (u & Iu & Nu).
    apply Exists_exists.
    destruct (Qeq_dec v0 m) as [E|E].
    + exists ((u - m) * (u - m))%Q. split.
      * apply in_map_iff. exists u. auto.
      * apply Qsquare_pos. intros Z. apply Nu. rewrite E.
        setoid_replace u with ((u - m) + m)%Q by ring. rewrite Z. ring.
    + exists ((v0 - m) * (v0 - m))%Q. split.
      * apply in_map_iff. exists v0. auto.
      * apply Qsquare_pos. intros Z. apply E.
        setoid_replace v0 with ((v0 - m) + m)%Q by ring. rewrite Z. ring.
Qed.

Lemma mean_or_warn_returns c m :
  mean_or_warn c = Returns m ->
  c <> [] /\ m = (Qsum c / inject_Z (Z.of_nat (length c)))%Q.
Proof.
  unfold mean_or_warn, np_mean. destruct c as [|v r]; [discriminate|].
  intros H. injection H as <-. split; [discriminate|reflexivity].
Qed.

(** X14.  When [check_before_test] returns [False] the t-tests that follow
    are well defined: both samples have [min_samples] observations or more,
    their means differ, and neither sample is constant, so that both have
    a positive variance. *)
Theorem check_before_test_guards_the_tests c0 c1 min_samples :
  check_before_test c0 c1 min_samples = Returns false ->
  (min_samples <= Z.of_nat (length c0))%Z /\
  (min_samples <= Z.of_nat (length c1))%Z /\
  (exists m0 m1, np_mean c0 = Fin m0 /\ np_mean c1 = Fin m1 /\ ~ (m0 == m1)%Q) /\
  (0 < squared_deviations c0)%Q /\
  (0 < squared_deviations c1)%Q.
Proof.
  unfold check_before_test.
  destruct (_ || _) eqn:S; [discriminate|].
  apply orb_false_iff in S as [S0 S1].
  apply Z.ltb_ge in S0, S1.
  destruct (mean_or_warn c0) as [m0|] eqn:M0; [|discriminate].
  destruct (mean_or_warn c1) as [m1|] eqn:M1; [|discriminate].
  destruct (Qeq_bool m0 m1) eqn:E; [discriminate|].
  destruct c0 as [|v0 r0]; [discriminate|].
  destruct c1 as [|v1 r1]; [discriminate|].
  cbn [first].
  destruct (np_all_eq (v0 :: r0) v0) eqn:A0; [discriminate|].
  destruct (np_all_eq (v1 :: r1) v1) eqn:A1; [discriminate|].
  intros _. refine (conj S0 (conj S1 (conj _ (conj _ _)))).
  - exists m0, m1. unfold mean_or_warn in M0, M1.
    destruct (np_mean (v0 :: r0)); [|discriminate].
    destruct (np_mean (v1 :: r1)); [|discriminate].
    injection M0 as ->. injection M1 as ->.
    refine (conj eq_refl (conj eq_refl _)).
    intros C. apply Qeq_bool_iff in C. congruence.
  - apply (squared_deviations_pos _ v0); [left; reflexivity|exact A0].
  - apply (squared_deviations_pos _ v1); [left; reflexivity|exact A1].
Qed.


(** ** Examples *)


(** C2 at the boundary: a minimum size of two and a side of one point. *)
Lemma split_needs_min_size_witness :
  pop_split mean_split three_points (init_state 3) = Ok three_view /\
  Z.of_nat (length (sv_indices1 three_view)) = (2 - 1)%Z /\
  step mean_split std_floor three_points three_outcomes 2 3 (init_state 3)
    = Ok (finalize_popped (init_state 3) three_view).
Proof.
  assert (H1 : pop_split mean_split three_points (init_state 3) = Ok three_view)
    by (vm_compute; reflexivity).
  refine (conj H1 (conj eq_refl _)).
  apply (proj1 (split_needs_min_size mean_split std_floor three_points
                  three_outcomes 2 3 (init_state 3) three_view H1)).
  right. vm_compute. discriminate.
Defined.

(** C3 on the first split of the three points. *)
Lemma side_scores_are_outside_minus_inside_witness :
  length three_outcomes = 3 /\
  length (fs_labels (init_state 3)) = 3 /\
  pop_split mean_split three_points (init_state 3) = Ok three_view /\
  disc_score 3 three_outcomes [2] = Ok (spec_score 3 three_outcomes [2]) /\
  spec_score 3 three_outcomes [2] = Fin ((0 + 0 + 1) / 2 - (0 + 5) / 1)%Q.
Proof.
  assert (H1 : length three_outcomes = 3) by reflexivity.
  assert (H2 : length (fs_labels (init_state 3)) = 3) by reflexivity.
  assert (H3 : pop_split mean_split three_points (init_state 3) = Ok three_view)
    by (vm_compute; reflexivity).
  refine (conj H1 (conj H2 (conj H3 (conj _ eq_refl)))).
  exact (proj1 (proj2 (side_scores_are_outside_minus_inside mean_split std_floor
                         three_points three_outcomes 2 3 (init_state 3)
                         three_view H1 H2 H3))).
Defined.

(** C4 on the four points: three clusters, ranked by score. *)
Lemma fit_ranks_clusters_by_score_witness :
  argsort_permutes insertion_argsort /\
  argsort_sorts insertion_argsort /\
  fit_by_mean four_points four_outcomes (init 5 1) = (four_fitted, Ok tt) /\
  labels_ four_fitted = Some [0; 0; 1; 2] /\
  exists scores,
    scores_ four_fitted = Some scores /\
    length scores = 3 /\
    StronglySorted np_desc scores /\
    Forall (fun s => is_fin s = true) scores.
Proof.
  assert (H : fit_by_mean four_points four_outcomes (init 5 1)
              = (four_fitted, Ok tt)) by (vm_compute; reflexivity).
  refine (conj insertion_argsort_permutes (conj insertion_argsort_sorts
            (conj H (conj eq_refl _)))).
  destruct (fit_ranks_clusters_by_score mean_split std_floor insertion_argsort
              insertion_argsort_permutes four_points four_outcomes (init 5 1)
              four_fitted insertion_argsort_sorts H)
    as (st & ranked & scores & labels & L & N & S & _ & Sd & Fi & _ & Ls & _).
  exists scores. refine (conj S (conj _ (conj Sd (Fi _)))).
  - rewrite Ls. change (n_clusters_ four_fitted) with (Some 3) in N.
    congruence.
  - vm_compute. discriminate.
Defined.

(** C5 on the four points. *)
Lemma fit_labels_partition_witness :
  argsort_permutes insertion_argsort /\
  (1 <= min_cluster_size (init 5 1))%Z /\
  fit_by_mean four_points four_outcomes (init 5 1) = (four_fitted, Ok tt) /\
  exists n labels,
    n_clusters_ four_fitted = Some n /\
    labels_ four_fitted = Some labels /\
    length labels = length four_points /\
    Forall (fun l => l < n) labels /\
    (forall l, l < n -> In l labels).
Proof.
  assert (H : fit_by_mean four_points four_outcomes (init 5 1)
              = (four_fitted, Ok tt)) by (vm_compute; reflexivity).
  assert (Hm : (1 <= min_cluster_size (init 5 1))%Z) by (vm_compute; discriminate).
  refine (conj insertion_argsort_permutes (conj Hm (conj H _))).
  destruct (fit_labels_partition mean_split std_floor insertion_argsort
              insertion_argsort_permutes four_points four_outcomes (init 5 1)
              four_fitted H)
    as (n & labels & A & B & C & D & E & _).
  exists n, labels. exact (conj A (conj B (conj C (conj D (E Hm))))).
Defined.

(** C6 with no turn of the loop at all. *)
Lemma n_clusters_at_most_n_iter_plus_one_witness :
  argsort_permutes insertion_argsort /\
  (0 <= n_iter (init 0 1))%Z /\
  validate_Xy four_points four_outcomes = Ok tt /\
  fit_by_mean four_points four_outcomes (init 0 1) =
    (fitted (init 0 1) 1 [Fin 0%Q] [0; 0; 0; 0]
       [np_mean_axis0 2 four_points], Ok tt).
Proof.
  assert (Hn : (0 <= n_iter (init 0 1))%Z) by (vm_compute; discriminate).
  assert (V : validate_Xy four_points four_outcomes = Ok tt) by reflexivity.
  refine (conj insertion_argsort_permutes (conj Hn (conj V _))).
  exact (proj2 (n_clusters_at_most_n_iter_plus_one mean_split std_floor
                  insertion_argsort insertion_argsort_permutes
                  four_points four_outcomes (init 0 1) Hn) eq_refl V).
Defined.


(** The labels [predict] gives on these samples. *)
Example predict_four_fitted :
  predict [[0%Q; 0%Q]; [6%Q; 6%Q]; [3%Q; 0%Q]] four_fitted
  = (four_fitted, Ok [0; 1; 0]).
Proof. vm_compute. reflexivity. Qed.

(** C8 on a fresh engine. *)
Lemma predict_before_fit_raises_witness :
  never_fitted mean_split std_floor insertion_argsort (init 5 1) /\
  exists ex, predict [[0%Q]] (init 5 1) = (init 5 1, Raise ex).
Proof.
  assert (N : never_fitted mean_split std_floor insertion_argsort (init 5 1))
    by constructor.
  split; [exact N|].
  destruct (predict_before_fit_raises mean_split std_floor insertion_argsort
              [[0%Q]] (init 5 1) N) as (ex & P & _).
  exists ex. exact P.
Defined.

(** The claim C8 names NotFittedError; the code raises AttributeError. *)
Lemma predict_before_fit_is_not_NotFittedError :
  validate_X [[0%Q]] = Ok tt /\
  predict [[0%Q]] (init 5 1) = (init 5 1, Raise AttributeError) /\
  snd (predict [[0%Q]] (init 5 1)) <> Raise NotFittedError.
Proof.
  repeat split. vm_compute. discriminate.
Qed.

(** The claim C9 wants a minimum size of zero refused at call entry; the
    code runs, returns and writes the four attributes. *)
Lemma fit_accepts_min_cluster_size_zero :
  (min_cluster_size (init 2 0) <= 0)%Z /\
  fit_by_mean two_points two_outcomes (init 2 0) = (two_fitted_size_zero, Ok tt) /\
  n_clusters_ two_fitted_size_zero = Some 3 /\
  labels_ two_fitted_size_zero = Some [0; 1] /\
  two_fitted_size_zero <> init 2 0.
Proof.
  refine (conj _ (conj _ (conj eq_refl (conj eq_refl _)))).
  - vm_compute. discriminate.
  - vm_compute. reflexivity.
  - vm_compute. discriminate.
Qed.

Lemma mean_split_one_label_per_row : one_label_per_row mean_split.
Proof.
  intros cluster. unfold mean_split.
  destruct cluster as [|row r]; [reflexivity|].
  change (map (fun row0 => nth 0 row0 0%Q) (row :: r))
    with (nth 0 row 0%Q :: map (fun row0 => nth 0 row0 0%Q) r).
  unfold np_mean. rewrite length_map. simpl. rewrite length_map. reflexivity.
Qed.

(** C9 as the code has it, on the same call. *)
Lemma fit_validates_data_only_witness :
  argsort_permutes insertion_argsort /\
  (min_cluster_size (init 2 0) <= 0)%Z /\
  validate_Xy two_points two_outcomes = Ok tt /\
  one_label_per_row mean_split /\
  (exists n,
     n_clusters_ (fst (fit_by_mean two_points two_outcomes (init 2 0))) = Some n /\
     1 <= n) /\
  (exists e', fit_by_mean two_points two_outcomes (init 2 0) = (e', Ok tt)) /\
  fit_by_mean two_points [] (init 2 0) = (init 2 0, Raise ValueError).
Proof.
  assert (Hm : (min_cluster_size (init 2 0) <= 0)%Z) by (vm_compute; discriminate).
  assert (V : validate_Xy two_points two_outcomes = Ok tt) by reflexivity.
  pose proof (fit_validates_data_only mean_split std_floor insertion_argsort
                insertion_argsort_permutes two_points two_outcomes (init 2 0))
    as [_ T].
  destruct (T Hm) as [_ T']. destruct (T' V) as [T1 T2].
  refine (conj insertion_argsort_permutes (conj Hm (conj V
            (conj mean_split_one_label_per_row (conj T1
               (conj (T2 mean_split_one_label_per_row) _)))))).
  exact (proj1 (fit_validates_data_only mean_split std_floor
                  insertion_argsort insertion_argsort_permutes
                  two_points [] (init 2 0))
           ValueError eq_refl).
Defined.

(** Without a minimum size of one, the claim C5 fails: after two turns on
    the two points [n_clusters_] is three and no point carries label 2. *)
Lemma fit_size_zero_leaves_empty_cluster :
  fit_by_mean two_points two_outcomes (init 2 0) = (two_fitted_size_zero, Ok tt) /\
  n_clusters_ two_fitted_size_zero = Some 3 /\
  labels_ two_fitted_size_zero = Some [0; 1] /\
  2 < 3 /\ ~ In 2 [0; 1].
Proof.
  refine (conj _ (conj eq_refl (conj eq_refl (conj _ _)))).
  - vm_compute. reflexivity.
  - lia.
  - simpl. intros [H|[H|H]]; try discriminate; exact H.
Qed.


(** ** Examples for the further properties *)

Lemma mean_split_binary : binary_split mean_split.
Proof.
  intros cluster. unfold mean_split.
  destruct cluster as [|row r]; [split; [reflexivity|constructor]|].
  change (map (fun row0 => nth 0 row0 0%Q) (row :: r))
    with (nth 0 row 0%Q :: map (fun row0 => nth 0 row0 0%Q) r).
  unfold np_mean. split.
  - rewrite length_map. simpl. rewrite length_map. reflexivity.
  - apply Forall_forall. intros z Hz. apply in_map_iff in Hz as (x & <- & _).
    destruct (Qle_bool x _); auto.
Qed.

(** X1 on the four points: the greatest score is 3. *)
Lemma top_score_is_nonnegative_witness :
  argsort_permutes insertion_argsort /\
  argsort_sorts insertion_argsort /\
  fit_by_mean four_points four_outcomes (init 5 1) = (four_fitted, Ok tt) /\
  exists q rest, scores_ four_fitted = Some (Fin q :: rest) /\ (0 <= q)%Q.
Proof.
  assert (H : fit_by_mean four_points four_outcomes (init 5 1)
              = (four_fitted, Ok tt)) by (vm_compute; reflexivity).
  refine (conj insertion_argsort_permutes (conj insertion_argsort_sorts
            (conj H _))).
  exact (top_score_is_nonnegative mean_split std_floor insertion_argsort
           insertion_argsort_permutes four_points four_outcomes (init 5 1)
           four_fitted insertion_argsort_sorts H).
Defined.

(** X2: a [fit] without outcomes on the fitted engine raises, and [predict]
    still answers from the centroids of the four points. *)
Lemma failed_fit_keeps_predict_witness :
  snd (fit_by_mean two_points [] four_fitted) = Raise ValueError /\
  centroids_ (fst (fit_by_mean two_points [] four_fitted))
  = centroids_ four_fitted /\
  snd (predict [[0%Q; 0%Q]; [6%Q; 6%Q]]
         (fst (fit_by_mean two_points [] four_fitted)))
  = snd (predict [[0%Q; 0%Q]; [6%Q; 6%Q]] four_fitted).
Proof.
  assert (H : snd (fit_by_mean two_points [] four_fitted) = Raise ValueError)
    by (vm_compute; reflexivity).
  split; [exact H|].
  exact (failed_fit_keeps_predict mean_split std_floor insertion_argsort
           two_points [] four_fitted ValueError [[0%Q; 0%Q]; [6%Q; 6%Q]] H).
Defined.

(** X3 on the four points. *)
Lemma n_clusters_at_most_n_samples_witness :
  (1 <= min_cluster_size (init 5 1))%Z /\
  fit_by_mean four_points four_outcomes (init 5 1) = (four_fitted, Ok tt) /\
  exists n, n_clusters_ four_fitted = Some n /\ 1 <= n <= length four_points.
Proof.
  assert (Hm : (1 <= min_cluster_size (init 5 1))%Z) by (vm_compute; discriminate).
  assert (H : fit_by_mean four_points four_outcomes (init 5 1)
              = (four_fitted, Ok tt)) by (vm_compute; reflexivity).
  refine (conj Hm (conj H _)).
  exact (n_clusters_at_most_n_samples mean_split std_floor insertion_argsort
           four_points four_outcomes (init 5 1) four_fitted Hm H).
Defined.

(** X4: one iteration on the four points against five.  The first two
    points share a cluster after five iterations, so they do after one. *)
Lemma more_iterations_refine_clusters_witness :
  argsort_permutes insertion_argsort /\
  min_cluster_size (init 1 1) = min_cluster_size (init 5 1) /\
  (n_iter (init 1 1) <= n_iter (init 5 1))%Z /\
  fit_by_mean four_points four_outcomes (init 1 1)
  = (fst (fit_by_mean four_points four_outcomes (init 1 1)), Ok tt) /\
  fit_by_mean four_points four_outcomes (init 5 1) = (four_fitted, Ok tt) /\
  labels_ (fst (fit_by_mean four_points four_outcomes (init 1 1)))
  = Some [0; 0; 1; 1] /\
  labels_ four_fitted = Some [0; 0; 1; 2] /\
  exists b, nth_error [0; 0; 1; 1] 0 = Some b /\
            nth_error [0; 0; 1; 1] 1 = Some b.
Proof.
  assert (Hi : (n_iter (init 1 1) <= n_iter (init 5 1))%Z)
    by (vm_compute; discriminate).
  assert (H1 : fit_by_mean four_points four_outcomes (init 1 1)
               = (fst (fit_by_mean four_points four_outcomes (init 1 1)), Ok tt))
    by (vm_compute; reflexivity).
  assert (H2 : fit_by_mean four_points four_outcomes (init 5 1)
               = (four_fitted, Ok tt)) by (vm_compute; reflexivity).
  assert (L1 : labels_ (fst (fit_by_mean four_points four_outcomes (init 1 1)))
               = Some [0; 0; 1; 1]) by (vm_compute; reflexivity).
  refine (conj insertion_argsort_permutes (conj eq_refl (conj Hi
            (conj H1 (conj H2 (conj L1 (conj eq_refl _))))))).
  exact (more_iterations_refine_clusters mean_split std_floor insertion_argsort
           insertion_argsort_permutes four_points four_outcomes
           (init 1 1) (init 5 1) _ four_fitted [0; 0; 1; 1] [0; 0; 1; 2]
           eq_refl Hi H1 H2 L1 eq_refl 0 1 0 eq_refl eq_refl).
Defined.

(** X5 with a minimum size of two: the four points end in two clusters of
    two points. *)
Lemma min_cluster_size_is_honoured_witness :
  argsort_permutes insertion_argsort /\
  fit_by_mean four_points four_outcomes (init 5 2)
  = (fst (fit_by_mean four_points four_outcomes (init 5 2)), Ok tt) /\
  n_clusters_ (fst (fit_by_mean four_points four_outcomes (init 5 2))) = Some 2 /\
  labels_ (fst (fit_by_mean four_points four_outcomes (init 5 2)))
  = Some [0; 0; 1; 1] /\
  2 <> 1 /\ 1 < 2 /\
  (min_cluster_size (init 5 2) <= Z.of_nat (cluster_size [0; 0; 1; 1]%nat 1%nat))%Z.
Proof.
  assert (H : fit_by_mean four_points four_outcomes (init 5 2)
              = (fst (fit_by_mean four_points four_outcomes (init 5 2)), Ok tt))
    by (vm_compute; reflexivity).
  assert (N : n_clusters_ (fst (fit_by_mean four_points four_outcomes (init 5 2)))
              = Some 2) by (vm_compute; reflexivity).
  assert (L : labels_ (fst (fit_by_mean four_points four_outcomes (init 5 2)))
              = Some [0; 0; 1; 1]) by (vm_compute; reflexivity).
  assert (D : 2 <> 1) by discriminate.
  assert (B : 1 < 2) by lia.
  refine (conj insertion_argsort_permutes (conj H (conj N (conj L
            (conj D (conj B _)))))).
  exact (min_cluster_size_is_honoured mean_split std_floor insertion_argsort
           insertion_argsort_permutes four_points four_outcomes (init 5 2)
           _ 2 [0; 0; 1; 1] H N L D 1 B).
Defined.

(** X6 on the four points. *)
Lemma centroids_are_cluster_means_witness :
  argsort_permutes insertion_argsort /\
  (1 <= min_cluster_size (init 5 1))%Z /\
  fit_by_mean four_points four_outcomes (init 5 1) = (four_fitted, Ok tt) /\
  exists n labels,
    n_clusters_ four_fitted = Some n /\
    labels_ four_fitted = Some labels /\
    centroids_ four_fitted
    = Some (map (fun l => np_mean_axis0 (n_features four_points)
                            (rows_of four_points labels l)) (seq 0 n)).
Proof.
  assert (Hm : (1 <= min_cluster_size (init 5 1))%Z) by (vm_compute; discriminate).
  assert (H : fit_by_mean four_points four_outcomes (init 5 1)
              = (four_fitted, Ok tt)) by (vm_compute; reflexivity).
  refine (conj insertion_argsort_permutes (conj Hm (conj H _))).
  destruct (centroids_are_cluster_means mean_split std_floor insertion_argsort
              insertion_argsort_permutes four_points four_outcomes (init 5 1)
              four_fitted Hm H) as (n & labels & cents & A & B & C & _).
  exists n, labels. exact (conj A (conj B C)).
Defined.

(** X7: a sample of three features against centroids of two. *)
Lemma predict_rejects_other_feature_counts_witness :
  argsort_permutes insertion_argsort /\
  fit_by_mean four_points four_outcomes (init 5 1) = (four_fitted, Ok tt) /\
  validate_X [[0%Q; 0%Q; 0%Q]] = Ok tt /\
  n_features [[0%Q; 0%Q; 0%Q]] <> n_features four_points /\
  n_features [[0%Q; 0%Q; 0%Q]] <> 1 /\
  n_features four_points <> 1 /\
  predict [[0%Q; 0%Q; 0%Q]] four_fitted = (four_fitted, Raise ValueError).
Proof.
  assert (H : fit_by_mean four_points four_outcomes (init 5 1)
              = (four_fitted, Ok tt)) by (vm_compute; reflexivity).
  assert (V : validate_X [[0%Q; 0%Q; 0%Q]] = Ok tt) by reflexivity.
  assert (D1 : n_features [[0%Q; 0%Q; 0%Q]] <> n_features four_points)
    by (vm_compute; discriminate).
  assert (D2 : n_features [[0%Q; 0%Q; 0%Q]] <> 1) by (vm_compute; discriminate).
  assert (D3 : n_features four_points <> 1) by (vm_compute; discriminate).
  refine (conj insertion_argsort_permutes (conj H (conj V (conj D1
            (conj D2 (conj D3 _)))))).
  exact (predict_rejects_other_feature_counts mean_split std_floor
           insertion_argsort insertion_argsort_permutes four_points
           four_outcomes (init 5 1) four_fitted [[0%Q; 0%Q; 0%Q]]
           H V D1 D2 D3).
Defined.


(** X9: with four points, seven iterations and nine give the same fit. *)
Lemma n_iter_saturates_witness :
  (1 <= min_cluster_size (init 7 1))%Z /\
  (2 * Z.of_nat (length four_points) - 1 <= n_iter (init 7 1))%Z /\
  (2 * Z.of_nat (length four_points) - 1 <= n_iter (init 9 1))%Z /\
  fit_by_mean four_points four_outcomes (init 7 1)
  = (fst (fit_by_mean four_points four_outcomes (init 7 1)), Ok tt) /\
  exists e2',
    fit_by_mean four_points four_outcomes (init 9 1) = (e2', Ok tt) /\
    labels_ e2'
    = labels_ (fst (fit_by_mean four_points four_outcomes (init 7 1))).
Proof.
  assert (Hm : (1 <= min_cluster_size (init 7 1))%Z) by (vm_compute; discriminate).
  assert (H7 : (2 * Z.of_nat (length four_points) - 1 <= n_iter (init 7 1))%Z)
    by (vm_compute; discriminate).
  assert (H9 : (2 * Z.of_nat (length four_points) - 1 <= n_iter (init 9 1))%Z)
    by (vm_compute; discriminate).
  assert (H : fit_by_mean four_points four_outcomes (init 7 1)
              = (fst (fit_by_mean four_points four_outcomes (init 7 1)), Ok tt))
    by (vm_compute; reflexivity).
  refine (conj Hm (conj H7 (conj H9 (conj H _)))).
  destruct (n_iter_saturates mean_split std_floor insertion_argsort
              four_points four_outcomes (init 7 1) (init 9 1) _
              Hm eq_refl H7 H9 H) as (e2' & F & _ & _ & L & _).
  exists e2'. exact (conj F L).
Defined.

(** X10 on the four points: the score 3 of the cluster ranked first is the
    mean outcome of the last two points minus that of the first two. *)
Lemma scores_are_discrimination_scores_witness :
  argsort_permutes insertion_argsort /\
  binary_split mean_split /\
  fit_by_mean four_points four_outcomes (init 5 1) = (four_fitted, Ok tt) /\
  n_clusters_ four_fitted = Some 3 /\
  3 <> 1 /\
  nth_error [Fin (12 # 4); Fin (-4 # 3); Fin (-8 # 3)] 0 = Some (Fin (12 # 4)) /\
  Fin (12 # 4)
  = spec_score (length four_points) four_outcomes
      (np_nonzero (map (fun x => x =? 0) [0; 0; 1; 2])).
Proof.
  assert (H : fit_by_mean four_points four_outcomes (init 5 1)
              = (four_fitted, Ok tt)) by (vm_compute; reflexivity).
  assert (D : 3 <> 1) by discriminate.
  refine (conj insertion_argsort_permutes (conj mean_split_binary (conj H
            (conj eq_refl (conj D (conj eq_refl _)))))).
  exact (scores_are_discrimination_scores mean_split std_floor
           insertion_argsort insertion_argsort_permutes four_points
           four_outcomes (init 5 1) four_fitted 3
           [Fin (12 # 4); Fin (-4 # 3); Fin (-8 # 3)] [0; 0; 1; 2]
           mean_split_binary H eq_refl eq_refl eq_refl D 0 (Fin (12 # 4))
           eq_refl).
Defined.


Lemma binary_0110 : binary [0; 1; 1; 0]%Q.
Proof. repeat constructor; (left; reflexivity) || (right; reflexivity). Qed.

Lemma binary_0101 : binary [0; 1; 0; 1]%Q.
Proof. repeat constructor; (left; reflexivity) || (right; reflexivity). Qed.

(** X12: one false positive and one false negative among four predictions. *)
Lemma err_is_fp_plus_fn_witness :
  binary [0; 1; 1; 0]%Q /\ binary [0; 1; 0; 1]%Q /\
  METRICS_BINARY_fp [0; 1; 1; 0]%Q [0; 1; 0; 1]%Q = Ok [0; 0; 0; 1]%Z /\
  METRICS_BINARY_fn [0; 1; 1; 0]%Q [0; 1; 0; 1]%Q = Ok [0; 0; 1; 0]%Z /\
  np_elementwise Z.add [0; 0; 0; 1]%Z [0; 0; 1; 0]%Z
  = METRICS_BINARY_err [0; 1; 1; 0]%Q [0; 1; 0; 1]%Q.
Proof.
  refine (conj binary_0110 (conj binary_0101 (conj eq_refl (conj eq_refl _)))).
  exact (err_is_fp_plus_fn [0; 1; 1; 0]%Q [0; 1; 0; 1]%Q
           binary_0110 binary_0101).
Defined.

(** X13 on the same predictions. *)
Lemma squared_error_of_binary_is_err_witness :
  binary [0; 1; 1; 0]%Q /\ binary [0; 1; 0; 1]%Q /\
  match METRICS_CONTINUOUS_err [0; 1; 1; 0]%Q [0; 1; 0; 1]%Q,
        METRICS_BINARY_err [0; 1; 1; 0]%Q [0; 1; 0; 1]%Q with
  | Ok sq, Ok err => Forall2 (fun q z => (q == inject_Z z)%Q) sq err
  | Raise ex, Raise ex' => ex = ex'
  | _, _ => False
  end.
Proof.
  refine (conj binary_0110 (conj binary_0101 _)).
  exact (squared_error_of_binary_is_err [0; 1; 1; 0]%Q [0; 1; 0; 1]%Q
           binary_0110 binary_0101).
Defined.

(** X14: two samples of five observations that pass the guard. *)
Lemma check_before_test_guards_the_tests_witness :
  check_before_test [0; 1; 2; 3; 4]%Q [1; 2; 3; 4; 6]%Q 5 = Returns false /\
  (0 < squared_deviations [0; 1; 2; 3; 4]%Q)%Q /\
  (0 < squared_deviations [1; 2; 3; 4; 6]%Q)%Q.
Proof.
  assert (H : check_before_test [0; 1; 2; 3; 4]%Q [1; 2; 3; 4; 6]%Q 5
              = Returns false) by (vm_compute; reflexivity).
  split; [exact H|].
  exact (proj2 (proj2 (proj2 (check_before_test_guards_the_tests
                                [0; 1; 2; 3; 4]%Q [1; 2; 3; 4; 6]%Q 5 H)))).
Defined.

Lemma std_floor_finite : std_finite std_floor.
Proof. intros [|x r] N; [congruence|reflexivity]. Qed.

(** X16 on the three points: after the first turn the heap holds the
    cluster of the first two points, whose outcomes 0 and 1 deviate by
    1/2, and the cluster of the third point alone; the second turn takes
    the former. *)
Lemma split_takes_greatest_deviation_witness :
  binary_split mean_split /\ std_finite std_floor /\
  (1 <= 1)%Z /\
  validate_Xy three_points three_outcomes = Ok tt /\
  fit_loop mean_split std_floor three_points three_outcomes 1
    (length three_points) 1 (init_state (length three_points))
  = (three_after, None) /\
  pop_split mean_split three_points three_after = Ok three_second_view /\
  In (Some (Fin 0%Q), 1, Fin (-9 # 2)%Q) (sv_heap three_second_view) /\
  fge (deviation std_floor three_outcomes (fs_labels three_after) 0)
      (deviation std_floor three_outcomes (fs_labels three_after) 1) = true.
Proof.
  assert (Hm : (1 <= 1)%Z) by lia.
  assert (V : validate_Xy three_points three_outcomes = Ok tt) by reflexivity.
  assert (L : fit_loop mean_split std_floor three_points three_outcomes 1
                (length three_points) 1 (init_state (length three_points))
              = (three_after, None)) by (vm_compute; reflexivity).
  assert (P : pop_split mean_split three_points three_after
              = Ok three_second_view) by (vm_compute; reflexivity).
  assert (I : In (Some (Fin 0%Q), 1, Fin (-9 # 2)%Q)
                (sv_heap three_second_view)) by (left; reflexivity).
  refine (conj mean_split_binary (conj std_floor_finite (conj Hm (conj V
            (conj L (conj P (conj I _))))))).
  exact (split_takes_greatest_deviation mean_split std_floor three_points
           three_outcomes 1 1 three_after None three_second_view
           mean_split_binary std_floor_finite Hm V L P _ I).
Defined.
